(** * s3skunk: an S3 download benchmark (main.go)

    A shallow embedding of [main.go]: flag validation, the work-list
    builder, and the concurrent download pipeline of [run] (feeder,
    download workers, latency collector, coordinator) as an executable
    interleaving semantics over Go channels; then [main] itself and
    the two Perl scripts that make the data set and drive the sweep. *)

From stdpp Require Import base numbers strings pretty list sorting gmap.
From Stdlib Require Import ZArith QArith.QArith_base Lia Ascii.

(** ** Go's [int] and [uint] on a 64-bit target *)

Module GoInt.
Local Open Scope Z_scope.

Definition MinInt : Z := - 2 ^ 63.
Definition MaxInt : Z := 2 ^ 63 - 1.
Definition MaxUint : Z := 2 ^ 64 - 1.

Definition is_int (z : Z) : Prop := MinInt <= z <= MaxInt.
Definition is_uint (z : Z) : Prop := 0 <= z <= MaxUint.

(** Two's-complement wrap-around of a mathematical integer into [int]. *)
Definition wrap (z : Z) : Z := (z + 2 ^ 63) mod 2 ^ 64 - 2 ^ 63.

(** The conversion [int(u)] of a [uint] value. *)
Definition of_uint (u : Z) : Z := wrap u.

Definition mul (a b : Z) : Z := wrap (a * b).

(** [a / b] and [a % b] truncate towards zero; the divisor is non-zero
    where these are used. *)
Definition quo (a b : Z) : Z := wrap (Z.quot a b).
Definition rem (a b : Z) : Z := Z.rem a b.
End GoInt.

(** ** Constants and file sets *)

Definition KiB : Z := 1024.
Definition MiB : Z := 1024 * KiB.

Record fileSet := { Size : Z }.

Definition fileSets_entries : list (string * fileSet) :=
  [ ("K001", {| Size := KiB |});
    ("K004", {| Size := 4 * KiB |});
    ("K016", {| Size := 16 * KiB |});
    ("K064", {| Size := 64 * KiB |});
    ("K256", {| Size := 256 * KiB |});
    ("M001", {| Size := MiB |});
    ("M004", {| Size := 4 * MiB |});
    ("M016", {| Size := 16 * MiB |});
    ("M032", {| Size := 32 * MiB |});
    ("M064", {| Size := 64 * MiB |});
    ("M128", {| Size := 128 * MiB |});
    ("M256", {| Size := 256 * MiB |}) ]%Z.

Definition fileSets : gmap string fileSet := list_to_map fileSets_entries.

(** Indexing a Go map with an absent key gives the zero value. *)
Definition fileSets_index (name : string) : fileSet :=
  default {| Size := 0 |} (fileSets !! name).

Record myConfig := {
  Count : Z;
  DownloadSizeBytes : Z;
  EC2Instance : string;
  FileSetName : string;
  Goroutines : Z
}.

(** ** Ways in which the process stops early *)

(** Each [log.Fatal]/[log.Fatalf] call site of the program. *)
Inductive fatal :=
| FatalUnknownFileSet (name : string)
| FatalNotMultiple (downloadMiB size : Z)
| FatalGoroutines (goroutines dlCount : Z)
| FatalGetPage (page : Z)
| FatalZeroFiles
| FatalConfigS3
| FatalBuildFileList (err : string)
| FatalDownload (key : string)
| FatalEncodeJSON.

(** Run-time panics the program can raise. *)
Inductive gopanic :=
| PanicDivideByZero
| PanicMakeSliceCap
| PanicMakeChanSize
| PanicIndexRange
| PanicSendOnClosed.

(** Result of a piece of code: it returns, the process exits through
    [log.Fatal], it panics, or the loop has not finished within the fuel. *)
Inductive outcome (A : Type) :=
| Ret (a : A)
| Fatal (k : fatal)
| Panic (p : gopanic)
| OutOfFuel.
Arguments Ret {A} a.
Arguments Fatal {A} k.
Arguments Panic {A} p.
Arguments OutOfFuel {A}.

Definition bind {A B} (m : outcome A) (f : A -> outcome B) : outcome B :=
  match m with
  | Ret a => f a
  | Fatal k => Fatal k
  | Panic p => Panic p
  | OutOfFuel => OutOfFuel
  end.

Notation "x <- m ;; k" := (bind m (fun x => k))
  (at level 100, m at next level, right associativity).

(** A Go [(value, error)] result. *)
Inductive goresult (A : Type) :=
| GoOk (a : A)
| GoErr (err : string).
Arguments GoOk {A} a.
Arguments GoErr {A} err.

(** The error taxonomy of the specification, as a reading of the call
    sites above. *)
Inductive error_kind :=
| ConfigurationError
| DiscoveryError
| EmptyDatasetError
| DownloadError
| OtherError.

Definition no_files_msg : string := "no S3 files found for file set".

Definition classify (k : fatal) : error_kind :=
  match k with
  | FatalUnknownFileSet _ | FatalNotMultiple _ _ | FatalGoroutines _ _ =>
      ConfigurationError
  | FatalGetPage _ => DiscoveryError
  | FatalBuildFileList err =>
      if decide (err = no_files_msg) then EmptyDatasetError else DiscoveryError
  | FatalDownload _ => DownloadError
  | FatalZeroFiles | FatalConfigS3 | FatalEncodeJSON => OtherError
  end.

(** ** parseFlags *)

(** The values [pflag.Parse] leaves in the flag variables; the three
    [Uint] flags hold [uint] values. *)
Record flags := {
  flag_count : Z;
  flag_instance : string;
  flag_goroutines : Z;
  flag_set : string;
  flag_download : Z
}.

Definition flags_wf (fl : flags) : Prop :=
  GoInt.is_uint (flag_count fl) /\
  GoInt.is_uint (flag_goroutines fl) /\
  GoInt.is_uint (flag_download fl).

Definition parseFlags (fl : flags) : outcome myConfig :=
  match fileSets !! flag_set fl with
  | None => Fatal (FatalUnknownFileSet (flag_set fl))
  | Some fileSet =>
      let dlSize := GoInt.mul (GoInt.of_uint (flag_download fl)) MiB in
      if negb (GoInt.rem dlSize (Size fileSet) =? 0)%Z
      then Fatal (FatalNotMultiple (flag_download fl) (Size fileSet))
      else
        let dlCount := GoInt.quo dlSize (Size fileSet) in
        if (GoInt.of_uint (flag_goroutines fl) >? dlCount)%Z
        then Fatal (FatalGoroutines (flag_goroutines fl) dlCount)
        else Ret {| Count := GoInt.of_uint (flag_count fl);
                    DownloadSizeBytes := dlSize;
                    EC2Instance := flag_instance fl;
                    FileSetName := flag_set fl;
                    Goroutines := GoInt.of_uint (flag_goroutines fl) |}
  end.

(** ** The object store as seen by the listing *)

(** One response of the [ListObjectsV2] paginator. *)
Inductive page :=
| PageOk (contents : list string)
| PageErr.

(** What the program observes of its surroundings while it lists:
    whether the default AWS configuration loads, the pages the service
    answers with (the last one carries no continuation token), and the
    values [rand.Intn] returns during the shuffle. *)
Record s3world := {
  config_ok : bool;
  pages : list page;
  rnd : nat -> nat
}.

(** The swap closure passed to [rand.Shuffle]:
    [files[i], files[j] = files[j], files[i]]; an index outside the slice
    panics. *)
Definition swap (i j : nat) (files : list string) : option (list string) :=
  match files !! i, files !! j with
  | Some a, Some b => Some (<[j := a]> (<[i := b]> files))
  | _, _ => None
  end.

(** [rand.Shuffle(n, swap)]:
    [for i := n - 1; i > 0; i-- { j := Intn(i + 1); swap(i, j) }]. The
    draw at index [i] is [rnd i], reduced into [0, i]. *)
Fixpoint Shuffle_from (rnd : nat -> nat) (i : nat) (files : list string)
  : option (list string) :=
  match i with
  | O => Some files
  | S i' =>
      match swap i (rnd i mod (i + 1)) files with
      | Some files' => Shuffle_from rnd i' files'
      | None => None
      end
  end.

Definition Shuffle (rnd : nat -> nat) (n : nat) (files : list string)
  : option (list string) :=
  Shuffle_from rnd (n - 1) files.

(** The paginator loop of [listS3Files]: [i] counts the pages requested
    so far, [files] the keys appended so far. *)
Fixpoint list_pages (ps : list page) (i : Z) (files : list string)
  : outcome (list string) :=
  match ps with
  | [] => Ret files
  | p :: ps' =>
      let i := (i + 1)%Z in
      match p with
      | PageErr => Fatal (FatalGetPage i)
      | PageOk contents => list_pages ps' i (files ++ contents)
      end
  end.

Definition listS3Files (cfg : myConfig) (w : s3world)
  : outcome (goresult (list string)) :=
  files <- list_pages (pages w) 0 [] ;;
  match Shuffle (rnd w) (length files) files with
  | Some files => Ret (GoOk files)
  | None => Panic PanicIndexRange
  end.

(** ** buildDownloadList *)

(** One pass of the inner [for _, f := range fileList]: [inl] when the
    function returns from inside the pass, [inr] when the pass ends. *)
Fixpoint range_fileList (fileList files : list string) (numFilesNeeded : Z)
  : list string + list string :=
  match fileList with
  | [] => inr files
  | f :: rest =>
      let files := files ++ [f] in
      if (Z.of_nat (length files) >=? numFilesNeeded)%Z
      then inl files
      else range_fileList rest files numFilesNeeded
  end.

(** The outer [for { ... }], bounded by [fuel] passes. *)
Fixpoint fill_loop (fuel : nat) (fileList files : list string)
  (numFilesNeeded : Z) : outcome (list string) :=
  match fuel with
  | O => OutOfFuel
  | S fuel' =>
      match range_fileList fileList files numFilesNeeded with
      | inl files => Ret files
      | inr files => fill_loop fuel' fileList files numFilesNeeded
      end
  end.

(** [cfg.DownloadSizeBytes / fileSets[cfg.FileSetName].Size], for a
    non-zero size. *)
Definition numFilesNeeded (cfg : myConfig) : Z :=
  GoInt.quo (DownloadSizeBytes cfg) (Size (fileSets_index (FileSetName cfg))).

(** The runtime's bound on one allocation on a 64-bit target
    ([maxAlloc], 2^48 bytes) and the size of a string header. *)
Definition maxAlloc : Z := 2 ^ 48.
Definition sizeof_string : Z := 16.

(** The largest capacity [make([]string, 0, n)] accepts: [makeslice]
    panics with "cap out of range" for a negative [n] and for one whose
    [n * sizeof_string] bytes exceed [maxAlloc]. Memory within that
    bound is taken to be there. *)
Definition maxSliceCap : Z := maxAlloc / sizeof_string.

Definition buildDownloadList_fuel (fuel : nat) (cfg : myConfig) (w : s3world)
  : outcome (goresult (list string)) :=
  r <- listS3Files cfg w ;;
  match r with
  | GoErr err => Ret (GoErr err)
  | GoOk fileList =>
      if decide (length fileList = 0%nat)
      then Ret (GoErr no_files_msg)
      else
        if (Size (fileSets_index (FileSetName cfg)) =? 0)%Z
        then Panic PanicDivideByZero
        else
          if (numFilesNeeded cfg =? 0)%Z then Fatal FatalZeroFiles
          else if (numFilesNeeded cfg <? 0)%Z
                  || (maxAlloc <? numFilesNeeded cfg * sizeof_string)%Z
          then Panic PanicMakeSliceCap
          else
            files <- fill_loop fuel fileList [] (numFilesNeeded cfg) ;;
            Ret (GoOk files)
  end.

(** Every pass over a non-empty list appends at least one key, so
    [numFilesNeeded] passes are always enough ([fill_loop_fuel_mono]). *)
Definition buildDownloadList (cfg : myConfig) (w : s3world)
  : outcome (goresult (list string)) :=
  buildDownloadList_fuel (Z.to_nat (numFilesNeeded cfg)) cfg w.

(** ** The download pipeline of [run]

    The goroutines of one [run] (the feeder, the latency collector, the
    download workers and the coordinating function itself) are modelled
    as threads of an interleaving machine. A schedule is a list of
    actions, each naming the thread that moves next and what its
    surroundings answer (a clock reading, the result of [GetObject]). *)

(** One [Read] of a response body; the end of the list is [io.EOF]. *)
Inductive read :=
| ReadData (n : Z)
| ReadErr.

Record GetObjectOutput := { Body : list read }.

(** [io.Copy(io.Discard, body)]: reads until EOF or the first error and
    returns the bytes written and whether an error stopped it, together
    with what is left unread. *)
Fixpoint io_Copy_Discard (body : list read) (written : Z)
  : Z * bool * list read :=
  match body with
  | [] => (written, false, [])
  | ReadData n :: rest => io_Copy_Discard rest (written + n)%Z
  | ReadErr :: rest => (written, true, rest)
  end.

(** The bytes a body delivers when no read fails. *)
Definition body_bytes (body : list read) : Z :=
  foldr (fun r acc => match r with
                      | ReadData n => (n + acc)%Z
                      | ReadErr => acc
                      end) 0%Z body.

(** The fields [EC2Instance] and [Goroutines] carry a prefix here, their
    names being taken by [myConfig]. *)
Record Datapoint {float : Type} := {
  dp_EC2Instance : string;
  FileSizeBytes : Z;
  FileSizeLabel : string;
  dp_Goroutines : Z;
  TotalSizeBytes : Z;
  ElapsedSecs : float;
  P50Latency : float;
  P95Latency : float;
  P99Latency : float;
  ThroughputMiBs : float
}.
Arguments Datapoint : clear implicits.

Inductive proc_status :=
| Running
| Returned
| Aborted (k : fatal)
| Crashed (p : gopanic).

(** [log.Fatal] exits with status 1, an unrecovered panic with status 2. *)
Definition status_exit_code (st : proc_status) : option Z :=
  match st with
  | Aborted _ => Some 1%Z
  | Crashed _ => Some 2%Z
  | Running | Returned => None
  end.

Section Pipeline.
(** The clock, [float64] arithmetic, the t-digest and the JSON encoder
    are libraries outside the program. [Quantile td q] is what
    [td.Quantile(q)] returns after the [Add] calls listed in [td]. *)
Context {Time Duration float : Type}.
Context (Sub : Time -> Time -> Duration) (Seconds : Duration -> float).
Context (Quantile : list float -> Q -> float).
Context (float64 : Z -> float) (fdiv : float -> float -> float).
Context (Marshal : Datapoint float -> option string).

(** *** The downloader *)

(** Where a worker stands in [downloader]: the statement it runs next.
    - [WRange]: [for f := range work]
    - [WNow f]: [start := time.Now()]
    - [WGet f start]: [resp, err := s3Client.GetObject(...)], with the
      [log.Fatalf] on an error
    - [WSince f start resp]: the evaluation of
      [time.Since(start).Seconds()]
    - [WSend v resp]: the send [latency <- v]
    - [WCopy resp]: [defer resp.Body.Close()] and
      [io.Copy(io.Discard, resp.Body)]
    - [WExit]: [downloader] has returned and [wg.Done()] has run. *)
Inductive wpc :=
| WRange
| WNow (f : string)
| WGet (f : string) (start : Time)
| WSince (f : string) (start : Time) (resp : GetObjectOutput)
| WSend (v : float) (resp : GetObjectOutput)
| WCopy (resp : GetObjectOutput)
| WExit.

(** What a worker's next statement is given from outside. *)
Inductive input :=
| InItem (f : string)
| InClosed
| InTime (t : Time)
| InResp (r : option GetObjectOutput)
| InNone.

(** What a worker's statement does to the outside. *)
Inductive effect :=
| FxRecv (f : string)
| FxNow (t : Time)
| FxGetObject (f : string) (ok : bool)
| FxSince (t : Time)
| FxSend (v : float)
| FxCopy (written : Z) (err : bool)
| FxDone.

Inductive wresult :=
| WNext (pc : wpc) (fx : effect)
| WAbort (k : fatal) (fx : effect).

(** One statement of [downloader]. The deferred [resp.Body.Close()]
    calls run when the function returns and touch neither channel. *)
Definition wstep (pc : wpc) (i : input) : option wresult :=
  match pc, i with
  | WRange, InItem f => Some (WNext (WNow f) (FxRecv f))
  | WRange, InClosed => Some (WNext WExit FxDone)
  | WNow f, InTime t => Some (WNext (WGet f t) (FxNow t))
  | WGet f start, InResp (Some resp) =>
      Some (WNext (WSince f start resp) (FxGetObject f true))
  | WGet f start, InResp None =>
      Some (WAbort (FatalDownload f) (FxGetObject f false))
  | WSince f start resp, InTime t =>
      Some (WNext (WSend (Seconds (Sub t start)) resp) (FxSince t))
  | WSend v resp, InNone => Some (WNext (WCopy resp) (FxSend v))
  | WCopy resp, InNone =>
      let '(written, err, _) := io_Copy_Discard (Body resp) 0 in
      Some (WNext WRange (FxCopy written err))
  | _, _ => None
  end.

(** A worker on its own, fed a sequence of inputs: where it ends up and
    the effects it had, oldest first. *)
Fixpoint wrun (pc : wpc) (ins : list input) : option (wpc * list effect) :=
  match ins with
  | [] => Some (pc, [])
  | i :: ins' =>
      match wstep pc i with
      | Some (WNext pc' fx) =>
          match wrun pc' ins' with
          | Some (pc'', fxs) => Some (pc'', fx :: fxs)
          | None => None
          end
      | _ => None
      end
  end.

(** *** The coordinator *)

(** Where [run] stands, from [startTime := time.Now()] on: the statement
    it runs next.
    - [CStart]: [startTime := time.Now()]
    - [CSpawn i startTime]: the head of the loop
      [for i := 0; i < cfg.Goroutines; i++], whose body is [wg.Add(1)]
      and the [go] statement
    - [CWait]: [wg.Wait()]
    - [CElapsed]: [elapsedSec := time.Since(startTime).Seconds()]
    - [CClose]: [close(latency)]
    - [CLatencyDone]: [<-latencyDone]
    - [CDatapoint]: the Datapoint literal with its three [td.Quantile]
      calls
    - [CMarshal]: [json.Marshal], then [log.Fatalf] or [fmt.Println]
    - [CReturn]: [return 0]. *)
Inductive cpc :=
| CStart
| CSpawn (i : Z) (startTime : Time)
| CWait (startTime : Time)
| CElapsed (startTime : Time)
| CClose (elapsedSec : float)
| CLatencyDone (elapsedSec : float)
| CDatapoint (elapsedSec : float)
| CMarshal (datapoint : Datapoint float)
| CReturn.

Inductive event :=
| EvWorker (w : nat) (fx : effect)
| EvIngest (v : float)
| EvCloseLatency
| EvQuantile (q : Q)
| EvPrint (line : string).

(** The shared state of one run. [feed] is the part of [downloadList]
    the feeder has not sent yet, [work] and [latency] are the channel
    buffers (oldest first), [td] the samples added to the digest
    (oldest first), [trace] a log of what happened (newest first). *)
Record state := {
  st_cfg : myConfig;
  chanSize : nat;
  feed : list string;
  work : list string;
  work_closed : bool;
  latency : list float;
  latency_closed : bool;
  latencyDone : bool;
  td : list float;
  workers : list wpc;
  wg : Z;
  coord : cpc;
  stdout : list string;
  status : proc_status;
  trace : list event
}.

Definition set_feeder (s : state) (fd wk : list string) (cl : bool) : state :=
  {| st_cfg := st_cfg s; chanSize := chanSize s; feed := fd; work := wk;
     work_closed := cl; latency := latency s;
     latency_closed := latency_closed s; latencyDone := latencyDone s;
     td := td s; workers := workers s; wg := wg s; coord := coord s;
     stdout := stdout s; status := status s; trace := trace s |}.

Definition set_collector (s : state) (lat : list float) (done : bool)
  (digest : list float) (tr : list event) : state :=
  {| st_cfg := st_cfg s; chanSize := chanSize s; feed := feed s;
     work := work s; work_closed := work_closed s; latency := lat;
     latency_closed := latency_closed s; latencyDone := done;
     td := digest; workers := workers s; wg := wg s; coord := coord s;
     stdout := stdout s; status := status s; trace := tr |}.

Definition set_worker (s : state) (wk : list string) (lat : list float)
  (ws : list wpc) (n : Z) (st : proc_status) (tr : list event) : state :=
  {| st_cfg := st_cfg s; chanSize := chanSize s; feed := feed s;
     work := wk; work_closed := work_closed s; latency := lat;
     latency_closed := latency_closed s; latencyDone := latencyDone s;
     td := td s; workers := ws; wg := n; coord := coord s;
     stdout := stdout s; status := st; trace := tr |}.

Definition set_coord (s : state) (cl : bool) (ws : list wpc) (n : Z)
  (pc : cpc) (out : list string) (st : proc_status) (tr : list event) : state :=
  {| st_cfg := st_cfg s; chanSize := chanSize s; feed := feed s;
     work := work s; work_closed := work_closed s; latency := latency s;
     latency_closed := cl; latencyDone := latencyDone s;
     td := td s; workers := ws; wg := n; coord := pc;
     stdout := out; status := st; trace := tr |}.

(** The state right after the two channels, the feeder and the
    collector have been set up: [chanSize] is [cfg.Goroutines] capped
    at 1024. With zero goroutines both channels are unbuffered; no
    worker exists then, so [work] has no receiver and [latency] no
    sender, and a send that waits for room in an empty buffer of
    capacity zero is exactly a send that never finds its partner. *)
Definition init (cfg : myConfig) (downloadList : list string) : state :=
  {| st_cfg := cfg;
     chanSize := Z.to_nat (if (Goroutines cfg >? 1024)%Z then 1024%Z
                           else Goroutines cfg);
     feed := downloadList; work := []; work_closed := false;
     latency := []; latency_closed := false; latencyDone := false;
     td := []; workers := []; wg := 0; coord := CStart;
     stdout := []; status := Running; trace := [] |}.

(** The feeder: [for _, f := range downloadList { work <- f }] and then
    [close(work)]. A send blocks while the buffer is full. *)
Definition step_feeder (s : state) : option state :=
  if work_closed s then None
  else match feed s with
       | f :: rest =>
           if decide (length (work s) < chanSize s)%nat
           then Some (set_feeder s rest (work s ++ [f]) false)
           else None
       | [] => Some (set_feeder s [] (work s) true)
       end.

(** The collector: [for v := range latency { td.Add(v, 1) }] and then
    [close(latencyDone)]. *)
Definition step_collector (s : state) : option state :=
  if latencyDone s then None
  else match latency s with
       | v :: rest =>
           Some (set_collector s rest false (td s ++ [v])
                   (EvIngest v :: trace s))
       | [] =>
           if latency_closed s
           then Some (set_collector s [] true (td s) (trace s))
           else None
       end.

(** A worker's statement in the shared state. Receiving from [work]
    blocks while the buffer is empty and the channel open; sending to
    [latency] blocks while its buffer is full and panics once the
    channel is closed. *)
Definition step_worker (w : nat) (e : input) (s : state) : option state :=
  match workers s !! w with
  | None => None
  | Some pc =>
      let i := match pc with
               | WRange =>
                   match work s with
                   | f :: _ => Some (InItem f)
                   | [] => if work_closed s then Some InClosed else None
                   end
               | _ => Some e
               end in
      match i with
      | None => None
      | Some i =>
          match wstep pc i with
          | None => None
          | Some (WAbort k fx) =>
              Some (set_worker s (work s) (latency s) (workers s) (wg s)
                      (Aborted k) (EvWorker w fx :: trace s))
          | Some (WNext pc' fx) =>
              let ws := <[w := pc']> (workers s) in
              let tr := EvWorker w fx :: trace s in
              match fx with
              | FxRecv _ =>
                  Some (set_worker s (tail (work s)) (latency s) ws (wg s)
                          Running tr)
              | FxSend v =>
                  if latency_closed s
                  then Some (set_worker s (work s) (latency s) (workers s)
                               (wg s) (Crashed PanicSendOnClosed) (trace s))
                  else if decide (length (latency s) < chanSize s)%nat
                  then Some (set_worker s (work s) (latency s ++ [v]) ws
                               (wg s) Running tr)
                  else None
              | FxDone =>
                  Some (set_worker s (work s) (latency s) ws (wg s - 1)%Z
                          Running tr)
              | _ =>
                  Some (set_worker s (work s) (latency s) ws (wg s)
                          Running tr)
              end
          end
      end
  end.

Definition mkDatapoint (cfg : myConfig) (elapsedSec : float)
  (digest : list float) : Datapoint float :=
  {| dp_EC2Instance := EC2Instance cfg;
     FileSizeBytes := Size (fileSets_index (FileSetName cfg));
     FileSizeLabel := FileSetName cfg;
     dp_Goroutines := Goroutines cfg;
     TotalSizeBytes := DownloadSizeBytes cfg;
     ElapsedSecs := elapsedSec;
     P50Latency := Quantile digest (50 # 100);
     P95Latency := Quantile digest (95 # 100);
     P99Latency := Quantile digest (99 # 100);
     ThroughputMiBs :=
       fdiv (fdiv (float64 (DownloadSizeBytes cfg)) (float64 MiB))
            elapsedSec |}.

(** The coordinator, statement by statement. [wg.Wait()] blocks until
    the counter is zero, [<-latencyDone] until that channel is closed. *)
Definition step_coord (e : input) (s : state) : option state :=
  let keep pc := Some (set_coord s (latency_closed s) (workers s) (wg s) pc
                         (stdout s) Running (trace s)) in
  match coord s, e with
  | CStart, InTime t => keep (CSpawn 0 t)
  | CSpawn i startTime, InNone =>
      if (i <? Goroutines (st_cfg s))%Z
      then Some (set_coord s (latency_closed s) (workers s ++ [WRange])
                   (wg s + 1)%Z (CSpawn (i + 1) startTime) (stdout s)
                   Running (trace s))
      else keep (CWait startTime)
  | CWait startTime, InNone =>
      if (wg s =? 0)%Z then keep (CElapsed startTime) else None
  | CElapsed startTime, InTime t => keep (CClose (Seconds (Sub t startTime)))
  | CClose elapsedSec, InNone =>
      Some (set_coord s true (workers s) (wg s) (CLatencyDone elapsedSec)
              (stdout s) Running (EvCloseLatency :: trace s))
  | CLatencyDone elapsedSec, InNone =>
      if latencyDone s then keep (CDatapoint elapsedSec) else None
  | CDatapoint elapsedSec, InNone =>
      Some (set_coord s (latency_closed s) (workers s) (wg s)
              (CMarshal (mkDatapoint (st_cfg s) elapsedSec (td s)))
              (stdout s) Running
              (EvQuantile (99 # 100) :: EvQuantile (95 # 100)
                 :: EvQuantile (50 # 100) :: trace s))
  | CMarshal datapoint, InNone =>
      match Marshal datapoint with
      | None =>
          Some (set_coord s (latency_closed s) (workers s) (wg s)
                  (CMarshal datapoint) (stdout s) (Aborted FatalEncodeJSON)
                  (trace s))
      | Some jb =>
          Some (set_coord s (latency_closed s) (workers s) (wg s) CReturn
                  (stdout s ++ [jb]) Returned (EvPrint jb :: trace s))
      end
  | _, _ => None
  end.

Inductive action :=
| AFeeder
| ACollector
| ACoord (e : input)
| AWorker (w : nat) (e : input).

(** Nothing moves once the process has exited or [run] has returned. *)
Definition step (a : action) (s : state) : option state :=
  match status s with
  | Running =>
      match a with
      | AFeeder => step_feeder s
      | ACollector => step_collector s
      | ACoord e => step_coord e s
      | AWorker w e => step_worker w e s
      end
  | _ => None
  end.

Fixpoint exec (sched : list action) (s : state) : option state :=
  match sched with
  | [] => Some s
  | a :: sched' =>
      match step a s with
      | Some s' => exec sched' s'
      | None => None
      end
  end.

Definition reachable (cfg : myConfig) (downloadList : list string)
  (s : state) : Prop :=
  exists sched, exec sched (init cfg downloadList) = Some s.

(** *** A schedule that carries a run to its end *)

(** The statements of one download, with worker 0 doing it: the feeder
    sends the key, the worker receives it, reads the clock, gets the
    response, reads the clock, sends the sample and drains the body, and
    the collector adds the sample. *)
Definition sched_item (t : Time) (resp : GetObjectOutput) : list action :=
  [ AFeeder; AWorker 0 InNone; AWorker 0 (InTime t);
    AWorker 0 (InResp (Some resp)); AWorker 0 (InTime t);
    AWorker 0 InNone; AWorker 0 InNone; ACollector ].

(** A whole run of [n] workers in which every clock reading is [t] and
    the downloads get the responses [resps], one after the other. *)
Definition sched_run (n : nat) (t : Time) (resps : list GetObjectOutput)
  : list action :=
  ACoord (InTime t) :: replicate (S n) (ACoord InNone)
  ++ concat (sched_item t <$> resps)
  ++ [AFeeder]
  ++ ((fun w => AWorker w InNone) <$> seq 0 n)
  ++ [ ACoord InNone; ACoord (InTime t); ACoord InNone; ACollector;
       ACoord InNone; ACoord InNone; ACoord InNone ].

(** The states that schedule passes through while the workers run: both
    buffers empty, [latency] open, nothing printed. *)
Definition at_work (cfg : myConfig) (cs : nat) (fd : list string)
  (wc : bool) (dg : list float) (ws : list wpc) (n : Z) (pc : cpc)
  (tr : list event) : state :=
  {| st_cfg := cfg; chanSize := cs; feed := fd; work := [];
     work_closed := wc; latency := []; latency_closed := false;
     latencyDone := false; td := dg; workers := ws; wg := n; coord := pc;
     stdout := []; status := Running; trace := tr |}.

(** *** Bookkeeping over states and traces *)

(** A worker holds an item it has received and not yet reported. *)
Definition inflight (pc : wpc) : nat :=
  match pc with
  | WNow _ | WGet _ _ | WSince _ _ _ | WSend _ _ => 1
  | WRange | WCopy _ | WExit => 0
  end.

(** A worker that has not called [wg.Done()] yet. *)
Definition active (pc : wpc) : nat :=
  match pc with
  | WExit => 0
  | _ => 1
  end.

(** The items received from [work], oldest first. *)
Fixpoint recv_log (tr : list event) : list string :=
  match tr with
  | [] => []
  | EvWorker _ (FxRecv f) :: tr' => recv_log tr' ++ [f]
  | _ :: tr' => recv_log tr'
  end.

(** The samples sent to [latency], oldest first. *)
Fixpoint sent_log (tr : list event) : list float :=
  match tr with
  | [] => []
  | EvWorker _ (FxSend v) :: tr' => sent_log tr' ++ [v]
  | _ :: tr' => sent_log tr'
  end.

Definition is_quantile (e : event) : bool :=
  match e with
  | EvQuantile _ => true
  | _ => false
  end.

(** The events the coordinator has to be past when it reads a
    quantile: samples sent and added, workers returning, and
    [close(latency)]. *)
Definition before_quantile (e : event) : bool :=
  match e with
  | EvIngest _ | EvCloseLatency
  | EvWorker _ (FxSend _) | EvWorker _ FxDone => true
  | _ => false
  end.

Definition quantile_free (tr : list event) : bool :=
  forallb (fun e => negb (is_quantile e)) tr.

(** None of those events is logged after (that is, in front of) a
    [td.Quantile] call. *)
Fixpoint quantile_last (tr : list event) : bool :=
  match tr with
  | [] => true
  | e :: tr' =>
      (if before_quantile e then quantile_free tr' else true)
      && quantile_last tr'
  end.

(** The coordinator has closed [latency]. *)
Definition closed_phase (pc : cpc) : bool :=
  match pc with
  | CLatencyDone _ | CDatapoint _ | CMarshal _ | CReturn => true
  | _ => false
  end.

(** The coordinator has received from [latencyDone]. *)
Definition drained_phase (pc : cpc) : bool :=
  match pc with
  | CDatapoint _ | CMarshal _ | CReturn => true
  | _ => false
  end.

(** The coordinator has called [td.Quantile]. *)
Definition read_phase (pc : cpc) : bool :=
  match pc with
  | CMarshal _ | CReturn => true
  | _ => false
  end.

(** How far the spawn loop has come, and that nothing is left to wait
    for once [wg.Wait()] has returned. *)
Definition spawn_ok (cfg : myConfig) (pc : cpc) (ws : list wpc) (n : Z)
  : Prop :=
  match pc with
  | CStart => ws = []
  | CSpawn i _ =>
      (0 <= i)%Z /\ length ws = Z.to_nat i /\
      (Z.to_nat i <= Z.to_nat (Goroutines cfg))%nat
  | CWait _ => length ws = Z.to_nat (Goroutines cfg)
  | _ => length ws = Z.to_nat (Goroutines cfg) /\ n = 0%Z
  end.

(** What holds of every state of a run over [downloadList]. *)
Record inv (cfg : myConfig) (downloadList : list string) (s : state)
  : Prop := {
  inv_cfg : st_cfg s = cfg;
  inv_recv : recv_log (trace s) ++ work s ++ feed s = downloadList;
  inv_sent : sent_log (trace s) = td s ++ latency s;
  inv_inflight :
    length (recv_log (trace s)) =
    (length (sent_log (trace s)) + sum_list_with inflight (workers s))%nat;
  inv_closed_feed : work_closed s = true -> feed s = [];
  inv_wg : wg s = Z.of_nat (sum_list_with active (workers s));
  inv_exit : forall w, workers s !! w = Some WExit ->
                       work_closed s = true /\ work s = [];
  inv_spawn : spawn_ok cfg (coord s) (workers s) (wg s);
  inv_latency_closed : latency_closed s = closed_phase (coord s);
  inv_done : latencyDone s = true ->
             latency_closed s = true /\ latency s = [];
  inv_drained : drained_phase (coord s) = true -> latencyDone s = true;
  inv_quantile :
    quantile_free (trace s) = true \/ read_phase (coord s) = true;
  inv_order : quantile_last (trace s) = true;
  inv_close_logged :
    closed_phase (coord s) = true -> EvCloseLatency ∈ trace s;
  inv_stdout : stdout s = [] \/ status s = Returned;
  inv_nocrash : forall p, status s <> Crashed p
}.

(** *** run, up to the start of the pipeline *)

Definition run_setup (cfg : myConfig) (w : s3world) : outcome state :=
  if negb (config_ok w) then Fatal FatalConfigS3
  else
    r <- buildDownloadList cfg w ;;
    match r with
    | GoErr err => Fatal (FatalBuildFileList err)
    | GoOk downloadList =>
        let chanSize := if (Goroutines cfg >? 1024)%Z then 1024%Z
                        else Goroutines cfg in
        if (chanSize <? 0)%Z then Panic PanicMakeChanSize
        else Ret (init cfg downloadList)
    end.

(** What one [run] has come to under a schedule of its pipeline: how
    the process stands and the lines it has printed. *)
Definition run (cfg : myConfig) (w : s3world) (sched : list action)
  : option (proc_status * list string) :=
  match run_setup cfg w with
  | Ret s0 =>
      match exec sched s0 with
      | Some s => Some (status s, stdout s)
      | None => None
      end
  | Fatal k => Some (Aborted k, [])
  | Panic p => Some (Crashed p, [])
  | OutOfFuel => None
  end.

End Pipeline.

(** ** A concrete instance, to run the model on schedules *)

(** Stand-ins for the libraries: clock readings, durations and samples
    are whole nanoseconds, a quantile is read off the sorted samples, and
    the encoder prints the file-set label and the three quantiles. *)
Module Stub.
Definition Sub (t u : Z) : Z := (t - u)%Z.
Definition Seconds (d : Z) : Z := d.
Definition Quantile (td : list Z) (q : Q) : Z :=
  nth (Z.to_nat (Qnum q * Z.of_nat (length td) / Z.pos (Qden q)))
      (merge_sort Z.le td) 0%Z.
Definition float64 (z : Z) : Z := z.
Definition fdiv (a b : Z) : Z := (a / b)%Z.
Definition Marshal (dp : Datapoint Z) : option string :=
  Some (FileSizeLabel dp +:+ " " +:+ pretty (P50Latency dp)
        +:+ " " +:+ pretty (P95Latency dp)
        +:+ " " +:+ pretty (P99Latency dp)).

Definition step := step Sub Seconds Quantile float64 fdiv Marshal.
Definition exec := exec Sub Seconds Quantile float64 fdiv Marshal.
Definition run := run Sub Seconds Quantile float64 fdiv Marshal.
Definition reachable :=
  reachable Sub Seconds Quantile float64 fdiv Marshal.
Definition init : myConfig -> list string -> @state Z Z := init.
Definition run_setup : myConfig -> s3world -> outcome (@state Z Z) :=
  run_setup.
End Stub.

Module Demo.
Local Open Scope Z_scope.

(** [--set K001 --download 0 --goroutines 0] *)
Definition flags_zero : flags :=
  {| flag_count := 1; flag_instance := "unknown"; flag_goroutines := 0;
     flag_set := "K001"; flag_download := 0 |}.

(** [--set M001 --download 2 --goroutines 0] *)
Definition flags_idle : flags :=
  {| flag_count := 1; flag_instance := "unknown"; flag_goroutines := 0;
     flag_set := "M001"; flag_download := 2 |}.

(** [--set M001 --download 256 --goroutines 9223372036854775808] *)
Definition flags_wrapped : flags :=
  {| flag_count := 1; flag_instance := "unknown";
     flag_goroutines := 2 ^ 63;
     flag_set := "M001"; flag_download := 256 |}.

(** [--set M001 --download 2 --goroutines 1] *)
Definition flags_one : flags :=
  {| flag_count := 1; flag_instance := "unknown"; flag_goroutines := 1;
     flag_set := "M001"; flag_download := 2 |}.

Definition cfg_zero : myConfig :=
  {| Count := 1; DownloadSizeBytes := 0; EC2Instance := "unknown";
     FileSetName := "K001"; Goroutines := 0 |}.

Definition cfg_idle : myConfig :=
  {| Count := 1; DownloadSizeBytes := 2 * MiB; EC2Instance := "unknown";
     FileSetName := "M001"; Goroutines := 0 |}.

Definition cfg_one : myConfig :=
  {| Count := 1; DownloadSizeBytes := 2 * MiB; EC2Instance := "unknown";
     FileSetName := "M001"; Goroutines := 1 |}.

(** Five files from a bucket of two. *)
Definition cfg_five : myConfig :=
  {| Count := 1; DownloadSizeBytes := 5 * KiB; EC2Instance := "unknown";
     FileSetName := "K001"; Goroutines := 2 |}.

Definition key_a : string := "randomdata/M001/a".
Definition key_b : string := "randomdata/M001/b".

Definition world_two : s3world :=
  {| config_ok := true; pages := [PageOk [key_a]; PageOk [key_b]];
     rnd := fun _ => 1%nat |}.

(** The same bucket with draws that swap the two keys. *)
Definition world_swapped : s3world :=
  {| config_ok := true; pages := [PageOk [key_a]; PageOk [key_b]];
     rnd := fun _ => 0%nat |}.

Definition world_empty : s3world :=
  {| config_ok := true; pages := [PageOk []]; rnd := fun _ => 0%nat |}.

Definition world_broken : s3world :=
  {| config_ok := true; pages := [PageOk [key_a]; PageErr];
     rnd := fun _ => 0%nat |}.

Definition downloadList : list string := [key_a; key_b].

Definition resp_ok : GetObjectOutput :=
  {| Body := [ReadData 524288; ReadData 524288] |}.

(** A body whose second read fails. *)
Definition resp_torn : GetObjectOutput :=
  {| Body := [ReadData 524288; ReadErr; ReadData 524288] |}.

(** No workers: the coordinator runs through to the wait for the
    collector, which then sees [latency] closed. *)
Definition sched_idle : list (@action Z) :=
  [ ACoord (InTime 100); ACoord InNone; ACoord InNone;
    ACoord (InTime 107); ACoord InNone; ACollector ].

(** One worker, two items: the first item is downloaded. *)
Definition sched_first : list (@action Z) :=
  [ ACoord (InTime 100); ACoord InNone; ACoord InNone;
    AFeeder; AWorker 0 InNone; AFeeder;
    AWorker 0 (InTime 110); AWorker 0 (InResp (Some resp_ok));
    AWorker 0 (InTime 150); AWorker 0 InNone; AWorker 0 InNone;
    ACollector; AFeeder ].

(** ... the worker takes the second item and is about to call
    [GetObject]. *)
Definition sched_second : list (@action Z) :=
  sched_first ++ [ AWorker 0 InNone; AWorker 0 (InTime 160) ].

(** ... the second body tears while it is drained. *)
Definition sched_torn : list (@action Z) :=
  sched_second ++
  [ AWorker 0 (InResp (Some resp_torn)); AWorker 0 (InTime 190);
    AWorker 0 InNone ].

(** ... and the run is carried to its end. *)
Definition sched_full : list (@action Z) :=
  sched_torn ++
  [ AWorker 0 InNone; AWorker 0 InNone;
    ACoord InNone; ACoord (InTime 200); ACoord InNone;
    ACollector; ACollector;
    ACoord InNone; ACoord InNone; ACoord InNone ].

Definition state_at (cfg : myConfig) (sched : list (@action Z))
  : @state Z Z :=
  default (Stub.init cfg downloadList)
          (Stub.exec sched (Stub.init cfg downloadList)).
End Demo.

(** ** What the paginator hands to [listS3Files] *)

(** The keys of one page; a failed page has none. *)
Definition page_contents (p : page) : list string :=
  match p with
  | PageOk contents => contents
  | PageErr => []
  end.

(** Whether the page was served. *)
Definition page_ok (p : page) : bool :=
  match p with
  | PageOk _ => true
  | PageErr => false
  end.

(** ** The downloader's own log *)

Section WorkerLog.
Context {Time Duration float : Type}.
Context (Sub : Time -> Time -> Duration) (Seconds : Duration -> float).

(** *** What a worker has done so far *)

(** The effects of worker [w] in a trace, newest first. *)
Fixpoint wlog (w : nat) (tr : list (@event Time float))
  : list (@effect Time float) :=
  match tr with
  | [] => []
  | EvWorker w' fx :: tr' =>
      if decide (w' = w) then fx :: wlog w tr' else wlog w tr'
  | _ :: tr' => wlog w tr'
  end.

(** What the log of a worker ends with when it stands at [pc]: the
    statements of [downloader] it has run for the item in its hands. *)
Definition wlog_at (pc : @wpc Time float) (log : list (@effect Time float))
  : Prop :=
  match pc with
  | WRange | WExit => True
  | WNow f => exists older, log = FxRecv f :: older
  | WGet f start => exists older, log = FxNow start :: FxRecv f :: older
  | WSince f start resp =>
      exists older,
        log = FxGetObject f true :: FxNow start :: FxRecv f :: older
  | WSend v resp =>
      exists f t0 t1 older,
        v = Seconds (Sub t1 t0) /\
        log = FxSince t1 :: FxGetObject f true :: FxNow t0 :: FxRecv f
                :: older
  | WCopy resp =>
      exists f t0 t1 older,
        log = FxSend (Seconds (Sub t1 t0)) :: FxSince t1
                :: FxGetObject f true :: FxNow t0 :: FxRecv f :: older
  end.

(** Every worker of a running process stands where its log says. *)
Definition inv_wlog (s : @state Time float) : Prop :=
  status s = Running ->
  forall w pc, workers s !! w = Some pc -> wlog_at pc (wlog w (trace s)).
End WorkerLog.

(** ** More of [run], and [main] *)

Section PipelineMore.
Context {Time Duration float : Type}.
Context (Sub : Time -> Time -> Duration) (Seconds : Duration -> float).
Context (Quantile : list float -> Q -> float).
Context (float64 : Z -> float) (fdiv : float -> float -> float).
Context (Marshal : Datapoint float -> option string).

(** *** What a run prints, and how far it is from its end *)

(** More of what holds of every state of a run: the buffers stay within
    the channel capacity, only a returned run has printed, and what it
    printed is the encoding of the Datapoint built from the digest. *)
Record inv_out (cfg : myConfig) (downloadList : list string)
  (s : @state Time float) : Prop := {
  io_chanSize :
    chanSize s = chanSize (init cfg downloadList : @state Time float);
  io_work : (length (work s) <= chanSize s)%nat;
  io_latency : (length (latency s) <= chanSize s)%nat;
  io_return : coord s = CReturn <-> status s = Returned;
  io_marshal : forall dp,
    coord s = CMarshal dp ->
    exists elapsedSec,
      dp = mkDatapoint Quantile float64 fdiv cfg elapsedSec (td s);
  io_stdout :
    (stdout s = [] /\ status s <> Returned) \/
    (exists elapsedSec jb,
        stdout s = [jb] /\ status s = Returned /\
        Marshal (mkDatapoint Quantile float64 fdiv cfg elapsedSec (td s))
        = Some jb);
  io_abort : forall k,
    status s = Aborted k ->
    (exists f, k = FatalDownload f) \/ k = FatalEncodeJSON
}.

(** The statements a worker still has to run for the item in its hands,
    the sample that item will give, and its return. *)
Definition wcost (pc : @wpc Time float) : nat :=
  match pc with
  | WRange => 1
  | WNow _ => 7
  | WGet _ _ => 6
  | WSince _ _ _ => 5
  | WSend _ _ => 4
  | WCopy _ => 2
  | WExit => 0
  end.

(** The statements the coordinator still has to run, counting two for
    every worker it has yet to start (the start and that worker's
    return). *)
Definition ccost (n : nat) (pc : @cpc Time float) : nat :=
  match pc with
  | CStart => 2 * n + 8
  | CSpawn i _ => 2 * (n - Z.to_nat i) + 7
  | CWait _ => 6
  | CElapsed _ => 5
  | CClose _ => 4
  | CLatencyDone _ => 3
  | CDatapoint _ => 2
  | CMarshal _ => 1
  | CReturn => 0
  end.

(** A bound on the steps a run can still take: eight for an item the
    feeder holds, seven for one in [work], one for a sample in
    [latency], one each for the two [close] calls. *)
Definition steps_left (s : @state Time float) : nat :=
  8 * length (feed s) + 7 * length (work s)
  + (if work_closed s then 0 else 1)
  + sum_list_with wcost (workers s)
  + length (latency s)
  + (if latencyDone s then 0 else 1)
  + ccost (Z.to_nat (Goroutines (st_cfg s))) (coord s).

(** *** main *)

(** How the process ends, with what it has printed: [os.Exit] with a
    status, or a run whose schedule stops short of its end. *)
Inductive main_result :=
| Exited (code : Z) (out : list string)
| Pending (out : list string).

(** The loop [for i := 0; i < cfg.Count; i++ { ec += run(cfg) }] and the
    final [os.Exit(ec)]. Every run meets its own surroundings and its
    own schedule; [run] returns 0 when it returns at all. *)
Fixpoint main_loop (cfg : myConfig) (i ec : Z) (out : list string)
  (envs : list (s3world * list (@action Time))) : main_result :=
  if (i <? Count cfg)%Z then
    match envs with
    | [] => Pending out
    | (w, sched) :: envs' =>
        match run Sub Seconds Quantile float64 fdiv Marshal cfg w sched with
        | Some (Returned, o) =>
            main_loop cfg (i + 1) (GoInt.wrap (ec + 0)) (out ++ o) envs'
        | Some (Aborted _, o) => Exited 1 (out ++ o)
        | Some (Crashed _, o) => Exited 2 (out ++ o)
        | Some (Running, o) => Pending (out ++ o)
        | None => Pending out
        end
    end
  else Exited ec out.

(** What [pflag.Parse], the first call of [parseFlags], makes of the
    command line: the values of the five flags, or the error of an
    argument it cannot read. *)
Inductive parsed :=
| ParseOk (fl : flags)
| ParseErr (err : string).

(** [main], without the profiling server it starts on the side. The
    flag set of [pflag.Parse] handles an error by [ExitOnError]: it
    prints the error with [fmt.Println] and calls [os.Exit(2)]. *)
Definition main (args : parsed)
  (envs : list (s3world * list (@action Time))) : main_result :=
  match args with
  | ParseErr err => Exited 2 [err]
  | ParseOk fl =>
      match parseFlags fl with
      | Ret cfg => main_loop cfg 0 0 [] envs
      | Fatal _ => Exited 1 []
      | Panic _ => Exited 2 []
      | OutOfFuel => Pending []
      end
  end.

End PipelineMore.

(** ** The two Perl scripts around the benchmark *)

Module Perl.
Local Open Scope Z_scope.

Definition is_digit (c : ascii) : bool :=
  (48 <=? Z.of_nat (nat_of_ascii c)) && (Z.of_nat (nat_of_ascii c) <=? 57).

(** The longest run of digits a string starts with. *)
Fixpoint digit_run (s : string) : list ascii :=
  match s with
  | String c rest => if is_digit c then c :: digit_run rest else []
  | EmptyString => []
  end.

(** The number a run of digits stands for. *)
Definition decimal (ds : list ascii) : Z :=
  fold_left (fun acc c => 10 * acc + (Z.of_nat (nat_of_ascii c) - 48)) ds 0.

(** The match [$s =~ /([KM])0*(\d+)/] on a string of ASCII characters:
    the leftmost [K] or [M] that a digit follows, and the number the
    digits after it stand for; the zeros the pattern skips do not change
    that number, which is all the scripts use of [$digits]. *)
Fixpoint match_label (s : string) : option (ascii * Z) :=
  match s with
  | EmptyString => None
  | String c rest =>
      if (Ascii.eqb c "K" || Ascii.eqb c "M")
         && match rest with
            | String d _ => is_digit d
            | EmptyString => false
            end
      then Some (c, decimal (digit_run rest))
      else match_label rest
  end.

(** *** gen-rand.pl *)

Definition sizes : list string :=
  [ "K001"; "K004"; "K016"; "K064"; "K256"; "M001"; "M004"; "M016";
    "M032"; "M064"; "M128"; "M256" ]%string.

(** For one label: [$filesize] and [$files_to_make]. Without a match the
    unit and the digits are undefined and the division dies, as it does
    for a size of zero. The quotient is a whole number for every label
    of the script. *)
Definition gen_plan (s : string) : option (Z * Z) :=
  match match_label s with
  | None => None
  | Some (unit, digits) =>
      let filesize := digits * 1024 in
      let filesize :=
        if Ascii.eqb unit "M" then filesize * 1024 else filesize in
      let dataset_size := 1024 ^ 3 in
      let dataset_size :=
        if Ascii.eqb unit "M" then dataset_size * 10 else dataset_size in
      if filesize =? 0 then None
      else Some (filesize, dataset_size / filesize)
  end.

Definition hex_digit (d : Z) : ascii :=
  nth (Z.to_nat d) (String.list_ascii_of_string "0123456789abcdef") "0"%char.

(** The hexadecimal digits of [n], most significant first, in front of
    [acc]. *)
Fixpoint hex_of (fuel : nat) (n : Z) (acc : list ascii) : list ascii :=
  match fuel with
  | O => acc
  | S fuel' =>
      let acc' := hex_digit (n mod 16) :: acc in
      if n / 16 =? 0 then acc' else hex_of fuel' (n / 16) acc'
  end.

(** [sprintf("%08x", $i)] for a non-negative [$i]: lower-case
    hexadecimal, filled with zeros to eight characters. *)
Definition sprintf_08x (i : Z) : list ascii :=
  let ds := hex_of (S (Z.to_nat (Z.log2 i))) i [] in
  replicate (8 - length ds) "0"%char ++ ds.

(** [substr($base, -2)] *)
Definition substr_last2 (base : list ascii) : list ascii :=
  drop (length base - 2) base.

(** ["$s/$hash/$base"] *)
Definition path (s : string) (i : Z) : string :=
  let base := sprintf_08x i in
  let hash := substr_last2 base in
  String.string_of_list_ascii
    (String.list_ascii_of_string s ++ "/"%char :: hash ++ "/"%char :: base).

(** One [dd bs=$filesize skip=$i count=1 if=bigrandom of=$path]. *)
Record dd := { dd_bs : Z; dd_skip : Z; dd_of : string }.

(** The [dd] commands the script runs for one label, in order. *)
Definition gen_commands (s : string) : list dd :=
  match gen_plan s with
  | Some (filesize, files_to_make) =>
      (fun i => {| dd_bs := filesize; dd_skip := i; dd_of := path s i |})
        <$> seqZ 0 files_to_make
  | None => []
  end.

(** What reading a path back gives: the value of its last eight or more
    hexadecimal digits. *)
Definition hex_digit_val (c : ascii) : Z :=
  let n := Z.of_nat (nat_of_ascii c) in
  if is_digit c then n - 48 else n - 87.

Definition hex_val (ds : list ascii) : Z :=
  fold_left (fun acc c => 16 * acc + hex_digit_val c) ds 0.

(** *** The sweep script *)

Definition datapoints : Z := 20.
Definition instance : string := "c5n.2xlarge".

Definition goroutines_per_set_entries : list (string * list Z) :=
  [ ("K001", [8; 16; 32; 64; 128; 256; 512]);
    ("K004", [8; 16; 32; 64; 128; 256; 512; 1024; 2048; 4096]);
    ("K016", [8; 16; 32; 64; 128; 256; 512; 1024; 2048; 4096]);
    ("K064", [8; 16; 32; 64; 128; 256; 512; 1024; 2048; 4096]);
    ("K256", [8; 16; 32; 64; 128; 256; 512; 1024; 2048; 4096]);
    ("M001", [8; 16; 32; 64; 128; 256; 512; 1024; 2048; 4096]);
    ("M004", [8; 16; 32; 64; 128; 256; 512; 1024; 2048; 2560]);
    ("M016", [8; 16; 32; 64; 128; 256; 512; 640]);
    ("M032", [8; 16; 32; 64; 128; 256; 320]);
    ("M064", [8; 16; 32; 64; 128; 160]);
    ("M128", [8; 16; 32; 64; 80]);
    ("M256", [8; 16; 32; 40]) ]%string.

Definition goroutines_per_set : gmap string (list Z) :=
  list_to_map goroutines_per_set_entries.

(** [reverse sort keys %goroutines_per_set] *)
Definition sweep_sets : list string :=
  reverse (merge_sort (fun a b => Is_true (String.leb a b))
             (fst <$> map_to_list goroutines_per_set)).

(** The flag values of the commands the script runs for one set. *)
Definition sweep_set_commands (s : string) : list flags :=
  let dataset_size :=
    match match_label s with
    | Some (unit, _) => if Ascii.eqb unit "M" then 1024 * 10 else 1024
    | None => 1024
    end in
  (fun g => {| flag_count := datapoints; flag_instance := instance;
               flag_goroutines := g; flag_set := s;
               flag_download := dataset_size |})
    <$> default [] (goroutines_per_set !! s).

(** All the commands of the sweep, in the order they are run. *)
Definition sweep_commands : list flags :=
  concat (sweep_set_commands <$> sweep_sets).

(** The check that a command is accepted and asks for exactly the files
    gen-rand.pl makes for its set. *)
Definition sweep_command_ok (fl : flags) : bool :=
  match parseFlags fl, gen_plan (flag_set fl) with
  | Ret cfg, Some (filesize, files_to_make) =>
      (Count cfg =? 20) && (numFilesNeeded cfg =? files_to_make)
      && (Goroutines cfg =? flag_goroutines fl)
      && (Goroutines cfg <=? numFilesNeeded cfg)
      && (Size (fileSets_index (FileSetName cfg)) =? filesize)
  | _, _ => false
  end.
End Perl.

(** ** More concrete data: whole processes *)

Module Process.
Import Demo.
Local Open Scope Z_scope.

(** [--count 9223372036854775808 --set M001 --download 2 --goroutines 1] *)
Definition flags_no_runs : flags :=
  {| flag_count := 2 ^ 63; flag_instance := "unknown";
     flag_goroutines := 1; flag_set := "M001"; flag_download := 2 |}.

(** The work list of [cfg_five] over the two keys. *)
Definition downloadList_five : list string :=
  [key_a; key_b; key_a; key_b; key_a].

(** An encoder that fails. *)
Definition Marshal_fails (dp : Datapoint Z) : option string := None.

(** The run of [sched_full] up to the call of [json.Marshal]. *)
Definition sched_marshal : list (@action Z) :=
  sched_torn ++
  [ AWorker 0 InNone; AWorker 0 InNone;
    ACoord InNone; ACoord (InTime 200); ACoord InNone;
    ACollector; ACollector;
    ACoord InNone; ACoord InNone ].

Definition main := main Stub.Sub Stub.Seconds Stub.Quantile Stub.float64
                        Stub.fdiv Stub.Marshal.
End Process.

(** ** Facts about the integer model and the file-set table *)

Lemma wrap_id z : GoInt.is_int z -> GoInt.wrap z = z.
Proof.
  unfold GoInt.is_int, GoInt.MinInt, GoInt.MaxInt, GoInt.wrap. intros H.
  rewrite Z.mod_small; lia.
Qed.

Lemma wrap_is_int z : GoInt.is_int (GoInt.wrap z).
Proof.
  unfold GoInt.is_int, GoInt.MinInt, GoInt.MaxInt, GoInt.wrap.
  pose proof (Z.mod_pos_bound (z + 2 ^ 63) (2 ^ 64) ltac:(lia)). lia.
Qed.

Lemma fileSets_lookup name fs :
  fileSets !! name = Some fs -> (name, fs) ∈ fileSets_entries.
Proof. apply elem_of_list_to_map_2. Qed.

(** Every size in the table is a power of two between 1 KiB and 256 MiB. *)
Lemma fileSets_Size name fs :
  fileSets !! name = Some fs ->
  exists k : Z, (10 <= k <= 28)%Z /\ Size fs = (2 ^ k)%Z.
Proof.
  intros H%fileSets_lookup. unfold fileSets_entries in H.
  repeat (apply elem_of_cons in H as [H | H];
          [ injection H as _ ->; cbn;
            first [ exists 10%Z; split; [lia | reflexivity]
                  | exists 12%Z; split; [lia | reflexivity]
                  | exists 14%Z; split; [lia | reflexivity]
                  | exists 16%Z; split; [lia | reflexivity]
                  | exists 18%Z; split; [lia | reflexivity]
                  | exists 20%Z; split; [lia | reflexivity]
                  | exists 22%Z; split; [lia | reflexivity]
                  | exists 24%Z; split; [lia | reflexivity]
                  | exists 25%Z; split; [lia | reflexivity]
                  | exists 26%Z; split; [lia | reflexivity]
                  | exists 27%Z; split; [lia | reflexivity]
                  | exists 28%Z; split; [lia | reflexivity] ] | ]).
  by apply elem_of_nil in H.
Qed.

Lemma fileSets_Size_pos name fs :
  fileSets !! name = Some fs -> (0 < Size fs)%Z.
Proof.
  intros (k & Hk & ->)%fileSets_Size. apply Z.pow_pos_nonneg; lia.
Qed.

Lemma fileSets_index_Some name fs :
  fileSets !! name = Some fs -> fileSets_index name = fs.
Proof. unfold fileSets_index. by intros ->. Qed.

(** ** The shuffle is a permutation *)

Lemma insert_head_Permutation (l : list string) j b x :
  l !! j = Some b -> b :: <[j := x]> l ≡ₚ x :: l.
Proof.
  revert j. induction l as [|y l IH]; intros [|j] H; simplify_eq/=.
  - apply Permutation_swap.
  - etrans; [apply Permutation_swap|].
    etrans; [|apply Permutation_swap]. f_equiv. by apply IH.
Qed.

Lemma swap_Permutation i j (files files' : list string) :
  swap i j files = Some files' -> files' ≡ₚ files.
Proof.
  unfold swap. destruct (files !! i) as [a|] eqn:Hi; [|done].
  destruct (files !! j) as [b|] eqn:Hj; [|done]. intros [= <-].
  revert i j Hi Hj.
  induction files as [|x l IH]; intros [|i] [|j] Hi Hj; simplify_eq/=.
  - done.
  - by apply insert_head_Permutation.
  - by apply insert_head_Permutation.
  - f_equiv. by apply IH.
Qed.

Lemma swap_in_range i j (files : list string) :
  (i < length files)%nat -> (j < length files)%nat ->
  exists files', swap i j files = Some files' /\ length files' = length files.
Proof.
  intros Hi Hj. unfold swap.
  destruct (lookup_lt_is_Some_2 files i Hi) as [a ->].
  destruct (lookup_lt_is_Some_2 files j Hj) as [b ->].
  eexists. split; [done|]. by rewrite !length_insert.
Qed.

Lemma Shuffle_from_total rnd i (files : list string) :
  (i < length files)%nat ->
  exists l, Shuffle_from rnd i files = Some l /\ l ≡ₚ files.
Proof.
  revert files. induction i as [|i IH]; intros files Hi; cbn [Shuffle_from].
  - by exists files.
  - assert (rnd (S i) mod (S i + 1) < length files)%nat as Hj.
    { pose proof (Nat.mod_upper_bound (rnd (S i)) (S i + 1)). lia. }
    destruct (swap_in_range (S i) _ files Hi Hj) as (files' & Hs & Hlen).
    rewrite Hs. destruct (IH files') as (l & -> & Hp); [lia|].
    exists l. split; [done|]. rewrite Hp. by eapply swap_Permutation.
Qed.

(** [rand.Shuffle] over the whole slice never indexes out of range and
    returns a permutation. *)
Lemma Shuffle_total rnd (files : list string) :
  exists l, Shuffle rnd (length files) files = Some l /\ l ≡ₚ files.
Proof.
  unfold Shuffle. destruct files as [|x files].
  - by exists [].
  - apply Shuffle_from_total. cbn. lia.
Qed.

Lemma Shuffle_from_ext rnd rnd' i : forall files : list string,
  (forall k, (1 <= k <= i)%nat -> rnd k = rnd' k) ->
  Shuffle_from rnd i files = Shuffle_from rnd' i files.
Proof.
  induction i as [|i IH]; intros files H; cbn [Shuffle_from]; [done|].
  rewrite (H (S i)) by lia.
  destruct (swap _ _ files) as [files'|]; [|done].
  apply IH. intros k Hk. apply H. lia.
Qed.

Lemma swap_last (l : list string) j x a :
  l !! j = Some x -> last l = Some a ->
  exists l', swap (length l - 1) j l = Some (l' ++ [x]) /\
             length l' = (length l - 1)%nat /\ l' ++ [x] ≡ₚ l.
Proof.
  intros Hj Hlast.
  destruct l as [|y l0] using rev_ind; [done|]. clear IHl0.
  rewrite last_snoc in Hlast. injection Hlast as ->.
  rewrite length_app. cbn [length].
  replace (length l0 + 1 - 1)%nat with (length l0) by lia.
  assert ((l0 ++ [a]) !! length l0 = Some a) as Hi.
  { by rewrite lookup_app_r, Nat.sub_diag by lia. }
  assert (swap (length l0) j (l0 ++ [a])
          = Some (<[j := a]> (<[length l0 := x]> (l0 ++ [a])))) as Hs.
  { unfold swap. by rewrite Hi, Hj. }
  pose proof (swap_Permutation _ _ _ _ Hs) as Hperm.
  destruct (decide (j = length l0)) as [->|Hne].
  - rewrite Hi in Hj. injection Hj as <-.
    exists l0. rewrite Hs. split; [|done].
    rewrite list_insert_insert_eq, list_insert_id by done. done.
  - assert (j < length l0)%nat as Hlt.
    { apply lookup_lt_Some in Hj. rewrite length_app in Hj. cbn in Hj. lia. }
    exists (<[j := a]> l0). rewrite Hs.
    assert (<[j:=a]> (<[length l0:=x]> (l0 ++ [a])) = <[j:=a]> l0 ++ [x])
      as E.
    { rewrite insert_app_r_alt, Nat.sub_diag by lia. cbn.
      by rewrite insert_app_l by lia. }
    rewrite E in *. by rewrite length_insert.
Qed.

Lemma Shuffle_from_reach (p : list string) : forall l tail,
  l ≡ₚ p ->
  exists rnd,
    Shuffle_from rnd (length l - 1) (l ++ tail) = Some (p ++ tail).
Proof.
  induction p as [|x p IH] using rev_ind; intros l tail Hperm.
  - apply Permutation_nil_r in Hperm as ->. by exists (fun _ => 0%nat).
  - assert (x ∈ l) as Hx by (rewrite Hperm; set_solver).
    apply list_elem_of_lookup_1 in Hx as [j Hj].
    assert (length l = S (length p)) as Hlen.
    { rewrite Hperm, length_app. cbn. lia. }
    destruct (last l) as [a|] eqn:Hlast;
      [|apply last_None in Hlast; by subst l].
    destruct (swap_last l j x a Hj Hlast) as (l' & Hs & Hl' & Hp').
    assert (l' ≡ₚ p) as Hperm'.
    { apply (inj (.++ [x])). by rewrite Hp'. }
    destruct (IH l' (x :: tail) Hperm') as (rnd' & Hrnd').
    replace (length l - 1)%nat with (length p) in * by lia.
    destruct (length p) as [|n] eqn:Hn.
    + exists (fun _ => 0%nat). cbn [Shuffle_from].
      destruct p; [|done]. destruct l as [|y [|]]; try done.
      apply Permutation_singleton_r in Hperm. by rewrite Hperm.
    + exists (fun k => if decide (k = S n) then j else rnd' k).
      cbn [Shuffle_from]. rewrite decide_True by done.
      assert (j < S n + 1)%nat as Hjlt.
      { apply lookup_lt_Some in Hj. lia. }
      rewrite Nat.mod_small by done.
      assert (swap (S n) j (l ++ tail) = Some ((l' ++ [x]) ++ tail)) as ->.
      { revert Hs. unfold swap. rewrite !lookup_app_l by lia.
        destruct (l !! S n) as [a'|]; [|done].
        rewrite Hj. intros [= <-].
        rewrite (insert_app_l l) by lia.
        by rewrite insert_app_l by (rewrite length_insert; lia). }
      rewrite <- app_assoc. cbn [app].
      rewrite Hl' in Hrnd'.
      replace (S n - 1)%nat with n in Hrnd' by lia.
      rewrite <- app_assoc. cbn [app]. rewrite <- Hrnd'.
      apply Shuffle_from_ext. intros k Hk. by rewrite decide_False by lia.
Qed.

(** Every order of the keys is the result of [rand.Shuffle] for some
    sequence of draws. *)
Lemma Shuffle_reach (files p : list string) :
  p ≡ₚ files ->
  exists rnd, Shuffle rnd (length files) files = Some p.
Proof.
  intros Hperm. unfold Shuffle.
  destruct (Shuffle_from_reach p files [] (symmetry Hperm)) as (rnd & H).
  exists rnd. by rewrite !app_nil_r in H.
Qed.

Lemma Shuffle_from_above rnd i : forall (files l : list string) k,
  Shuffle_from rnd i files = Some l -> (i < k)%nat -> l !! k = files !! k.
Proof.
  induction i as [|i IH]; intros files l k H Hk; cbn [Shuffle_from] in H.
  - by simplify_eq.
  - destruct (swap _ _ files) as [files'|] eqn:Hs; [|done].
    rewrite (IH files' l k H) by lia. revert Hs. unfold swap.
    destruct (files !! S i) as [a|]; [|done].
    destruct (files !! _) as [b|]; [|done]. intros [= <-].
    pose proof (Nat.mod_upper_bound (rnd (S i)) (S i + 1)).
    by rewrite !list_lookup_insert_ne by lia.
Qed.

Lemma Shuffle_from_S rnd i (files : list string) :
  Shuffle_from rnd (S i) files
  = match swap (S i) (rnd (S i) mod (S i + 1))%nat files with
    | Some files' => Shuffle_from rnd i files'
    | None => None
    end.
Proof. done. Qed.

(** The key drawn first is put last and stays there. *)
Lemma Shuffle_last rnd (files l : list string) :
  (2 <= length files)%nat ->
  Shuffle rnd (length files) files = Some l ->
  l !! (length files - 1)%nat
  = files !! (rnd (length files - 1)%nat mod length files)%nat.
Proof.
  unfold Shuffle. intros Hlen H.
  destruct (length files - 1)%nat as [|i] eqn:Hi; [lia|].
  replace (length files) with (S i + 1)%nat by lia.
  rewrite Shuffle_from_S in H.
  generalize dependent (rnd (S i) mod (S i + 1))%nat. intros j H.
  destruct (swap (S i) j files) as [files'|] eqn:Hs; [|done].
  rewrite (Shuffle_from_above _ _ _ _ (S i) H) by lia.
  revert Hs. unfold swap.
  destruct (files !! S i) as [a|] eqn:Ha; [|done].
  destruct (files !! j) as [b|] eqn:Hb; [|done].
  intros [= <-].
  destruct (decide (j = S i)) as [->|E].
  - rewrite list_lookup_insert_eq by (rewrite length_insert; lia).
    congruence.
  - rewrite list_lookup_insert_ne by done.
    apply list_lookup_insert_eq. lia.
Qed.

(** ** The fill loop of buildDownloadList *)

Lemma range_fileList_spec fl : forall files n,
  (Z.of_nat (length files) < n)%Z ->
  match range_fileList fl files n with
  | inl out =>
      (Z.to_nat n - length files <= length fl)%nat /\
      out = files ++ take (Z.to_nat n - length files) fl
  | inr files' =>
      files' = files ++ fl /\ (Z.of_nat (length files') < n)%Z
  end.
Proof.
  induction fl as [|f rest IH]; intros files n Hlt; cbn [range_fileList].
  - by rewrite app_nil_r.
  - destruct (Z.of_nat (length (files ++ [f])) >=? n)%Z eqn:E.
    + apply Z.geb_le in E. rewrite length_app in E. cbn in E.
      replace (Z.to_nat n - length files)%nat with 1%nat by lia.
      split; [cbn; lia | done].
    + rewrite Z.geb_leb in E. apply Z.leb_gt in E.
      specialize (IH (files ++ [f]) n E).
      rewrite length_app in E, IH. cbn [length] in E, IH.
      destruct (range_fileList rest (files ++ [f]) n) as [out|files'].
      * destruct IH as [Hle ->]. split; [cbn; lia|].
        replace (Z.to_nat n - length files)%nat
          with (S (Z.to_nat n - (length files + 1)))%nat by lia.
        by rewrite <- app_assoc.
      * destruct IH as [-> Hlt']. split; [by rewrite <- app_assoc|].
        rewrite !length_app in *. cbn [length] in *. lia.
Qed.

Lemma fill_loop_spec fl n : fl <> [] -> forall fuel files,
  (Z.of_nat (length files) < n)%Z ->
  (Z.to_nat n <= length files + fuel * length fl)%nat ->
  exists out,
    fill_loop fuel fl files n = Ret out /\
    length out = Z.to_nat n /\
    (forall i, (i < length files)%nat -> out !! i = files !! i) /\
    (forall i, (length files <= i < Z.to_nat n)%nat ->
               out !! i = fl !! ((i - length files) mod length fl)%nat).
Proof.
  intros Hfl. assert (0 < length fl)%nat as HM.
  { destruct fl; [done | cbn; lia]. }
  induction fuel as [|fuel IH]; intros files Hlt Hfuel; [lia|].
  cbn [fill_loop]. pose proof (range_fileList_spec fl files n Hlt) as Hr.
  destruct (range_fileList fl files n) as [out|files'].
  - destruct Hr as [Hle ->]. eexists. split; [done|].
    split; [rewrite length_app, length_take; lia|]. split.
    + intros i Hi. by rewrite lookup_app_l.
    + intros i Hi. rewrite lookup_app_r by lia.
      rewrite lookup_take_lt by lia. by rewrite Nat.mod_small by lia.
  - destruct Hr as [-> Hlt']. rewrite length_app in Hlt'.
    destruct (IH (files ++ fl) ltac:(by rewrite length_app)
                ltac:(rewrite length_app; lia)) as (out & -> & Hlen & Hpre & Hcyc).
    rewrite length_app in Hpre, Hcyc.
    exists out. split; [done|]. split; [done|]. split.
    + intros i Hi. rewrite Hpre by lia. by rewrite lookup_app_l.
    + intros i Hi. destruct (decide (i < length files + length fl)%nat).
      * rewrite Hpre by lia. rewrite lookup_app_r by lia.
        by rewrite Nat.mod_small by lia.
      * rewrite Hcyc by lia. f_equal.
        replace (i - length files)%nat
          with (i - (length files + length fl) + 1 * length fl)%nat by lia.
        by rewrite Nat.Div0.mod_add.
Qed.

(** More fuel never changes a result already reached. *)
Lemma fill_loop_fuel_mono fl n fuel fuel' files out :
  fill_loop fuel fl files n = Ret out -> (fuel <= fuel')%nat ->
  fill_loop fuel' fl files n = Ret out.
Proof.
  revert fuel' files. induction fuel as [|fuel IH]; intros fuel' files; [done|].
  intros H Hle. destruct fuel' as [|fuel']; [lia|]. cbn [fill_loop] in *.
  destruct (range_fileList fl files n); [done|]. apply IH; [done | lia].
Qed.

(** ** Counting keys in a cyclic list *)

Definition occurrences (k : string) (l : list string) : nat :=
  length (filter (fun x => x = k) l).

Lemma occurrences_app k l1 l2 :
  occurrences k (l1 ++ l2) = (occurrences k l1 + occurrences k l2)%nat.
Proof. unfold occurrences. by rewrite filter_app, length_app. Qed.

Lemma occurrences_pos k l : k ∈ l -> (1 <= occurrences k l)%nat.
Proof.
  intros H. unfold occurrences.
  assert (k ∈ filter (fun x => x = k) l) as Hin by by apply list_elem_of_filter.
  destruct (filter _ l); [by apply elem_of_nil in Hin | cbn; lia].
Qed.

Lemma occurrences_Permutation k l1 l2 :
  l1 ≡ₚ l2 -> occurrences k l1 = occurrences k l2.
Proof. unfold occurrences. by intros ->. Qed.

Lemma cyclic_occurrences fl k : k ∈ fl -> forall q out,
  (q * length fl <= length out)%nat ->
  (forall i, (i < length out)%nat -> out !! i = fl !! (i mod length fl)%nat) ->
  (q <= occurrences k out)%nat.
Proof.
  intros Hk. assert (0 < length fl)%nat as HM.
  { destruct fl; [by apply elem_of_nil in Hk | cbn; lia]. }
  induction q as [|q IH]; intros out Hlen Hcyc; [lia|].
  rewrite <- (take_drop (length fl) out), occurrences_app.
  assert (take (length fl) out = fl) as ->.
  { apply list_eq. intros i. destruct (decide (i < length fl)%nat).
    - rewrite lookup_take_lt by lia. rewrite Hcyc by lia.
      by rewrite Nat.mod_small by lia.
    - rewrite lookup_take_ge by lia. symmetry. apply lookup_ge_None. lia. }
  pose proof (occurrences_pos k fl Hk).
  specialize (IH (drop (length fl) out)). rewrite length_drop in IH.
  assert (q <= occurrences k (drop (length fl) out))%nat; [|lia].
  apply IH; [lia|]. intros i Hi. rewrite lookup_drop, Hcyc by lia. f_equal.
  replace (length fl + i)%nat with (i + 1 * length fl)%nat by lia.
  by rewrite Nat.Div0.mod_add.
Qed.

(** ** buildDownloadList *)

Lemma numFilesNeeded_pos_Size cfg :
  (0 < numFilesNeeded cfg)%Z ->
  (Size (fileSets_index (FileSetName cfg)) =? 0)%Z = false.
Proof.
  unfold numFilesNeeded, GoInt.quo. intros H. apply Z.eqb_neq. intros E.
  rewrite E in H.
  replace (DownloadSizeBytes cfg ÷ 0)%Z with 0%Z in H
    by by destruct (DownloadSizeBytes cfg).
  vm_compute in H. done.
Qed.

Lemma makeslice_cap n :
  ((n <? 0) || (maxAlloc <? n * sizeof_string))%Z = false
  <-> (0 <= n <= maxSliceCap)%Z.
Proof.
  unfold maxSliceCap, maxAlloc, sizeof_string.
  rewrite orb_false_iff, Z.ltb_ge, Z.ltb_ge.
  change (2 ^ 48 / 16)%Z with (2 ^ 44)%Z. lia.
Qed.

Lemma buildDownloadList_spec cfg w keys :
  list_pages (pages w) 0 [] = Ret keys ->
  keys <> [] ->
  (0 < numFilesNeeded cfg)%Z ->
  (numFilesNeeded cfg <= maxSliceCap)%Z ->
  exists shuffled out,
    Shuffle (rnd w) (length keys) keys = Some shuffled /\
    shuffled ≡ₚ keys /\
    listS3Files cfg w = Ret (GoOk shuffled) /\
    buildDownloadList cfg w = Ret (GoOk out) /\
    length out = Z.to_nat (numFilesNeeded cfg) /\
    (forall i, (i < Z.to_nat (numFilesNeeded cfg))%nat ->
               out !! i = shuffled !! (i mod length keys)%nat).
Proof.
  intros Hpages Hne Hpos Hcap.
  destruct (Shuffle_total (rnd w) keys) as (shuffled & Hsh & Hperm).
  assert (length shuffled = length keys) as Hlen by by rewrite Hperm.
  assert (shuffled <> []) as Hne'.
  { intros ->. destruct keys; [done | discriminate Hlen]. }
  assert (listS3Files cfg w = Ret (GoOk shuffled)) as HL.
  { unfold listS3Files. rewrite Hpages. cbn. by rewrite Hsh. }
  destruct (fill_loop_spec shuffled (numFilesNeeded cfg) Hne'
              (Z.to_nat (numFilesNeeded cfg)) [])
    as (out & Hfill & Hout & _ & Hcyc).
  { cbn. lia. }
  { cbn. destruct shuffled; [done|]. cbn. nia. }
  exists shuffled, out. repeat split; try done.
  - unfold buildDownloadList, buildDownloadList_fuel. rewrite HL. cbn.
    destruct (decide (length shuffled = 0%nat)) as [E|_].
    { destruct shuffled; [done | discriminate E]. }
    rewrite (numFilesNeeded_pos_Size cfg Hpos).
    destruct (Z.eqb_spec (numFilesNeeded cfg) 0); [lia|].
    rewrite (proj2 (makeslice_cap (numFilesNeeded cfg))) by lia.
    by rewrite Hfill.
  - intros i Hi. rewrite Hcyc by (cbn; lia). cbn.
    by rewrite Nat.sub_0_r, Hlen.
Qed.

Lemma listS3Files_nonempty cfg w keys :
  list_pages (pages w) 0 [] = Ret keys ->
  keys <> [] ->
  exists shuffled,
    listS3Files cfg w = Ret (GoOk shuffled) /\
    shuffled ≡ₚ keys /\ length shuffled <> 0%nat.
Proof.
  intros Hpages Hne.
  destruct (Shuffle_total (rnd w) keys) as (shuffled & Hsh & Hperm).
  exists shuffled. split; [|split; [done|]].
  - unfold listS3Files. rewrite Hpages. cbn. by rewrite Hsh.
  - rewrite Hperm. by destruct keys.
Qed.

(** C1, as the code has it: for a configuration whose download volume
    is an exact multiple of the file-set object size, and a non-empty
    discovered key list, [buildDownloadList] returns a work list of
    length exactly [DownloadSizeBytes / Size] when the volume is
    positive and [make] accepts that many files; a volume of zero
    stops at the zero-files check, and more files than [make] accepts
    make it panic. *)
Theorem buildDownloadList_length cfg w fs keys :
  fileSets !! FileSetName cfg = Some fs ->
  GoInt.is_int (DownloadSizeBytes cfg) ->
  (0 <= DownloadSizeBytes cfg)%Z ->
  GoInt.rem (DownloadSizeBytes cfg) (Size fs) = 0%Z ->
  list_pages (pages w) 0 [] = Ret keys ->
  keys <> [] ->
  ((0 < DownloadSizeBytes cfg)%Z ->
   (DownloadSizeBytes cfg / Size fs <= maxSliceCap)%Z ->
   exists out,
     buildDownloadList cfg w = Ret (GoOk out) /\
     Z.of_nat (length out) = (DownloadSizeBytes cfg / Size fs)%Z) /\
  (DownloadSizeBytes cfg = 0%Z ->
   buildDownloadList cfg w = Fatal FatalZeroFiles) /\
  ((maxSliceCap < DownloadSizeBytes cfg / Size fs)%Z ->
   buildDownloadList cfg w = Panic PanicMakeSliceCap).
Proof.
  intros Hfs Hint Hnn Hrem Hpages Hne.
  pose proof (fileSets_Size_pos _ _ Hfs) as HS.
  assert (numFilesNeeded cfg = (DownloadSizeBytes cfg / Size fs)%Z
          /\ (0 < DownloadSizeBytes cfg ->
              0 < DownloadSizeBytes cfg / Size fs)%Z) as [Hn Hq].
  { unfold numFilesNeeded. rewrite (fileSets_index_Some _ _ Hfs).
    unfold GoInt.quo, GoInt.rem in *.
    rewrite Z.quot_div_nonneg by lia. rewrite Z.rem_mod_nonneg in Hrem by lia.
    pose proof (Z.div_mod (DownloadSizeBytes cfg) (Size fs) ltac:(lia)) as Hd.
    rewrite Hrem in Hd.
    pose proof (Z.div_pos (DownloadSizeBytes cfg) (Size fs) Hnn ltac:(lia)).
    split; [|nia]. apply wrap_id.
    unfold GoInt.is_int, GoInt.MinInt, GoInt.MaxInt in *. nia. }
  assert ((Size (fileSets_index (FileSetName cfg)) =? 0)%Z = false) as HS0.
  { rewrite (fileSets_index_Some _ _ Hfs). apply Z.eqb_neq. lia. }
  destruct (listS3Files_nonempty cfg w keys Hpages Hne)
    as (shuffled & HL & _ & Hlen).
  split; [|split].
  - intros Hpos Hcap.
    destruct (buildDownloadList_spec cfg w keys Hpages Hne)
      as (_ & out & _ & _ & _ & Hb & Hout & _); [lia | lia |].
    exists out. split; [done|]. rewrite Hout, Hn. lia.
  - intros Hz. unfold buildDownloadList, buildDownloadList_fuel.
    rewrite HL. cbn. destruct (decide (length shuffled = 0%nat)); [done|].
    rewrite HS0, Hn, Hz. by rewrite Z.div_0_l by lia.
  - intros Hbig. unfold buildDownloadList, buildDownloadList_fuel.
    rewrite HL. cbn. destruct (decide (length shuffled = 0%nat)); [done|].
    rewrite HS0.
    assert (0 <= maxSliceCap)%Z by done.
    destruct (Z.eqb_spec (numFilesNeeded cfg) 0); [lia|].
    destruct ((numFilesNeeded cfg <? 0)
              || (maxAlloc <? numFilesNeeded cfg * sizeof_string))%Z eqn:E;
      [done|].
    apply makeslice_cap in E. lia.
Qed.

Lemma buildDownloadList_returns cfg w out :
  buildDownloadList cfg w = Ret (GoOk out) ->
  (0 < numFilesNeeded cfg <= maxSliceCap)%Z.
Proof.
  unfold buildDownloadList, buildDownloadList_fuel.
  destruct (listS3Files cfg w) as [[fileList|err]| | |]; cbn; try done.
  destruct (decide (length fileList = 0%nat)); [done|].
  destruct (Size (fileSets_index (FileSetName cfg)) =? 0)%Z; [done|].
  destruct (Z.eqb_spec (numFilesNeeded cfg) 0); [done|].
  destruct ((numFilesNeeded cfg <? 0)
            || (maxAlloc <? numFilesNeeded cfg * sizeof_string))%Z eqn:E;
    [done|].
  apply makeslice_cap in E. lia.
Qed.

(** C2: the discovered keys are shuffled once, by the loop of
    [rand.Shuffle] (the key drawn first goes last, and every order of
    the keys comes out for some draws), and the shuffled list is
    cycled: whenever a work list is returned it has [numFilesNeeded]
    entries, entry [i] is the shuffled list's entry [i mod M], and every
    discovered key occurs at least [numFilesNeeded / M] times; and a work
    list is returned whenever at least one file is needed and [make]
    accepts their number. *)
Theorem buildDownloadList_cycles cfg w keys :
  list_pages (pages w) 0 [] = Ret keys ->
  keys <> [] ->
  (forall p, p ≡ₚ keys ->
             exists draws,
               listS3Files cfg {| config_ok := config_ok w;
                                  pages := pages w; rnd := draws |}
               = Ret (GoOk p)) /\
  exists shuffled,
    Shuffle (rnd w) (length keys) keys = Some shuffled /\
    shuffled ≡ₚ keys /\
    ((2 <= length keys)%nat ->
     shuffled !! (length keys - 1)%nat
     = keys !! (rnd w (length keys - 1)%nat mod length keys)%nat) /\
    listS3Files cfg w = Ret (GoOk shuffled) /\
    ((0 < numFilesNeeded cfg <= maxSliceCap)%Z ->
     exists out, buildDownloadList cfg w = Ret (GoOk out)) /\
    (forall out,
        buildDownloadList cfg w = Ret (GoOk out) ->
        length out = Z.to_nat (numFilesNeeded cfg) /\
        (forall i, (i < Z.to_nat (numFilesNeeded cfg))%nat ->
                   out !! i = shuffled !! (i mod length keys)%nat) /\
        (forall k, k ∈ keys ->
                   (Z.to_nat (numFilesNeeded cfg) / length keys
                    <= occurrences k out)%nat)).
Proof.
  intros Hpages Hne. split.
  { intros p Hp. destruct (Shuffle_reach keys p Hp) as (draws & Hd).
    exists draws. unfold listS3Files. cbn. rewrite Hpages. cbn.
    by rewrite Hd. }
  destruct (Shuffle_total (rnd w) keys) as (shuffled & Hsh & Hperm).
  exists shuffled. split; [done|]. split; [done|].
  split; [intros Hlen; by apply Shuffle_last|].
  assert (listS3Files cfg w = Ret (GoOk shuffled)) as HL.
  { unfold listS3Files. rewrite Hpages. cbn. by rewrite Hsh. }
  split; [done|]. split.
  - intros [Hpos Hcap].
    destruct (buildDownloadList_spec cfg w keys Hpages Hne Hpos Hcap)
      as (_ & out & _ & _ & _ & Hb & _). by exists out.
  - intros out Hout.
    pose proof (buildDownloadList_returns _ _ _ Hout) as [Hpos Hcap].
    destruct (buildDownloadList_spec cfg w keys Hpages Hne Hpos Hcap)
      as (shuffled' & out' & Hsh' & _ & _ & Hb & Hlen & Hcyc).
    assert (shuffled' = shuffled) as -> by congruence.
    assert (out' = out) as -> by congruence.
    split; [done|]. split; [done|].
    intros k Hk.
    assert (length shuffled = length keys) as HM by by rewrite Hperm.
    apply (cyclic_occurrences shuffled k).
    + by rewrite Hperm.
    + rewrite HM, Hlen, Nat.mul_comm. apply Nat.Div0.mul_div_le.
    + intros i Hi. rewrite HM. apply Hcyc. lia.
Qed.

(** ** parseFlags *)

Lemma parseFlags_Fatal_classify fl k :
  parseFlags fl = Fatal k -> classify k = ConfigurationError.
Proof.
  unfold parseFlags. repeat case_match; intros; by simplify_eq.
Qed.

(** While the flag values stay in the range of [int], [parseFlags]
    rejects exactly the unknown file sets, the volumes that are not a
    multiple of the object size and the worker counts above the number of
    files needed. *)
Lemma parseFlags_in_range fl :
  (0 <= flag_download fl)%Z ->
  (flag_download fl * MiB <= GoInt.MaxInt)%Z ->
  (0 <= flag_goroutines fl <= GoInt.MaxInt)%Z ->
  match fileSets !! flag_set fl with
  | None => parseFlags fl = Fatal (FatalUnknownFileSet (flag_set fl))
  | Some fs =>
      let volume := (flag_download fl * MiB)%Z in
      if decide ((volume mod Size fs)%Z <> 0%Z)
      then parseFlags fl =
           Fatal (FatalNotMultiple (flag_download fl) (Size fs))
      else if decide (flag_goroutines fl > volume / Size fs)%Z
      then parseFlags fl =
           Fatal (FatalGoroutines (flag_goroutines fl) (volume / Size fs))
      else exists cfg,
          parseFlags fl = Ret cfg /\
          DownloadSizeBytes cfg = volume /\
          Goroutines cfg = flag_goroutines fl /\
          FileSetName cfg = flag_set fl
  end.
Proof.
  intros Hd Hv Hg. unfold parseFlags.
  destruct (fileSets !! flag_set fl) as [fs|] eqn:Hfs; [|done].
  pose proof (fileSets_Size_pos _ _ Hfs) as HS.
  assert (0 < MiB)%Z as HM by done.
  assert (flag_download fl <= GoInt.MaxInt)%Z as Hd'.
  { unfold MiB, KiB in *. lia. }
  assert (GoInt.mul (GoInt.of_uint (flag_download fl)) MiB
          = (flag_download fl * MiB)%Z) as ->.
  { unfold GoInt.mul, GoInt.of_uint.
    rewrite (wrap_id (flag_download fl))
      by (unfold GoInt.is_int, GoInt.MinInt, GoInt.MaxInt in *; lia).
    apply wrap_id. unfold GoInt.is_int, GoInt.MinInt, GoInt.MaxInt in *. nia. }
  assert (GoInt.of_uint (flag_goroutines fl) = flag_goroutines fl) as ->.
  { apply wrap_id. unfold GoInt.is_int, GoInt.MinInt, GoInt.MaxInt in *. lia. }
  cbn zeta. unfold GoInt.rem, GoInt.quo.
  rewrite Z.rem_mod_nonneg by nia. rewrite Z.quot_div_nonneg by nia.
  assert (0 <= flag_download fl * MiB / Size fs <= flag_download fl * MiB)%Z.
  { split; [apply Z.div_pos; nia|]. apply Z.div_le_upper_bound; nia. }
  rewrite (wrap_id (_ / _))
    by (unfold GoInt.is_int, GoInt.MinInt, GoInt.MaxInt in *; lia).
  destruct (decide (_ <> 0%Z)) as [Hne|He].
  - apply Z.eqb_neq in Hne. by rewrite Hne.
  - apply dec_stable in He. rewrite He. cbn.
    destruct (decide (_ > _)%Z) as [Hgt|Hle].
    + apply Z.gtb_gt in Hgt. by rewrite Hgt.
    + destruct (_ >? _)%Z eqn:E; [apply Z.gtb_gt in E; lia|].
      eexists. split; [done|]. done.
Qed.

(** ** The pipeline: an invariant of every reachable state *)

Section PipelineFacts.
Context {Time Duration float : Type}.
Context (Sub : Time -> Time -> Duration) (Seconds : Duration -> float).
Context (Quantile : list float -> Q -> float).
Context (float64 : Z -> float) (fdiv : float -> float -> float).
Context (Marshal : Datapoint float -> option string).

Local Abbreviation state := (@state Time float).
Local Abbreviation wpc := (@wpc Time float).
Local Abbreviation step := (step Sub Seconds Quantile float64 fdiv Marshal).
Local Abbreviation exec := (exec Sub Seconds Quantile float64 fdiv Marshal).
Local Abbreviation reachable := (reachable Sub Seconds Quantile float64 fdiv Marshal).
Local Abbreviation wstep := (wstep Sub Seconds).
Local Abbreviation wrun := (wrun Sub Seconds).

Lemma sum_list_insert (f : wpc -> nat) (ws : list wpc) w pc pc' :
  ws !! w = Some pc ->
  (sum_list_with f (<[w := pc']> ws) + f pc = sum_list_with f ws + f pc')%nat.
Proof.
  revert w. induction ws as [|x ws IH]; intros [|w] H; simplify_eq/=.
  - lia.
  - specialize (IH w H). lia.
Qed.

Lemma sum_list_lookup_le (f : wpc -> nat) (ws : list wpc) w pc :
  ws !! w = Some pc -> (f pc <= sum_list_with f ws)%nat.
Proof.
  revert w. induction ws as [|x ws IH]; intros [|w] H; simplify_eq/=.
  - lia.
  - specialize (IH w H). lia.
Qed.

Lemma inv_init cfg dl : inv cfg dl (init cfg dl : state).
Proof.
  constructor; cbn; auto; done.
Qed.

Ltac close_inv :=
  try done; try lia; try (by auto);
  try (intros; apply list_elem_of_here);
  try (intros; repeat (apply list_elem_of_further); by auto);
  try (by intros Hx; match goal with
                     | H : _ = true -> _ /\ _ |- _ => destruct (H Hx)
                     end).

Lemma step_feeder_inv cfg dl (s s' : state) :
  inv cfg dl s -> step_feeder s = Some s' -> inv cfg dl s'.
Proof.
  intros [I_cfg I_recv I_sent I_inflight I_closed_feed I_wg I_exit I_spawn
          I_latency_closed I_done I_drained I_quantile I_order
          I_close_logged I_stdout I_nocrash] H. unfold step_feeder in H.
  destruct s as [c cs fd wk wc lat lc ld dg ws n pc out st tr]; cbn in *.
  destruct wc; [done|]. destruct fd as [|f rest].
  - simplify_eq. constructor; cbn; close_inv.
    intros w Hw. by destruct (I_exit w Hw).
  - case_decide; [|done]. simplify_eq. constructor; cbn; close_inv.
    + by rewrite <- app_assoc.
    + intros w Hw. by destruct (I_exit w Hw).
Qed.

Lemma quantile_free_ingest (tr : list (@event Time float)) v :
  quantile_free (EvIngest v :: tr) = quantile_free tr.
Proof. done. Qed.

Lemma step_collector_inv cfg dl (s s' : state) :
  inv cfg dl s -> step_collector s = Some s' -> inv cfg dl s'.
Proof.
  intros [I_cfg I_recv I_sent I_inflight I_closed_feed I_wg I_exit I_spawn
          I_latency_closed I_done I_drained I_quantile I_order
          I_close_logged I_stdout I_nocrash] H. unfold step_collector in H.
  destruct s as [c cs fd wk wc lat lc ld dg ws n pc out st tr]; cbn in *.
  destruct ld; [done|]. destruct lat as [|v rest].
  - destruct lc eqn:E; [|done]. simplify_eq. constructor; cbn; close_inv.
  - simplify_eq. constructor; cbn; close_inv.
    + rewrite I_sent. by rewrite <- app_assoc.
    + destruct I_quantile as [Hq|Hr].
      * unfold quantile_free in *. cbn in *. by rewrite Hq, I_order.
      * destruct pc; try done; by specialize (I_drained eq_refl).
Qed.

Lemma step_coord_inv cfg dl e (s s' : state) :
  inv cfg dl s -> status s = Running ->
  step_coord Sub Seconds Quantile float64 fdiv Marshal e s = Some s' ->
  inv cfg dl s'.
Proof.
  intros [I_cfg I_recv I_sent I_inflight I_closed_feed I_wg I_exit I_spawn
          I_latency_closed I_done I_drained I_quantile I_order
          I_close_logged I_stdout I_nocrash] Hrun H. unfold step_coord in H.
  destruct s as [c cs fd wk wc lat lc ld dg ws n pc out st tr]; cbn in *.
  destruct pc, e; try done; cbn in I_spawn; simplify_eq.
  - constructor; cbn; close_inv.
  - destruct (Z.ltb_spec i (Goroutines cfg)); simplify_eq;
      constructor; cbn; rewrite ?sum_list_with_app, ?length_app;
      cbn; close_inv.
    intros w Hw. apply I_exit with w.
    apply lookup_app_Some in Hw as [Hw|[_ Hw]]; [done|].
    by destruct (w - length ws)%nat.
  - case_match eqn:E; [|done]. apply Z.eqb_eq in E. simplify_eq.
    constructor; cbn; close_inv.
  - constructor; cbn; close_inv.
  - constructor; cbn; close_inv.
    destruct I_quantile as [Hq|Hr]; [|done].
    unfold quantile_free in *. by rewrite Hq, I_order.
  - destruct ld eqn:E; [|done]. simplify_eq. constructor; cbn; close_inv.
  - constructor; cbn; close_inv.
  - assert (out = []) as -> by (by destruct I_stdout).
    case_match; simplify_eq; constructor; cbn; close_inv.
Qed.

Lemma spawn_ok_worker cfg pc (ws : list wpc) w p p' n n' :
  spawn_ok cfg pc ws n -> ws !! w = Some p ->
  n = Z.of_nat (sum_list_with active ws) -> active p = 1%nat ->
  spawn_ok cfg pc (<[w := p']> ws) n'.
Proof.
  intros Hs Hw -> Hp. pose proof (sum_list_lookup_le active ws w p Hw).
  destruct pc; cbn in *; rewrite ?length_insert; try done; try lia.
  by subst ws.
Qed.

Lemma exit_insert (ws : list wpc) w p' (P : Prop) :
  (forall v, ws !! v = Some WExit -> P) -> (p' = WExit -> P) ->
  forall v, <[w := p']> ws !! v = Some WExit -> P.
Proof.
  intros Hall Hp v Hv. destruct (decide (w = v)) as [->|Hne].
  - destruct (decide (v < length ws)%nat).
    + rewrite list_lookup_insert_eq in Hv by done. apply Hp. congruence.
    + rewrite list_insert_ge in Hv by lia. eauto.
  - rewrite list_lookup_insert_ne in Hv by done. eauto.
Qed.

Lemma step_worker_inv cfg dl w e (s s' : state) :
  inv cfg dl s -> status s = Running ->
  step_worker Sub Seconds w e s = Some s' ->
  inv cfg dl s'.
Proof.
  intros [I_cfg I_recv I_sent I_inflight I_closed_feed I_wg I_exit I_spawn
          I_latency_closed I_done I_drained I_quantile I_order
          I_close_logged I_stdout I_nocrash] Hrun H. unfold step_worker in H.
  destruct s as [c cs fd wk wc lat lc ld dg ws n pc out st tr]; cbn in *.
  destruct (ws !! w) as [p|] eqn:Hw; [|done].
  pose proof (sum_list_insert inflight ws w p) as Hin.
  pose proof (sum_list_insert active ws w p) as Hac.
  pose proof (sum_list_lookup_le active ws w p Hw) as Hle.
  pose proof (fun p' n' => spawn_ok_worker cfg pc ws w p p' n n' I_spawn Hw I_wg)
    as Hsp.
  destruct p; cbn in H, Hle, Hsp.
  - destruct wk as [|f wk].
    + destruct wc eqn:E; [|done]. cbn in H. simplify_eq.
      specialize (Hin WExit Hw). specialize (Hac WExit Hw). cbn in *.
      constructor; cbn; close_inv.
      destruct I_quantile as [Hq|Hr].
      * unfold quantile_free in *. by rewrite Hq, I_order.
      * destruct pc; cbn in *; try done; lia.
    + cbn in H. simplify_eq.
      specialize (Hin (WNow f) Hw). specialize (Hac (WNow f) Hw). cbn in *.
      constructor; cbn; rewrite ?length_app; cbn; close_inv.
      * by rewrite <- app_assoc.
      * eapply exit_insert; [|done]. intros v Hv. by destruct (I_exit v Hv).
  - destruct e; try done. cbn in H. simplify_eq.
    specialize (Hin (WGet f t) Hw). specialize (Hac (WGet f t) Hw). cbn in *.
    constructor; cbn; close_inv.
    by eapply exit_insert.
  - destruct e as [| | |[resp|]|]; try done; cbn in H; simplify_eq.
    + specialize (Hin (WSince f start resp) Hw).
      specialize (Hac (WSince f start resp) Hw). cbn in *.
      constructor; cbn; close_inv.
      by eapply exit_insert.
    + constructor; cbn; close_inv.
      by assert (out = []) as -> by (by destruct I_stdout); left.
  - destruct e; try done. cbn in H. simplify_eq.
    specialize (Hin (WSend (Seconds (Sub t start)) resp) Hw).
    specialize (Hac (WSend (Seconds (Sub t start)) resp) Hw). cbn in *.
    constructor; cbn; close_inv.
    by eapply exit_insert.
  - destruct e; try done. cbn in H.
    destruct (closed_phase pc) eqn:Hc.
    { exfalso. rewrite I_wg in I_spawn.
      destruct pc; cbn in *; try done; lia. }
    subst lc. case_decide; [|done]. simplify_eq.
    specialize (Hin (WCopy resp) Hw). specialize (Hac (WCopy resp) Hw).
    cbn in *.
    constructor; cbn; rewrite ?length_app; cbn; close_inv.
    + by rewrite I_sent, app_assoc.
    + by eapply exit_insert.
    + destruct I_quantile as [Hq|Hr].
      * unfold quantile_free in *. by rewrite Hq, I_order.
      * destruct pc; done.
    + intros Hx. congruence.
  - destruct e; try done. cbn in H.
    destruct (io_Copy_Discard (Body resp) 0) as [[written err] rest].
    simplify_eq.
    specialize (Hin WRange Hw). specialize (Hac WRange Hw). cbn in *.
    constructor; cbn; close_inv.
    by eapply exit_insert.
  - by destruct e.
Qed.

Lemma step_inv cfg dl a (s s' : state) :
  inv cfg dl s -> step a s = Some s' -> inv cfg dl s'.
Proof.
  intros Hinv H. unfold step in H.
  destruct (status s) eqn:Hst; try done.
  destruct a; eauto using step_feeder_inv, step_collector_inv,
    step_coord_inv, step_worker_inv.
Qed.

Lemma exec_inv cfg dl sched : forall s s' : state,
  inv cfg dl s -> exec sched s = Some s' -> inv cfg dl s'.
Proof.
  induction sched as [|a sched IH]; intros s s' Hinv H; cbn in H.
  - by simplify_eq.
  - destruct (step a s) as [s1|] eqn:Hs; [|done].
    eauto using step_inv.
Qed.

Lemma reachable_inv cfg dl (s : state) :
  reachable cfg dl s -> inv cfg dl s.
Proof. intros [sched H]. eapply exec_inv; [apply inv_init | done]. Qed.

Lemma reachable_step cfg dl a (s s' : state) :
  reachable cfg dl s -> step a s = Some s' -> reachable cfg dl s'.
Proof.
  intros [sched H] Hs. exists (sched ++ [a]). revert H.
  generalize (init cfg dl : state) as s0.
  induction sched as [|b sched IH]; intros s0 H; cbn in *.
  - simplify_eq. by rewrite Hs.
  - destruct (step b s0); [by apply IH | done].
Qed.

Lemma active_zero (ws : list wpc) :
  sum_list_with active ws = 0%nat ->
  sum_list_with inflight ws = 0%nat /\
  forall w p, ws !! w = Some p -> p = WExit.
Proof.
  induction ws as [|p ws IH]; cbn; [done|].
  destruct p; cbn; try lia. intros H. destruct (IH H) as [H1 H2].
  split; [done|]. intros [|w] p Hp; simplify_eq/=; eauto.
Qed.

Lemma quantile_free_lookup (tr : list (@event Time float)) j q :
  quantile_free tr = true -> tr !! j = Some (EvQuantile q) -> False.
Proof.
  unfold quantile_free. rewrite forallb_forall. intros H Hj.
  apply list_elem_of_lookup_2, list_elem_of_In, H in Hj. done.
Qed.

Lemma quantile_last_order (tr : list (@event Time float)) :
  quantile_last tr = true ->
  forall i j e q,
    tr !! i = Some e -> before_quantile e = true ->
    tr !! j = Some (EvQuantile q) -> (j < i)%nat.
Proof.
  induction tr as [|x tr IH]; intros H i j e q Hi He Hj; [done|].
  cbn in H. apply andb_prop in H as [H1 H2].
  destruct i as [|i], j as [|j]; simplify_eq/=; try lia.
  - rewrite He in H1. by destruct (quantile_free_lookup tr j q).
  - specialize (IH H2 i j e q Hi He Hj). lia.
Qed.

(** With at least one worker, by the time the collector has seen
    [latency] closed every item of the work list has been received by
    a worker exactly once, and the digest holds exactly the samples
    sent, one for each item. *)
Theorem collector_ingests_all cfg dl (s : state) :
  reachable cfg dl s ->
  (1 <= Goroutines cfg)%Z ->
  latencyDone s = true ->
  recv_log (trace s) = dl /\
  td s = sent_log (trace s) /\
  length (td s) = length dl.
Proof.
  intros [I_cfg I_recv I_sent I_inflight I_closed_feed I_wg I_exit I_spawn
          I_latency_closed I_done I_drained I_quantile I_order
          I_close_logged I_stdout I_nocrash]%reachable_inv HN Hdone.
  destruct (I_done Hdone) as [Hcl Hlat].
  rewrite I_latency_closed in Hcl.
  assert (length (workers s) = Z.to_nat (Goroutines cfg) /\ wg s = 0%Z)
    as [Hlen Hwg].
  { destruct (coord s); try done. }
  rewrite I_wg in Hwg.
  destruct (active_zero (workers s) ltac:(lia)) as [Hin Hex].
  destruct (lookup_lt_is_Some_2 (workers s) 0%nat ltac:(lia)) as [p Hp].
  rewrite (Hex 0%nat p Hp) in Hp.
  destruct (I_exit 0%nat Hp) as [Hwc Hwk].
  specialize (I_closed_feed Hwc).
  rewrite Hwk, I_closed_feed, !app_nil_r in I_recv.
  rewrite Hlat, app_nil_r in I_sent.
  split; [done|]. split; [done|].
  rewrite <- I_sent, <- I_recv. lia.
Qed.

(** C4: every sample is sent and added to the digest before the first
    [Quantile] call and none after; the workers have all returned and
    [latency] has been closed before it; and when a quantile has been
    read the collector has finished, [latency] is empty and the digest
    holds exactly the samples sent. *)
Theorem quantiles_read_after_ingestion cfg dl (s : state) :
  reachable cfg dl s ->
  (forall i j e q,
      trace s !! i = Some e -> before_quantile e = true ->
      trace s !! j = Some (EvQuantile q) -> (j < i)%nat) /\
  (forall j q,
      trace s !! j = Some (EvQuantile q) ->
      EvCloseLatency ∈ trace s /\
      sum_list_with active (workers s) = 0%nat /\
      latencyDone s = true /\
      latency s = [] /\
      td s = sent_log (trace s)).
Proof.
  intros [I_cfg I_recv I_sent I_inflight I_closed_feed I_wg I_exit I_spawn
          I_latency_closed I_done I_drained I_quantile I_order
          I_close_logged I_stdout I_nocrash]%reachable_inv. split.
  - by apply quantile_last_order.
  - intros j q Hj. destruct I_quantile as [Hq|Hr].
    { by destruct (quantile_free_lookup _ j q Hq). }
    assert (drained_phase (coord s) = true) as Hd by by destruct (coord s).
    assert (closed_phase (coord s) = true) as Hc by by destruct (coord s).
    specialize (I_drained Hd). destruct (I_done I_drained) as [_ Hl].
    assert (wg s = 0%Z) as Hwg by (by destruct (coord s), I_spawn).
    rewrite Hl, app_nil_r in I_sent.
    repeat split; auto. lia.
Qed.

(** C5: when [GetObject] fails for an item, whatever has been
    downloaded before, the process exits with status 1 through
    [log.Fatalf], nothing has been printed, and nothing happens
    afterwards. *)
Theorem download_error_aborts cfg dl (s : state) w f start :
  reachable cfg dl s ->
  status s = Running ->
  workers s !! w = Some (WGet f start) ->
  exists s',
    step (AWorker w (InResp None)) s = Some s' /\
    status s' = Aborted (FatalDownload f) /\
    classify (FatalDownload f) = DownloadError /\
    status_exit_code (status s') = Some 1%Z /\
    td s' = td s /\
    stdout s' = [] /\
    (forall sched s'', exec sched s' = Some s'' -> s'' = s').
Proof.
  intros Hreach Hrun Hw. pose proof (reachable_inv _ _ _ Hreach)
    as [I_cfg I_recv I_sent I_inflight I_closed_feed I_wg I_exit I_spawn
          I_latency_closed I_done I_drained I_quantile I_order
          I_close_logged I_stdout I_nocrash].
  unfold step, step_worker. rewrite Hrun, Hw. cbn.
  eexists. split; [done|]. cbn. repeat split.
  - destruct I_stdout as [->|E]; [done | congruence].
  - intros [|a sched] s'' H; cbn in H; [by simplify_eq | done].
Qed.

Lemma list_pages_error ps : forall i files,
  PageErr ∈ ps ->
  exists k, list_pages ps i files = Fatal (FatalGetPage k) /\ (i < k)%Z.
Proof.
  induction ps as [|p ps IH]; intros i files Hin.
  - by apply elem_of_nil in Hin.
  - cbn. destruct p as [contents|].
    + apply elem_of_cons in Hin as [|Hin]; [done|].
      destruct (IH (i + 1)%Z (files ++ contents) Hin) as (k & -> & Hk).
      exists k. split; [done | lia].
    + exists (i + 1)%Z. split; [done | lia].
Qed.

(** C7: when the listing succeeds with no key at all,
    [buildDownloadList] returns the "no S3 files found" error, [run]
    stops through [log.Fatalf] with status 1 before the pipeline is
    started, and nothing is printed; that failure is not the one a
    failed listing call gives. *)
Theorem empty_dataset_aborts cfg w sched :
  config_ok w = true ->
  list_pages (pages w) 0 [] = Ret [] ->
  buildDownloadList cfg w = Ret (GoErr no_files_msg) /\
  run Sub Seconds Quantile float64 fdiv Marshal cfg w sched
  = Some (Aborted (FatalBuildFileList no_files_msg), []) /\
  classify (FatalBuildFileList no_files_msg) = EmptyDatasetError /\
  (forall k, classify (FatalGetPage k)
             <> classify (FatalBuildFileList no_files_msg)) /\
  status_exit_code (Aborted (FatalBuildFileList no_files_msg)) = Some 1%Z.
Proof.
  intros Hok Hpages.
  assert (buildDownloadList cfg w = Ret (GoErr no_files_msg)) as Hb.
  { unfold buildDownloadList, buildDownloadList_fuel, listS3Files.
    by rewrite Hpages. }
  repeat split; try done.
  unfold run, run_setup. by rewrite Hok, Hb.
Qed.

(** C8: when a listing call fails, [buildDownloadList] does not return:
    the process exits with status 1 through the [log.Fatalf] of
    [listS3Files], a discovery failure, and nothing is printed. *)
Theorem listing_error_aborts cfg w sched :
  config_ok w = true ->
  PageErr ∈ pages w ->
  exists k,
    buildDownloadList cfg w = Fatal (FatalGetPage k) /\
    run Sub Seconds Quantile float64 fdiv Marshal cfg w sched
  = Some (Aborted (FatalGetPage k), []) /\
    classify (FatalGetPage k) = DiscoveryError /\
    status_exit_code (Aborted (FatalGetPage k)) = Some 1%Z.
Proof.
  intros Hok Hin.
  destruct (list_pages_error (pages w) 0 [] Hin) as (k & Hk & _).
  assert (buildDownloadList cfg w = Fatal (FatalGetPage k)) as Hb.
  { unfold buildDownloadList, buildDownloadList_fuel, listS3Files.
    by rewrite Hk. }
  exists k. repeat split; try done.
  unfold run, run_setup. by rewrite Hok, Hb.
Qed.

Lemma io_Copy_Discard_ok body : forall written,
  ReadErr ∉ body ->
  io_Copy_Discard body written = ((written + body_bytes body)%Z, false, []).
Proof.
  induction body as [|r body IH]; intros written Hno; cbn.
  - by rewrite Z.add_0_r.
  - apply not_elem_of_cons in Hno as [Hr Hno]. destruct r; [|done].
    rewrite IH by done. fold (body_bytes body). do 2 f_equal. lia.
Qed.

(** The statements of [downloader] for one item, in order. *)
Lemma wrun_item f t0 resp t1 :
  wrun (WNow f) [InTime t0; InResp (Some resp); InTime t1; InNone; InNone]
  = Some (WRange,
          [FxNow t0; FxGetObject f true; FxSince t1;
           FxSend (Seconds (Sub t1 t0));
           FxCopy (io_Copy_Discard (Body resp) 0).1.1
                  (io_Copy_Discard (Body resp) 0).1.2]).
Proof.
  cbn. by destruct (io_Copy_Discard (Body resp) 0) as [[written err] rest].
Qed.

(** The five statements a worker runs for a received item, taken on
    their own, can only be: read the clock, call [GetObject], read the
    clock again, send the difference of the two readings (in seconds),
    and drain the body. *)
Lemma wrun_one_item f ins pc' fxs :
  wrun (WNow f) ins = Some (pc', fxs) ->
  length ins = 5%nat ->
  exists t0 resp t1 written err rest,
    ins = [InTime t0; InResp (Some resp); InTime t1; InNone; InNone] /\
    pc' = WRange /\
    fxs = [FxNow t0; FxGetObject f true; FxSince t1;
           FxSend (Seconds (Sub t1 t0)); FxCopy written err] /\
    io_Copy_Discard (Body resp) 0 = (written, err, rest) /\
    (ReadErr ∉ Body resp ->
     written = body_bytes (Body resp) /\ err = false /\ rest = []).
Proof.
  intros H Hlen.
  destruct ins as [|i1 [|i2 [|i3 [|i4 [|i5 [|]]]]]]; try done.
  destruct i1 as [| |t0| |]; try done.
  destruct i2 as [| | |[resp|]|]; try done.
  destruct i3 as [| |t1| |]; try done.
  destruct i4; try done. destruct i5; try done.
  rewrite wrun_item in H. simplify_eq.
  destruct (io_Copy_Discard (Body resp) 0) as [[written err] rest] eqn:E.
  exists t0, resp, t1, written, err, rest.
  split; [done|]. split; [done|]. split; [done|]. split; [done|].
  intros Hno. rewrite io_Copy_Discard_ok in E by done. by simplify_eq.
Qed.

Lemma exec_app sched1 sched2 (s s1 : state) :
  exec sched1 s = Some s1 -> exec (sched1 ++ sched2) s = exec sched2 s1.
Proof.
  revert s. induction sched1 as [|a sched1 IH]; intros s H; cbn in *.
  - by simplify_eq.
  - destruct (step a s); [by apply IH | done].
Qed.

Lemma exec_cons a sched (s : state) :
  exec (a :: sched) s
  = match step a s with Some s' => exec sched s' | None => None end.
Proof. done. Qed.

Lemma exec_spawn cfg cs fd t k : forall i,
  (Z.of_nat (i + k) <= Goroutines cfg)%Z ->
  exec (replicate k (ACoord InNone))
       (at_work cfg cs fd false [] (replicate i WRange) (Z.of_nat i)
                (CSpawn (Z.of_nat i) t) [])
  = Some (at_work cfg cs fd false [] (replicate (i + k) WRange)
                  (Z.of_nat (i + k)) (CSpawn (Z.of_nat (i + k)) t) []).
Proof.
  induction k as [|k IH]; intros i Hle.
  - by rewrite Nat.add_0_r.
  - assert (step (ACoord InNone)
              (at_work cfg cs fd false [] (replicate i WRange) (Z.of_nat i)
                       (CSpawn (Z.of_nat i) t) [])
            = Some (at_work cfg cs fd false [] (replicate (S i) WRange)
                            (Z.of_nat (S i)) (CSpawn (Z.of_nat (S i)) t) []))
      as Hs.
    { cbn. destruct (Z.ltb_spec (Z.of_nat i) (Goroutines cfg)); [|lia].
      unfold set_coord, at_work. cbn. rewrite <- replicate_S_end.
      by replace (Z.of_nat i + 1)%Z with (Z.of_nat (S i)) by lia. }
    change (replicate (S k) ?a) with (a :: replicate k a).
    rewrite exec_cons, Hs, (IH (S i)) by lia.
    by replace (S i + k)%nat with (i + S k)%nat by lia.
Qed.

Lemma exec_item cfg cs f fd dg ws n t0 t resp tr :
  exists tr',
    exec (sched_item t resp)
         (at_work cfg (S cs) (f :: fd) false dg (WRange :: ws) n (CWait t0) tr)
    = Some (at_work cfg (S cs) fd false (dg ++ [Seconds (Sub t t)])
                    (WRange :: ws) n (CWait t0) tr').
Proof.
  unfold sched_item. rewrite !exec_cons.
  cbn. unfold step_feeder, step_worker, step_collector. cbn.
  destruct (decide (0 < S cs)%nat); [|lia]. cbn.
  destruct (decide (0 < S cs)%nat); [|lia]. cbn.
  destruct (io_Copy_Discard (Body resp) 0) as [[written err] rest] eqn:E.
  cbn. by eexists.
Qed.
Lemma exec_items cfg cs ws n t0 t : forall resps fd dg tr,
  length resps = length fd ->
  exists dg' tr',
    exec (concat (sched_item t <$> resps))
         (at_work cfg (S cs) fd false dg (WRange :: ws) n (CWait t0) tr)
    = Some (at_work cfg (S cs) [] false dg' (WRange :: ws) n (CWait t0) tr')
    /\ length dg' = (length dg + length fd)%nat.
Proof.
  induction resps as [|resp resps IH]; intros fd dg tr Hlen.
  - destruct fd; [|done]. exists dg, tr. split; [done | cbn; lia].
  - destruct fd as [|f fd]; [done|]. cbn [fmap list_fmap concat].
    destruct (exec_item cfg cs f fd dg ws n t0 t resp tr) as (tr1 & H1).
    rewrite (exec_app _ _ _ _ H1).
    destruct (IH fd (dg ++ [Seconds (Sub t t)]) tr1) as (dg' & tr' & H2 & Hl).
    { cbn in Hlen. lia. }
    exists dg', tr'. split; [done|]. rewrite Hl, length_app. cbn. lia.
Qed.

Lemma exec_exits cfg cs dg pc k : forall j tr,
  exists tr',
    exec ((fun w => AWorker w InNone) <$> seq j k)
         (at_work cfg cs [] true dg
                  (replicate j WExit ++ replicate k WRange)
                  (Z.of_nat k) pc tr)
    = Some (at_work cfg cs [] true dg (replicate (j + k) WExit) 0 pc tr').
Proof.
  induction k as [|k IH]; intros j tr.
  - exists tr. cbn. by rewrite app_nil_r, Nat.add_0_r.
  - cbn [seq fmap list_fmap]. rewrite exec_cons.
    assert (step (AWorker j InNone)
              (at_work cfg cs [] true dg
                       (replicate j WExit ++ replicate (S k) WRange)
                       (Z.of_nat (S k)) pc tr)
            = Some (at_work cfg cs [] true dg
                            (replicate (S j) WExit ++ replicate k WRange)
                            (Z.of_nat k) pc (EvWorker j FxDone :: tr)))
      as ->.
    { cbn. unfold step_worker. cbn.
      rewrite lookup_app_r by (rewrite length_replicate; lia).
      rewrite length_replicate, Nat.sub_diag. cbn.
      unfold set_worker, at_work. cbn. do 2 f_equal.
      - rewrite insert_app_r_alt by (rewrite length_replicate; lia).
        rewrite length_replicate, Nat.sub_diag. cbn.
        by rewrite app_comm_cons, replicate_cons_app, <- app_assoc.
      - lia. }
    destruct (IH (S j) (EvWorker j FxDone :: tr)) as (tr' & ->).
    exists tr'. by replace (S j + k)%nat with (j + S k)%nat by lia.
Qed.

(** With at least one worker and an encoder that succeeds, a run can
    always be carried to its end, whatever the bodies of the responses
    are: it prints one Datapoint and returns. *)
Lemma run_can_complete cfg dl t resps :
  (1 <= Goroutines cfg)%Z ->
  length resps = length dl ->
  (forall dp, is_Some (Marshal dp)) ->
  exists s jb,
    exec (sched_run (Z.to_nat (Goroutines cfg)) t resps) (init cfg dl)
    = Some s /\
    status s = Returned /\
    stdout s = [jb] /\
    length (td s) = length dl.
Proof.
  intros HN Hlen HM. set (n := Z.to_nat (Goroutines cfg)).
  assert (exists cs, chanSize (init cfg dl : state) = S cs) as [cs Hcs].
  { cbn. destruct (Goroutines cfg >? 1024)%Z; [by exists 1023%nat|].
    exists (Z.to_nat (Goroutines cfg - 1)). lia. }
  unfold sched_run. rewrite exec_cons.
  assert (step (ACoord (InTime t)) (init cfg dl)
          = Some (at_work cfg (S cs) dl false [] (replicate 0 WRange)
                          (Z.of_nat 0) (CSpawn (Z.of_nat 0) t) [])) as ->.
  { cbn in Hcs. cbn. unfold set_coord, at_work. cbn. by rewrite Hcs. }
  rewrite replicate_S_end, <- !app_assoc.
  rewrite (exec_app _ _ _ _ (exec_spawn cfg (S cs) dl t n 0 ltac:(lia))).
  cbn [app]. rewrite exec_cons.
  assert (step (ACoord InNone)
            (at_work cfg (S cs) dl false [] (replicate (0 + n) WRange)
                     (Z.of_nat (0 + n)) (CSpawn (Z.of_nat (0 + n)) t) [])
          = Some (at_work cfg (S cs) dl false []
                          (WRange :: replicate (n - 1) WRange)
                          (Z.of_nat n) (CWait t) [])) as ->.
  { cbn. destruct (Z.ltb_spec (Z.of_nat n) (Goroutines cfg)); [lia|].
    unfold set_coord, at_work. cbn. do 2 f_equal.
    by replace n with (S (n - 1)) at 1 by lia. }
  destruct (exec_items cfg cs (replicate (n - 1) WRange) (Z.of_nat n) t t
              resps dl [] [] Hlen) as (dg & tr & H1 & Hdg).
  rewrite (exec_app _ _ _ _ H1). cbn [app]. rewrite exec_cons.
  assert (step AFeeder
            (at_work cfg (S cs) [] false dg
                     (WRange :: replicate (n - 1) WRange)
                     (Z.of_nat n) (CWait t) tr)
          = Some (at_work cfg (S cs) [] true dg
                          (replicate 0 WExit ++ replicate n WRange)
                          (Z.of_nat n) (CWait t) tr)) as ->.
  { cbn. unfold set_feeder, at_work. cbn. do 2 f_equal.
    by replace n with (S (n - 1)) at 2 by lia. }
  destruct (exec_exits cfg (S cs) dg (CWait t) n 0 tr) as (tr' & H2).
  rewrite (exec_app _ _ _ _ H2).
  rewrite !exec_cons. cbn. unfold step_collector. cbn.
  destruct (HM (mkDatapoint Quantile float64 fdiv cfg (Seconds (Sub t t)) dg))
    as [jb Hjb].
  rewrite Hjb. cbn. eexists _, jb. split; [done|]. cbn.
  repeat split. rewrite Hdg. cbn. lia.
Qed.

(** C10: once [GetObject] has returned a response the worker cannot
    abort the run any more. The outcome of [io.Copy] is dropped: the
    step changes nothing but the worker's own position, back at the head
    of its loop; that step is reached only through the send of the
    sample; a worker's statement stops the process only when [GetObject]
    returns an error; and whatever the bodies of the responses are, the
    run can be carried to its end, where it prints its Datapoint. *)
Theorem body_error_ignored cfg dl (s : state) :
  reachable cfg dl s ->
  (forall w resp,
      status s = Running ->
      workers s !! w = Some (WCopy resp) ->
      exists written err,
        step (AWorker w InNone) s
        = Some (set_worker s (work s) (latency s)
                  (<[w := WRange]> (workers s)) (wg s) Running
                  (EvWorker w (FxCopy written err) :: trace s))) /\
  (forall pc i resp fx,
      wstep pc i = Some (WNext (WCopy resp) fx) ->
      exists v, pc = WSend v resp /\ fx = FxSend v) /\
  (forall w e s',
      step (AWorker w e) s = Some s' ->
      status s' = Running \/
      exists f start,
        workers s !! w = Some (WGet f start) /\ e = InResp None /\
        status s' = Aborted (FatalDownload f)) /\
  (forall t resps,
      (1 <= Goroutines cfg)%Z ->
      length resps = length dl ->
      (forall dp, is_Some (Marshal dp)) ->
      exists s_end jb,
        exec (sched_run (Z.to_nat (Goroutines cfg)) t resps) (init cfg dl)
        = Some s_end /\
        status s_end = Returned /\
        stdout s_end = [jb] /\
        length (td s_end) = length dl).
Proof.
  intros Hreach. split; [|split; [|split]].
  - intros w resp Hrun Hw. unfold step, step_worker. rewrite Hrun, Hw. cbn.
    destruct (io_Copy_Discard (Body resp) 0) as [[written err] rest].
    by exists written, err.
  - intros pc i resp fx H. destruct pc, i as [| | |[r|]|]; simplify_eq/=.
    + by eexists.
    + by destruct (io_Copy_Discard (Body resp0) 0) as [[written err] rest].
  - intros w e s' Hs.
    pose proof (reachable_inv _ _ _ (reachable_step _ _ _ _ _ Hreach Hs))
      as [I_cfg I_recv I_sent I_inflight I_closed_feed I_wg I_exit I_spawn
          I_latency_closed I_done I_drained I_quantile I_order
          I_close_logged I_stdout I_nocrash].
    unfold step, step_worker in Hs.
    destruct (status s); try done.
    destruct (workers s !! w) as [pc|] eqn:Hw; [|done].
    destruct pc; cbn in Hs.
    + destruct (work s); [destruct (work_closed s)|];
        simplify_eq/=; by left.
    + destruct e; simplify_eq/=; by left.
    + destruct e as [| | |[r|]|]; simplify_eq/=; [by left|].
      right. by eexists _, _.
    + destruct e; simplify_eq/=; by left.
    + destruct e; simplify_eq/=.
      destruct (latency_closed s).
      * simplify_eq. cbn in *. by destruct (I_nocrash PanicSendOnClosed).
      * case_decide; simplify_eq/=; by left.
    + destruct e; simplify_eq/=.
      destruct (io_Copy_Discard (Body resp) 0) as [[written err] rest].
      simplify_eq/=. by left.
    + by destruct e.
  - intros t resps. apply run_can_complete.
Qed.
End PipelineFacts.

(** ** The downloader: the sample is sent before the body is read *)

Section WorkerLogFacts.
Context {Time Duration float : Type}.
Context (Sub : Time -> Time -> Duration) (Seconds : Duration -> float).
Context (Quantile : list float -> Q -> float).
Context (float64 : Z -> float) (fdiv : float -> float -> float).
Context (Marshal : Datapoint float -> option string).

Local Abbreviation state := (@state Time float).
Local Abbreviation wpc := (@wpc Time float).
Local Abbreviation step := (step Sub Seconds Quantile float64 fdiv Marshal).
Local Abbreviation exec := (exec Sub Seconds Quantile float64 fdiv Marshal).
Local Abbreviation reachable :=
  (reachable Sub Seconds Quantile float64 fdiv Marshal).
Local Abbreviation inv_wlog := (inv_wlog Sub Seconds).
Local Abbreviation wlog_at := (wlog_at Sub Seconds).

Lemma inv_wlog_init cfg dl : inv_wlog (init cfg dl : state).
Proof. intros _ w pc H. by destruct w. Qed.

Lemma wlog_worker w w' fx (tr : list (@event Time float)) :
  wlog w (EvWorker w' fx :: tr)
  = if decide (w' = w) then fx :: wlog w tr else wlog w tr.
Proof. done. Qed.

Lemma step_worker_wlog w e (s s' : state) :
  inv_wlog s -> status s = Running ->
  step_worker Sub Seconds w e s = Some s' -> inv_wlog s'.
Proof.
  intros Hinv Hrun H Hrun' w1 pc1 Hw1. specialize (Hinv Hrun).
  unfold step_worker in H.
  destruct (workers s !! w) as [pc|] eqn:Hw; [|done].
  pose proof (Hinv w pc Hw) as Hlog.
  assert (forall pc' fx wk lat n,
             s' = set_worker s wk lat (<[w := pc']> (workers s)) n Running
                    (EvWorker w fx :: trace s) ->
             wlog_at pc' (fx :: wlog w (trace s)) ->
             wlog_at pc1 (wlog w1 (trace s'))) as Hnext.
  { intros pc' fx wk lat n -> Hpc'. unfold set_worker in Hw1 |- *.
    cbn [workers trace] in Hw1 |- *. rewrite wlog_worker.
    destruct (decide (w = w1)) as [->|Hne].
    - rewrite list_lookup_insert_eq in Hw1 by (by eapply lookup_lt_Some).
      by simplify_eq.
    - rewrite list_lookup_insert_ne in Hw1 by done. by apply Hinv. }
  destruct pc; cbn in H.
  - destruct (work s) as [|f wk]; [destruct (work_closed s); [|done]|];
      cbn in H; simplify_eq.
    + by eapply (Hnext WExit FxDone).
    + eapply (Hnext (WNow f) (FxRecv f)); [done|]. by eexists.
  - destruct e; try done. cbn in H. simplify_eq.
    destruct Hlog as [older Hlog].
    eapply (Hnext (WGet f t) (FxNow t)); [done|]. rewrite Hlog. by eexists.
  - destruct e as [| | |[resp|]|]; try done; cbn in H; simplify_eq;
      try done.
    destruct Hlog as [older Hlog].
    eapply (Hnext (WSince f start resp) (FxGetObject f true)); [done|].
    rewrite Hlog. by eexists.
  - destruct e; try done. cbn in H. simplify_eq.
    destruct Hlog as [older Hlog].
    eapply (Hnext (WSend (Seconds (Sub t start)) resp) (FxSince t)); [done|].
    rewrite Hlog. by eexists f, start, t, _.
  - destruct e; try done. cbn in H.
    destruct (latency_closed s); [by simplify_eq|].
    case_decide; [|done]. simplify_eq.
    destruct Hlog as (f & t0 & t1 & older & -> & Hlog).
    eapply (Hnext (WCopy resp) (FxSend (Seconds (Sub t1 t0)))); [done|].
    rewrite Hlog. by eexists f, t0, t1, _.
  - destruct e; try done. cbn in H.
    destruct (io_Copy_Discard (Body resp) 0) as [[written err] rest].
    simplify_eq. by eapply (Hnext WRange (FxCopy written err)).
  - by destruct e.
Qed.

Lemma step_inv_wlog a (s s' : state) :
  inv_wlog s -> step a s = Some s' -> inv_wlog s'.
Proof.
  intros Hinv H. unfold step in H.
  destruct (status s) eqn:Hrun; try done.
  destruct a as [| |e|w e].
  - unfold step_feeder in H. destruct (work_closed s); [done|].
    destruct (feed s); [|case_decide; [|done]]; simplify_eq;
      intros _; by apply Hinv.
  - unfold step_collector in H. destruct (latencyDone s); [done|].
    destruct (latency s); [destruct (latency_closed s); [|done]|];
      simplify_eq; intros _; by apply Hinv.
  - intros Hrun' w pc Hw. specialize (Hinv Hrun).
    unfold step_coord in H.
    destruct (coord s) as [|i t0|t0|t0|el|el|el|dp|]; [..|done];
      destruct e; try done.
    + simplify_eq. by apply Hinv.
    + destruct (i <? Goroutines (st_cfg s))%Z; simplify_eq; cbn in *;
        [|by apply Hinv].
      destruct (decide (w < length (workers s))%nat).
      * rewrite lookup_app_l in Hw by done. by apply Hinv.
      * rewrite lookup_app_r in Hw by lia.
        destruct (w - length (workers s))%nat; by simplify_eq/=.
    + destruct (wg s =? 0)%Z; simplify_eq. by apply Hinv.
    + simplify_eq. by apply Hinv.
    + simplify_eq. by apply Hinv.
    + destruct (latencyDone s); simplify_eq. by apply Hinv.
    + simplify_eq. by apply Hinv.
    + destruct (Marshal dp); simplify_eq; cbn in *; done.
  - by eapply step_worker_wlog.
Qed.

Lemma exec_inv_wlog sched : forall s s' : state,
  inv_wlog s -> exec sched s = Some s' -> inv_wlog s'.
Proof.
  induction sched as [|a sched IH]; intros s s' Hinv H; cbn in H.
  - by simplify_eq.
  - destruct (step a s) as [s1|] eqn:Hs; [|done].
    eapply IH; [|done]. by eapply step_inv_wlog.
Qed.

Lemma wlog_sent w v (tr : list (@event Time float)) :
  FxSend v ∈ wlog w tr -> v ∈ sent_log tr.
Proof.
  induction tr as [|e tr IH]; cbn; [by intros ?%elem_of_nil|].
  destruct e as [w' fx| | | |]; try done.
  case_decide.
  - intros [<-|Hin]%elem_of_cons.
    + set_solver.
    + destruct fx; try (by apply IH). set_solver.
  - intros Hin. destruct fx; try (by apply IH). set_solver.
Qed.

Lemma io_Copy_Discard_err body : forall written,
  ReadErr ∈ body ->
  exists pre rest,
    body = pre ++ ReadErr :: rest /\ (ReadErr ∉ pre) /\
    io_Copy_Discard body written
    = ((written + body_bytes pre)%Z, true, rest).
Proof.
  induction body as [|r body IH]; intros written Hin;
    [by apply elem_of_nil in Hin|].
  destruct r as [n|].
  - apply elem_of_cons in Hin as [|Hin]; [done|].
    destruct (IH (written + n)%Z Hin) as (pre & rest & Hb & Hpre & E).
    exists (ReadData n :: pre), rest. cbn. rewrite E, Hb.
    split; [done|]. split.
    + by apply not_elem_of_cons.
    + fold (body_bytes pre). do 2 f_equal. lia.
  - exists [], body. cbn. split; [done|]. split.
    + apply not_elem_of_nil.
    + by rewrite Z.add_0_r.
Qed.

(** C9, as the code has it: a worker that stands before [io.Copy] has
    run, for the item in its hands, [time.Now()], [GetObject],
    [time.Since(start).Seconds()] and the send, in this order; what it
    sent is the difference of the two clock readings in seconds, and
    that sample is in [latency] or already in the digest. Only now is
    the body read: to its end when no read fails, and up to the first
    failing read otherwise, the rest being left unread. *)
Theorem downloader_sample_before_body cfg dl (s : state) w resp :
  reachable cfg dl s ->
  status s = Running ->
  workers s !! w = Some (WCopy resp) ->
  exists f t0 t1 older written err rest,
    wlog w (trace s)
    = FxSend (Seconds (Sub t1 t0)) :: FxSince t1 :: FxGetObject f true
        :: FxNow t0 :: FxRecv f :: older /\
    Seconds (Sub t1 t0) ∈ td s ++ latency s /\
    io_Copy_Discard (Body resp) 0 = (written, err, rest) /\
    step (AWorker w InNone) s
    = Some (set_worker s (work s) (latency s)
              (<[w := WRange]> (workers s)) (wg s) Running
              (EvWorker w (FxCopy written err) :: trace s)) /\
    (ReadErr ∉ Body resp ->
     written = body_bytes (Body resp) /\ err = false /\ rest = []) /\
    (ReadErr ∈ Body resp ->
     err = true /\
     exists pre, Body resp = pre ++ ReadErr :: rest /\ (ReadErr ∉ pre) /\
                 written = body_bytes pre).
Proof.
  intros Hreach Hrun Hw.
  pose proof (reachable_inv _ _ _ _ _ _ _ _ _ Hreach) as Hinv.
  destruct Hreach as [sched Hex].
  pose proof (exec_inv_wlog sched _ _ (inv_wlog_init cfg dl) Hex Hrun w _ Hw)
    as (f & t0 & t1 & older & Hlog).
  destruct (io_Copy_Discard (Body resp) 0) as [[written err] rest] eqn:E.
  exists f, t0, t1, older, written, err, rest.
  split; [done|]. split.
  { rewrite <- (inv_sent _ _ _ Hinv). apply (wlog_sent w).
    rewrite Hlog. apply list_elem_of_here. }
  split; [done|]. split.
  { unfold step, step_worker. rewrite Hrun, Hw. cbn. by rewrite E. }
  split.
  - intros Hno. rewrite io_Copy_Discard_ok in E by done. by simplify_eq.
  - intros Hin.
    destruct (io_Copy_Discard_err _ 0%Z Hin) as (pre & rest' & Hb & Hpre & E').
    rewrite E in E'. simplify_eq. split; [done|]. by exists pre.
Qed.
End WorkerLogFacts.

(** ** The theorems at concrete inputs *)

Section Concrete.
Import Demo.

Local Abbreviation libs f :=
  (f Stub.Sub Stub.Seconds Stub.Quantile Stub.float64 Stub.fdiv
     Stub.Marshal).

Lemma reachable_state_at cfg sched s :
  Stub.exec sched (Stub.init cfg downloadList) = Some s ->
  Stub.reachable cfg downloadList s.
Proof. intros H. by exists sched. Defined.

(** C1 fails as stated: [--download 0 --goroutines 0] passes
    [parseFlags], zero is a multiple of the object size and keys are
    found, yet [buildDownloadList] returns no list: it stops at its
    "zero files needed" check. *)
Lemma buildDownloadList_zero_volume :
  parseFlags flags_zero = Ret cfg_zero /\
  GoInt.rem (DownloadSizeBytes cfg_zero)
            (Size (fileSets_index (FileSetName cfg_zero))) = 0%Z /\
  list_pages (pages world_two) 0 [] = Ret [key_a; key_b] /\
  buildDownloadList cfg_zero world_two = Fatal FatalZeroFiles /\
  ~ exists out,
      buildDownloadList cfg_zero world_two = Ret (GoOk out) /\
      Z.of_nat (length out)
      = (DownloadSizeBytes cfg_zero
         / Size (fileSets_index (FileSetName cfg_zero)))%Z.
Proof.
  assert (buildDownloadList cfg_zero world_two = Fatal FatalZeroFiles)
    as H by (vm_compute; reflexivity).
  repeat split; try (vm_compute; reflexivity).
  intros (out & Hout & _). rewrite H in Hout. discriminate Hout.
Qed.

Lemma buildDownloadList_length_witness :
  ((0 < DownloadSizeBytes cfg_five)%Z ->
   (DownloadSizeBytes cfg_five / KiB <= maxSliceCap)%Z ->
   exists out,
     buildDownloadList cfg_five world_two = Ret (GoOk out) /\
     Z.of_nat (length out) = (DownloadSizeBytes cfg_five / KiB)%Z) /\
  (DownloadSizeBytes cfg_five = 0%Z ->
   buildDownloadList cfg_five world_two = Fatal FatalZeroFiles) /\
  ((maxSliceCap < DownloadSizeBytes cfg_five / KiB)%Z ->
   buildDownloadList cfg_five world_two = Panic PanicMakeSliceCap).
Proof.
  apply (buildDownloadList_length cfg_five world_two {| Size := KiB |}
           [key_a; key_b]).
  - vm_compute; reflexivity.
  - vm_compute. split; discriminate.
  - vm_compute; discriminate.
  - reflexivity.
  - reflexivity.
  - discriminate.
Defined.

Lemma buildDownloadList_cycles_witness :
  (forall p, p ≡ₚ [key_a; key_b] ->
             exists draws,
               listS3Files cfg_five
                 {| config_ok := config_ok world_swapped;
                    pages := pages world_swapped; rnd := draws |}
               = Ret (GoOk p)) /\
  exists shuffled,
    Shuffle (rnd world_swapped) 2 [key_a; key_b] = Some shuffled /\
    shuffled ≡ₚ [key_a; key_b] /\
    ((2 <= 2)%nat ->
     shuffled !! (2 - 1)%nat
     = [key_a; key_b] !! (rnd world_swapped (2 - 1)%nat mod 2)%nat) /\
    listS3Files cfg_five world_swapped = Ret (GoOk shuffled) /\
    ((0 < numFilesNeeded cfg_five <= maxSliceCap)%Z ->
     exists out, buildDownloadList cfg_five world_swapped = Ret (GoOk out)) /\
    (forall out,
        buildDownloadList cfg_five world_swapped = Ret (GoOk out) ->
        length out = Z.to_nat (numFilesNeeded cfg_five) /\
        (forall i, (i < Z.to_nat (numFilesNeeded cfg_five))%nat ->
                   out !! i = shuffled !! (i mod 2)%nat) /\
        (forall k, k ∈ [key_a; key_b] ->
                   (Z.to_nat (numFilesNeeded cfg_five) / 2
                    <= occurrences k out)%nat)).
Proof.
  apply (buildDownloadList_cycles cfg_five world_swapped [key_a; key_b]).
  - reflexivity.
  - discriminate.
Defined.

(** With those draws the two keys change places, and the work list
    cycles the new order. *)
Example swapped_listing_cycled :
  listS3Files cfg_five world_swapped = Ret (GoOk [key_b; key_a]) /\
  buildDownloadList cfg_five world_swapped
  = Ret (GoOk [key_b; key_a; key_b; key_a; key_b]).
Proof. split; vm_compute; reflexivity. Qed.

(** C3 fails with no workers: [--goroutines 0] passes [parseFlags];
    the feeder never gets rid of an item, [wg.Wait()] returns at once,
    [latency] is closed, and the collector finishes with an empty
    digest although the work list holds two items. *)
Theorem zero_goroutines_collects_nothing :
  parseFlags flags_idle = Ret cfg_idle /\
  Stub.run_setup cfg_idle world_two
  = Ret (Stub.init cfg_idle downloadList) /\
  exists s,
    Stub.exec sched_idle (Stub.init cfg_idle downloadList) = Some s /\
    status s = Running /\
    latency_closed s = true /\
    latencyDone s = true /\
    td s = [] /\
    recv_log (trace s) = [] /\
    feed s = downloadList /\
    length downloadList = 2%nat.
Proof.
  split; [vm_compute; reflexivity|]. split; [vm_compute; reflexivity|].
  eexists. split; [vm_compute; reflexivity|]. by cbn.
Qed.

Lemma collector_ingests_all_witness :
  recv_log (trace (state_at cfg_one sched_full)) = downloadList /\
  td (state_at cfg_one sched_full)
  = sent_log (trace (state_at cfg_one sched_full)) /\
  length (td (state_at cfg_one sched_full)) = length downloadList.
Proof.
  apply (libs collector_ingests_all cfg_one downloadList).
  - apply (reachable_state_at _ sched_full). vm_compute; reflexivity.
  - vm_compute; discriminate.
  - vm_compute; reflexivity.
Defined.

Lemma quantiles_read_after_ingestion_witness :
  (forall i j e q,
      trace (state_at cfg_one sched_full) !! i = Some e ->
      before_quantile e = true ->
      trace (state_at cfg_one sched_full) !! j = Some (EvQuantile q) ->
      (j < i)%nat) /\
  (forall j q,
      trace (state_at cfg_one sched_full) !! j = Some (EvQuantile q) ->
      EvCloseLatency ∈ trace (state_at cfg_one sched_full) /\
      sum_list_with active (workers (state_at cfg_one sched_full)) = 0%nat /\
      latencyDone (state_at cfg_one sched_full) = true /\
      latency (state_at cfg_one sched_full) = [] /\
      td (state_at cfg_one sched_full)
      = sent_log (trace (state_at cfg_one sched_full))).
Proof.
  apply (libs quantiles_read_after_ingestion cfg_one downloadList).
  apply (reachable_state_at _ sched_full). vm_compute; reflexivity.
Defined.

(** The first item has been downloaded and its sample added to the
    digest when [GetObject] fails for the second. *)
Lemma download_error_aborts_witness :
  td (state_at cfg_one sched_second) = [40%Z] /\
  exists s',
    Stub.step (AWorker 0 (InResp None)) (state_at cfg_one sched_second)
    = Some s' /\
    status s' = Aborted (FatalDownload key_b) /\
    classify (FatalDownload key_b) = DownloadError /\
    status_exit_code (status s') = Some 1%Z /\
    td s' = td (state_at cfg_one sched_second) /\
    stdout s' = [] /\
    (forall sched s'', Stub.exec sched s' = Some s'' -> s'' = s').
Proof.
  split; [vm_compute; reflexivity|].
  apply (libs download_error_aborts cfg_one downloadList
           (state_at cfg_one sched_second) 0%nat key_b 160%Z).
  - apply (reachable_state_at _ sched_second). vm_compute; reflexivity.
  - vm_compute; reflexivity.
  - vm_compute; reflexivity.
Defined.

(** C6 fails where the flag does not fit an [int]:
    [--goroutines 9223372036854775808] is far above the 256 files
    needed, but its conversion to [int] is negative, the comparison lets it
    through, and [run] only stops, after the listing, when it makes the
    channels. *)
Theorem parseFlags_accepts_wrapped_goroutines :
  flags_wf flags_wrapped /\
  exists cfg,
    parseFlags flags_wrapped = Ret cfg /\
    numFilesNeeded cfg = 256%Z /\
    (flag_goroutines flags_wrapped > numFilesNeeded cfg)%Z /\
    Goroutines cfg = GoInt.MinInt /\
    buildDownloadList cfg world_two
    = Ret (GoOk (concat (replicate 128 [key_a; key_b]))) /\
    Stub.run_setup cfg world_two = Panic PanicMakeChanSize.
Proof.
  split.
  - unfold flags_wf, GoInt.is_uint. vm_compute. intuition discriminate.
  - eexists. split; [vm_compute; reflexivity|].
    repeat split; vm_compute; reflexivity.
Qed.

Lemma empty_dataset_aborts_witness :
  buildDownloadList cfg_one world_empty = Ret (GoErr no_files_msg) /\
  Stub.run cfg_one world_empty sched_full
  = Some (Aborted (FatalBuildFileList no_files_msg), []) /\
  classify (FatalBuildFileList no_files_msg) = EmptyDatasetError /\
  (forall k, classify (FatalGetPage k)
             <> classify (FatalBuildFileList no_files_msg)) /\
  status_exit_code (Aborted (FatalBuildFileList no_files_msg)) = Some 1%Z.
Proof.
  apply (libs empty_dataset_aborts cfg_one world_empty sched_full);
    reflexivity.
Defined.

Lemma listing_error_aborts_witness :
  exists k,
    buildDownloadList cfg_one world_broken = Fatal (FatalGetPage k) /\
    Stub.run cfg_one world_broken sched_full
    = Some (Aborted (FatalGetPage k), []) /\
    classify (FatalGetPage k) = DiscoveryError /\
    status_exit_code (Aborted (FatalGetPage k)) = Some 1%Z.
Proof.
  apply (libs listing_error_aborts cfg_one world_broken sched_full).
  - reflexivity.
  - apply list_elem_of_further, list_elem_of_here.
Defined.

(** C9 fails as stated where a read of the body fails: the worker has
    sent its sample and stands before [io.Copy] on a body whose second
    read fails; [io.Copy] stops there, the third part of the body is
    never read, and the worker goes on to its next item. *)
Lemma downloader_torn_body_unread :
  Stub.reachable cfg_one downloadList (state_at cfg_one sched_torn) /\
  status (state_at cfg_one sched_torn) = Running /\
  workers (state_at cfg_one sched_torn) !! 0%nat = Some (WCopy resp_torn) /\
  td (state_at cfg_one sched_torn) ++ latency (state_at cfg_one sched_torn)
  = [40%Z; 30%Z] /\
  Body resp_torn = [ReadData 524288; ReadErr; ReadData 524288] /\
  io_Copy_Discard (Body resp_torn) 0 = (524288%Z, true, [ReadData 524288]) /\
  (exists s',
      Stub.step (AWorker 0 InNone) (state_at cfg_one sched_torn) = Some s' /\
      workers s' = [WRange] /\ status s' = Running) /\
  ~ (exists written err,
        io_Copy_Discard (Body resp_torn) 0 = (written, err, [])).
Proof.
  split; [apply (reachable_state_at _ sched_torn); vm_compute; reflexivity|].
  repeat (split; [vm_compute; reflexivity|]).
  split.
  - eexists. split; [vm_compute; reflexivity|]. by split.
  - intros (written & err & H). vm_compute in H. discriminate H.
Qed.

Lemma downloader_sample_before_body_witness :
  exists f t0 t1 older written err rest,
    wlog 0 (trace (state_at cfg_one sched_torn))
    = FxSend (Stub.Seconds (Stub.Sub t1 t0)) :: FxSince t1
        :: FxGetObject f true :: FxNow t0 :: FxRecv f :: older /\
    Stub.Seconds (Stub.Sub t1 t0)
    ∈ td (state_at cfg_one sched_torn)
      ++ latency (state_at cfg_one sched_torn) /\
    io_Copy_Discard (Body resp_torn) 0 = (written, err, rest) /\
    Stub.step (AWorker 0 InNone) (state_at cfg_one sched_torn)
    = Some (set_worker (state_at cfg_one sched_torn)
              (work (state_at cfg_one sched_torn))
              (latency (state_at cfg_one sched_torn))
              (<[0%nat := WRange]> (workers (state_at cfg_one sched_torn)))
              (wg (state_at cfg_one sched_torn)) Running
              (EvWorker 0 (FxCopy written err)
                 :: trace (state_at cfg_one sched_torn))) /\
    (ReadErr ∉ Body resp_torn ->
     written = body_bytes (Body resp_torn) /\ err = false /\ rest = []) /\
    (ReadErr ∈ Body resp_torn ->
     err = true /\
     exists pre, Body resp_torn = pre ++ ReadErr :: rest /\
                 (ReadErr ∉ pre) /\ written = body_bytes pre).
Proof.
  apply (libs downloader_sample_before_body cfg_one downloadList).
  - apply (reachable_state_at _ sched_torn). vm_compute; reflexivity.
  - vm_compute; reflexivity.
  - vm_compute; reflexivity.
Defined.

(** The worker stands before [io.Copy] on a body whose second read
    fails. *)
Lemma body_error_ignored_witness :
  workers (state_at cfg_one sched_torn) = [WCopy resp_torn] /\
  io_Copy_Discard (Body resp_torn) 0 = (524288%Z, true, [ReadData 524288]) /\
  (exists written err,
      Stub.step (AWorker 0 InNone) (state_at cfg_one sched_torn)
      = Some (set_worker (state_at cfg_one sched_torn)
                (work (state_at cfg_one sched_torn))
                (latency (state_at cfg_one sched_torn))
                (<[0%nat := WRange]> (workers (state_at cfg_one sched_torn)))
                (wg (state_at cfg_one sched_torn)) Running
                (EvWorker 0 (FxCopy written err)
                   :: trace (state_at cfg_one sched_torn)))) /\
  (exists s_end jb,
      Stub.exec (sched_run 1 0%Z [resp_ok; resp_torn])
                (Stub.init cfg_one downloadList)
      = Some s_end /\
      status s_end = Returned /\
      stdout s_end = [jb] /\
      length (td s_end) = length downloadList).
Proof.
  split; [vm_compute; reflexivity|]. split; [vm_compute; reflexivity|].
  assert (Stub.reachable cfg_one downloadList (state_at cfg_one sched_torn))
    as Hreach.
  { apply (reachable_state_at _ sched_torn). vm_compute; reflexivity. }
  destruct (libs body_error_ignored cfg_one downloadList _ Hreach)
    as (Hcopy & _ & _ & Hend).
  split.
  - apply (Hcopy 0%nat resp_torn); vm_compute; reflexivity.
  - apply (Hend 0%Z [resp_ok; resp_torn]).
    + vm_compute; discriminate.
    + reflexivity.
    + intros dp. by eexists.
Defined.

(** The run with the torn body goes on to print its Datapoint. *)
Example torn_body_run_prints :
  buildDownloadList cfg_one world_two = Ret (GoOk downloadList) /\
  Stub.run cfg_one world_two sched_full
  = Some (Returned, ["M001 40 40 40"]).
Proof. split; vm_compute; reflexivity. Qed.
End Concrete.

(** ** More on parseFlags *)

Lemma wrap_congr z : exists c, GoInt.wrap z = (z + 2 ^ 64 * c)%Z.
Proof.
  unfold GoInt.wrap. exists (- ((z + 2 ^ 63) / 2 ^ 64))%Z.
  rewrite Z.mod_eq by lia. lia.
Qed.

Lemma Size_divides_word name fs :
  fileSets !! name = Some fs -> (Size fs | 2 ^ 64)%Z.
Proof.
  intros (k & Hk & ->)%fileSets_Size. exists (2 ^ (64 - k))%Z.
  rewrite <- Z.pow_add_r by lia. f_equal. lia.
Qed.

Lemma dlSize_divide name fs d :
  fileSets !! name = Some fs ->
  (Size fs | GoInt.mul (GoInt.of_uint d) MiB)%Z <-> (Size fs | d * MiB)%Z.
Proof.
  intros Hfs. destruct (Size_divides_word _ _ Hfs) as [m Hm].
  unfold GoInt.mul, GoInt.of_uint.
  destruct (wrap_congr d) as [c0 ->].
  destruct (wrap_congr ((d + 2 ^ 64 * c0) * MiB)) as [c1 ->].
  replace ((d + 2 ^ 64 * c0) * MiB + 2 ^ 64 * c1)%Z
    with (d * MiB + (c0 * MiB + c1) * m * Size fs)%Z by (rewrite Hm; lia).
  split; intros [q Hq].
  - exists (q - (c0 * MiB + c1) * m)%Z. lia.
  - exists (q + (c0 * MiB + c1) * m)%Z. lia.
Qed.

(** The divisibility check of [parseFlags] is not fooled by wrap-around:
    whatever the value of [--download], a known file set is rejected as
    "not a multiple" exactly when the requested volume in bytes is not a
    multiple of the object size. *)
Theorem parseFlags_not_multiple_iff fl :
  (exists d size, parseFlags fl = Fatal (FatalNotMultiple d size)) <->
  (exists fs, fileSets !! flag_set fl = Some fs /\
              ~ (Size fs | flag_download fl * MiB)%Z).
Proof.
  unfold parseFlags. destruct (fileSets !! flag_set fl) as [fs|] eqn:Hfs.
  - pose proof (fileSets_Size_pos _ _ Hfs) as HS.
    pose proof (dlSize_divide _ _ (flag_download fl) Hfs) as Hdiv.
    unfold GoInt.rem.
    destruct (Z.eqb_spec
                (Z.rem (GoInt.mul (GoInt.of_uint (flag_download fl)) MiB)
                       (Size fs)) 0) as [E|E]; cbn.
    + apply Z.rem_divide in E; [|lia]. split.
      * intros (d & size & H). by repeat case_match.
      * intros (fs' & [= <-] & Hn). destruct Hn. by apply Hdiv.
    + split; [|by eauto]. intros _. exists fs. split; [done|].
      intros Hd. apply E, Z.rem_divide; [lia|]. by apply Hdiv.
  - split.
    + by intros (d & size & H).
    + by intros (fs & H & _).
Qed.

(** For the file sets of at most 1 MiB every value of [--download] is a
    whole number of objects: [parseFlags] never rejects them as "not a
    multiple". *)
Theorem parseFlags_small_set_any_volume fl fs d size :
  fileSets !! flag_set fl = Some fs ->
  (Size fs <= MiB)%Z ->
  parseFlags fl <> Fatal (FatalNotMultiple d size).
Proof.
  intros Hfs Hle. unfold parseFlags. rewrite Hfs.
  pose proof (fileSets_Size_pos _ _ Hfs) as HS.
  destruct (fileSets_Size _ _ Hfs) as (k & Hk & HSk).
  assert (k <= 20)%Z.
  { destruct (decide (k <= 20)%Z); [done|].
    assert (2 ^ 21 <= 2 ^ k)%Z by (apply Z.pow_le_mono_r; lia).
    unfold MiB, KiB in Hle. lia. }
  assert (Size fs | flag_download fl * MiB)%Z as Hdiv.
  { exists (flag_download fl * 2 ^ (20 - k))%Z.
    rewrite HSk, <- Z.mul_assoc, <- Z.pow_add_r by lia.
    replace (20 - k + k)%Z with 20%Z by lia. reflexivity. }
  apply (dlSize_divide _ _ _ Hfs) in Hdiv.
  apply Z.rem_divide in Hdiv; [|lia]. unfold GoInt.rem. rewrite Hdiv.
  cbn. by repeat case_match.
Qed.

(** Whatever [parseFlags] accepts names a known file set, asks for a
    volume that is a whole number of its objects, and has no more
    workers than files to download, all as [int] values. *)
Theorem parseFlags_accepts_valid fl cfg :
  parseFlags fl = Ret cfg ->
  exists fs,
    fileSets !! FileSetName cfg = Some fs /\
    FileSetName cfg = flag_set fl /\
    EC2Instance cfg = flag_instance fl /\
    GoInt.is_int (Count cfg) /\
    GoInt.is_int (DownloadSizeBytes cfg) /\
    GoInt.is_int (Goroutines cfg) /\
    (Size fs | DownloadSizeBytes cfg)%Z /\
    (Goroutines cfg <= numFilesNeeded cfg)%Z.
Proof.
  unfold parseFlags. destruct (fileSets !! flag_set fl) as [fs|] eqn:Hfs;
    [|done].
  pose proof (fileSets_Size_pos _ _ Hfs) as HS.
  destruct (Z.eqb_spec
              (GoInt.rem (GoInt.mul (GoInt.of_uint (flag_download fl)) MiB)
                         (Size fs)) 0) as [E|E]; cbn; [|done].
  destruct (Z.gtb_spec (GoInt.of_uint (flag_goroutines fl))
              (GoInt.quo (GoInt.mul (GoInt.of_uint (flag_download fl)) MiB)
                         (Size fs))) as [|Hle]; [done|].
  intros [= <-]. exists fs. cbn.
  repeat split; try done; try apply wrap_is_int.
  - apply Z.rem_divide in E; [done | lia].
  - unfold numFilesNeeded. cbn. by rewrite (fileSets_index_Some _ _ Hfs).
Qed.

(** ** More on listS3Files and buildDownloadList *)

Lemma list_pages_cases ps : forall i files,
  (forallb page_ok ps = true /\
   list_pages ps i files = Ret (files ++ concat (page_contents <$> ps))) \/
  (exists pre rest,
      ps = pre ++ PageErr :: rest /\ forallb page_ok pre = true /\
      list_pages ps i files
      = Fatal (FatalGetPage (i + Z.of_nat (length pre) + 1))).
Proof.
  induction ps as [|p ps IH]; intros i files.
  - left. cbn. by rewrite app_nil_r.
  - destruct p as [contents|]; cbn.
    + destruct (IH (i + 1)%Z (files ++ contents))
        as [[Hok ->]|(pre & rest & -> & Hok & ->)].
      * left. by rewrite Hok, app_assoc.
      * right. exists (PageOk contents :: pre), rest. cbn.
        rewrite Hok. repeat split; try done. do 2 f_equal. lia.
    + right. exists [], ps. cbn. repeat split; try done.
      do 2 f_equal. lia.
Qed.

Lemma listS3Files_outcome cfg w :
  (exists files,
      listS3Files cfg w = Ret (GoOk files) /\
      exists keys, list_pages (pages w) 0 [] = Ret keys /\ files ≡ₚ keys) \/
  (exists i, listS3Files cfg w = Fatal (FatalGetPage i)).
Proof.
  unfold listS3Files.
  destruct (list_pages_cases (pages w) 0 [])
    as [[_ ->]|(pre & rest & _ & _ & ->)]; [|right; by eexists].
  left. cbn [bind].
  destruct (Shuffle_total (rnd w) ([] ++ concat (page_contents <$> pages w)))
    as (l & -> & Hl).
  exists l. split; [done|]. by eexists.
Qed.

(** [listS3Files] either returns a permutation of all the keys of all
    the pages, or, when a page fails, stops the process naming that page
    (the pages before it all answered, none after it is requested). It
    never returns an error value and the shuffle never indexes outside
    the slice. *)
Theorem listS3Files_cases cfg w :
  (forallb page_ok (pages w) = true /\
   exists files,
     listS3Files cfg w = Ret (GoOk files) /\
     files ≡ₚ concat (page_contents <$> pages w)) \/
  (exists pre rest,
      pages w = pre ++ PageErr :: rest /\ forallb page_ok pre = true /\
      listS3Files cfg w
      = Fatal (FatalGetPage (Z.of_nat (length pre) + 1))).
Proof.
  unfold listS3Files.
  destruct (list_pages_cases (pages w) 0 [])
    as [[Hok ->]|(pre & rest & Hps & Hok & ->)].
  - left. split; [done|]. rewrite app_nil_l. cbn [bind].
    destruct (Shuffle_total (rnd w) (concat (page_contents <$> pages w)))
      as (l & -> & Hl).
    by exists l.
  - right. by exists pre, rest.
Qed.

Lemma fill_loop_total fl n fuel :
  fl <> [] -> (0 < n)%Z -> (Z.to_nat n <= fuel)%nat ->
  exists out, fill_loop fuel fl [] n = Ret out.
Proof.
  intros Hfl Hn Hfuel.
  destruct (fill_loop_spec fl n Hfl fuel []) as (out & H & _).
  - cbn. lia.
  - cbn. destruct fl; [done|]. cbn. nia.
  - by exists out.
Qed.

(** The endless loop of [buildDownloadList] always ends:
    [numFilesNeeded] passes over the key list are enough, and giving it
    room for more passes changes nothing. *)
Theorem buildDownloadList_terminates cfg w fuel :
  buildDownloadList cfg w <> OutOfFuel /\
  ((Z.to_nat (numFilesNeeded cfg) <= fuel)%nat ->
   buildDownloadList_fuel fuel cfg w = buildDownloadList cfg w).
Proof.
  unfold buildDownloadList, buildDownloadList_fuel.
  destruct (listS3Files_outcome cfg w)
    as [(files & -> & _)|(i & ->)]; [|done].
  cbn. destruct (decide (length files = 0%nat)) as [|Hne]; [done|].
  destruct (Size (fileSets_index (FileSetName cfg)) =? 0)%Z; [done|].
  destruct (Z.eqb_spec (numFilesNeeded cfg) 0); [done|].
  destruct ((numFilesNeeded cfg <? 0)
            || (maxAlloc <? numFilesNeeded cfg * sizeof_string))%Z eqn:E;
    [done|].
  apply makeslice_cap in E.
  assert (files <> []) as Hfl by (by intros ->).
  destruct (fill_loop_total files (numFilesNeeded cfg)
              (Z.to_nat (numFilesNeeded cfg)) Hfl ltac:(lia) ltac:(lia))
    as (out & Hout).
  rewrite Hout. split; [done|]. intros Hfuel.
  by rewrite (fill_loop_fuel_mono _ _ _ fuel _ _ Hout Hfuel).
Qed.

(** [buildDownloadList] returns an error value exactly when the listing
    answered without a single key, and the error is then always the "no
    S3 files found" one. *)
Theorem buildDownloadList_error_iff cfg w err :
  buildDownloadList cfg w = Ret (GoErr err) <->
  err = no_files_msg /\
  forallb page_ok (pages w) = true /\
  concat (page_contents <$> pages w) = [].
Proof.
  unfold buildDownloadList, buildDownloadList_fuel.
  destruct (list_pages_cases (pages w) 0 [])
    as [[Hok Hlp]|(pre & rest & Hps & _ & Hlp)].
  - destruct (listS3Files_outcome cfg w)
      as [(files & -> & keys & Hkeys & Hperm)|(i & HF)];
      [|unfold listS3Files in HF; rewrite Hlp in HF; cbn in HF;
        by repeat case_match].
    rewrite Hlp, app_nil_l in Hkeys. injection Hkeys as <-.
    cbn. destruct (decide (length files = 0%nat)) as [E|Hne].
    + destruct files; [|done]. apply Permutation_nil_l in Hperm.
      split; [intros [= <-] | intros (-> & _)]; by rewrite <- ?Hperm.
    + split.
      * repeat case_match; try done.
        destruct (fill_loop _ _ _ _); by cbn.
      * intros (_ & _ & E). rewrite E in Hperm.
        apply Permutation_nil_r in Hperm. by subst files.
  - unfold listS3Files. rewrite Hlp. cbn.
    split; [done|]. intros (_ & Hok & _). rewrite Hps in Hok.
    rewrite forallb_app in Hok. cbn in Hok. by rewrite andb_false_r in Hok.
Qed.

Lemma occurrences_take k n l :
  (occurrences k (take n l) <= occurrences k l)%nat.
Proof. rewrite <- (take_drop n l) at 2. rewrite occurrences_app. lia. Qed.

Lemma cyclic_take (fl out : list string) :
  (length out <= length fl)%nat ->
  (forall i, (i < length out)%nat -> out !! i = fl !! (i mod length fl)%nat) ->
  out = take (length out) fl.
Proof.
  intros Hlen Hcyc. apply list_eq. intros i.
  destruct (decide (i < length out)%nat).
  - rewrite lookup_take_lt by lia. rewrite Hcyc by lia.
    by rewrite Nat.mod_small by lia.
  - rewrite lookup_take_ge by lia. apply lookup_ge_None. lia.
Qed.

Lemma cyclic_drop (fl out : list string) :
  (forall i, (i < length out)%nat -> out !! i = fl !! (i mod length fl)%nat) ->
  forall i, (i < length out - length fl)%nat ->
            drop (length fl) out !! i = fl !! (i mod length fl)%nat.
Proof.
  intros Hcyc i Hi.
  rewrite lookup_drop, Hcyc by lia. f_equal.
  replace (length fl + i)%nat with (i + 1 * length fl)%nat by lia.
  by rewrite Nat.Div0.mod_add.
Qed.

Lemma cyclic_occurrences_lower fl k : forall q out,
  (q * length fl <= length out)%nat ->
  (forall i, (i < length out)%nat -> out !! i = fl !! (i mod length fl)%nat) ->
  (q * occurrences k fl <= occurrences k out)%nat.
Proof.
  induction q as [|q IH]; intros out Hlen Hcyc; [lia|].
  rewrite <- (take_drop (length fl) out), occurrences_app.
  assert (take (length fl) out = fl) as ->.
  { rewrite (cyclic_take fl (take (length fl) out)).
    - rewrite length_take. replace (length fl `min` length out)%nat
        with (length fl) by lia. apply take_ge. lia.
    - rewrite length_take. lia.
    - intros i Hi. rewrite length_take in Hi.
      rewrite lookup_take_lt by lia. apply Hcyc. lia. }
  specialize (IH (drop (length fl) out)). rewrite length_drop in IH.
  pose proof (IH ltac:(lia) (cyclic_drop fl out Hcyc)). lia.
Qed.

Lemma cyclic_occurrences_upper fl k : forall q out,
  (length out <= q * length fl)%nat ->
  (forall i, (i < length out)%nat -> out !! i = fl !! (i mod length fl)%nat) ->
  (occurrences k out <= q * occurrences k fl)%nat.
Proof.
  induction q as [|q IH]; intros out Hlen Hcyc.
  - destruct out; [done | cbn in Hlen; lia].
  - destruct (decide (length out <= length fl)%nat) as [Hle|Hgt].
    + rewrite (cyclic_take fl out Hle Hcyc).
      pose proof (occurrences_take k (length out) fl). lia.
    + rewrite <- (take_drop (length fl) out), occurrences_app.
      assert (take (length fl) out = fl) as ->.
      { rewrite (cyclic_take fl (take (length fl) out)).
        - rewrite length_take. replace (length fl `min` length out)%nat
            with (length fl) by lia. apply take_ge. lia.
        - rewrite length_take. lia.
        - intros i Hi. rewrite length_take in Hi.
          rewrite lookup_take_lt by lia. apply Hcyc. lia. }
      specialize (IH (drop (length fl) out)). rewrite length_drop in IH.
      pose proof (IH ltac:(lia) (cyclic_drop fl out Hcyc)). lia.
Qed.

Lemma buildDownloadList_GoOk cfg w keys out :
  list_pages (pages w) 0 [] = Ret keys ->
  buildDownloadList cfg w = Ret (GoOk out) ->
  keys <> [] /\
  exists shuffled,
    listS3Files cfg w = Ret (GoOk shuffled) /\
    shuffled ≡ₚ keys /\
    length out = Z.to_nat (numFilesNeeded cfg) /\
    (forall i, (i < length out)%nat ->
               out !! i = shuffled !! (i mod length shuffled)%nat).
Proof.
  intros Hpages Hout.
  pose proof (buildDownloadList_returns _ _ _ Hout) as [Hpos Hcap].
  assert (keys <> []) as Hne.
  { intros ->. revert Hout.
    unfold buildDownloadList, buildDownloadList_fuel, listS3Files.
    by rewrite Hpages. }
  split; [done|].
  destruct (buildDownloadList_spec cfg w keys Hpages Hne Hpos Hcap)
    as (shuffled & out' & _ & Hperm & HL & Hb & Hlen & Hcyc).
  assert (out' = out) as -> by congruence.
  assert (length shuffled = length keys) as HM by by rewrite Hperm.
  exists shuffled. repeat split; try done.
  intros i Hi. rewrite HM. apply Hcyc. lia.
Qed.

(** The work list spreads the downloads evenly over the keys: with [n]
    files needed from [M] listed keys, a key is used between [n / M] and
    [n / M + 1] times for each time it is listed (a key that is not
    listed is never used), and exactly [n / M] times when [M] divides
    [n]. *)
Theorem buildDownloadList_balanced cfg w keys out k :
  list_pages (pages w) 0 [] = Ret keys ->
  buildDownloadList cfg w = Ret (GoOk out) ->
  (Z.to_nat (numFilesNeeded cfg) / length keys * occurrences k keys
   <= occurrences k out
   <= (Z.to_nat (numFilesNeeded cfg) / length keys + 1)
      * occurrences k keys)%nat /\
  ((Z.to_nat (numFilesNeeded cfg) mod length keys = 0)%nat ->
   occurrences k out
   = (Z.to_nat (numFilesNeeded cfg) / length keys * occurrences k keys)%nat).
Proof.
  intros Hpages Hout.
  destruct (buildDownloadList_GoOk _ _ _ _ Hpages Hout)
    as (Hne & shuffled & _ & Hperm & Hlen & Hcyc).
  assert (length shuffled = length keys) as HM by by rewrite Hperm.
  assert (0 < length keys)%nat as Hpos by (destruct keys; [done | cbn; lia]).
  rewrite <- (occurrences_Permutation k _ _ Hperm), <- HM, <- Hlen.
  pose proof (Nat.div_mod_eq (length out) (length shuffled)) as Hdm.
  pose proof (Nat.mod_upper_bound (length out) (length shuffled)
                ltac:(lia)) as Hmod.
  pose proof (cyclic_occurrences_lower shuffled k
                (length out / length shuffled) out ltac:(nia) Hcyc) as Hlo.
  split; [split; [done|]|].
  - apply cyclic_occurrences_upper; [nia | done].
  - intros Hz.
    pose proof (cyclic_occurrences_upper shuffled k
                  (length out / length shuffled) out ltac:(nia) Hcyc). lia.
Qed.

(** When no more files are needed than keys are listed, the work list is
    the front of the shuffled listing: a bucket without duplicate keys
    gives a work list without duplicates, and when exactly as many files
    are needed as keys are listed every key is downloaded exactly once. *)
Theorem buildDownloadList_no_cycling cfg w keys out :
  list_pages (pages w) 0 [] = Ret keys ->
  buildDownloadList cfg w = Ret (GoOk out) ->
  (Z.to_nat (numFilesNeeded cfg) <= length keys)%nat ->
  exists shuffled,
    listS3Files cfg w = Ret (GoOk shuffled) /\
    out = take (Z.to_nat (numFilesNeeded cfg)) shuffled /\
    (NoDup keys -> NoDup out) /\
    (Z.to_nat (numFilesNeeded cfg) = length keys -> out ≡ₚ keys).
Proof.
  intros Hpages Hout Hle.
  destruct (buildDownloadList_GoOk _ _ _ _ Hpages Hout)
    as (Hne & shuffled & HL & Hperm & Hlen & Hcyc).
  assert (length shuffled = length keys) as HM by by rewrite Hperm.
  assert (out = take (Z.to_nat (numFilesNeeded cfg)) shuffled) as Hout'.
  { rewrite <- Hlen. apply cyclic_take; [lia | done]. }
  exists shuffled. repeat split; try done.
  - intros Hnd. rewrite Hout'.
    apply (sublist_NoDup _ shuffled); [by rewrite Hperm | apply sublist_take].
  - intros Heq. rewrite Hout', Heq, <- HM, firstn_all. done.
Qed.

(** Every key of the work list is one of the keys the listing gave. *)
Theorem buildDownloadList_only_listed cfg w keys out k :
  list_pages (pages w) 0 [] = Ret keys ->
  buildDownloadList cfg w = Ret (GoOk out) ->
  k ∈ out -> k ∈ keys.
Proof.
  intros Hpages Hout Hk.
  destruct (buildDownloadList_GoOk _ _ _ _ Hpages Hout)
    as (Hne & shuffled & _ & Hperm & Hlen & Hcyc).
  apply list_elem_of_lookup_1 in Hk as [i Hi].
  rewrite Hcyc in Hi by (by eapply lookup_lt_Some).
  rewrite <- Hperm. by eapply list_elem_of_lookup_2.
Qed.

(** ** More on the pipeline of [run], and on [main] *)

Section PipelineMoreFacts.
Context {Time Duration float : Type}.
Context (Sub : Time -> Time -> Duration) (Seconds : Duration -> float).
Context (Quantile : list float -> Q -> float).
Context (float64 : Z -> float) (fdiv : float -> float -> float).
Context (Marshal : Datapoint float -> option string).

Local Abbreviation state := (@state Time float).
Local Abbreviation wpc := (@wpc Time float).
Local Abbreviation step := (step Sub Seconds Quantile float64 fdiv Marshal).
Local Abbreviation exec := (exec Sub Seconds Quantile float64 fdiv Marshal).
Local Abbreviation reachable :=
  (reachable Sub Seconds Quantile float64 fdiv Marshal).
Local Abbreviation inv_out := (inv_out Quantile float64 fdiv Marshal).

Ltac out_tac :=
  constructor; cbn in *; rewrite ?length_app; cbn;
  try done; try lia; try (by left);
  try (by intros ? [= <-]; eauto).

Lemma inv_out_init cfg dl : inv_out cfg dl (init cfg dl : state).
Proof.
  constructor; cbn; try done; try lia.
  - by left.
Qed.

Lemma step_inv_out cfg dl a (s s' : state) :
  inv cfg dl s -> inv_out cfg dl s -> step a s = Some s' ->
  inv_out cfg dl s'.
Proof.
  intros [I_cfg I_recv I_sent I_inflight I_closed_feed I_wg I_exit I_spawn
          I_latency_closed I_done I_drained I_quantile I_order
          I_close_logged I_stdout I_nocrash]
         [O_cs O_work O_lat O_ret O_marshal O_out O_abort] H.
  unfold step in H. destruct (status s) eqn:Hst; try done.
  assert (stdout s = []) as Hout.
  { destruct O_out as [[? _]|(? & ? & _ & ? & _)]; [done | congruence]. }
  assert (coord s <> CReturn) as Hnr.
  { intros E. apply O_ret in E. congruence. }
  destruct s as [c cs fd wk wc lat lc ld dg ws n pc out st tr]; cbn in *.
  subst st out.
  destruct a as [| |e|w e].
  - unfold step_feeder in H; cbn in H. destruct wc; [done|].
    destruct fd as [|f rest]; [|case_decide; [|done]];
      simplify_eq; out_tac.
  - unfold step_collector in H; cbn in H. destruct ld eqn:Hld; [done|].
    assert (drained_phase pc = false) as Hdr.
    { destruct pc; try done; by specialize (I_drained eq_refl). }
    destruct lat as [|v rest]; [destruct lc; [|done]|];
      simplify_eq; out_tac.
    intros dp ->. done.
  - unfold step_coord in H; cbn in H.
    destruct pc as [|i t0|t0|t0|el|el|el|dp|]; [..|done];
      destruct e; try done.
    + simplify_eq. out_tac.
    + destruct (i <? Goroutines c)%Z; simplify_eq; out_tac.
    + destruct (n =? 0)%Z; simplify_eq; out_tac.
    + simplify_eq. out_tac.
    + simplify_eq. out_tac.
    + destruct ld; simplify_eq; out_tac.
    + simplify_eq. out_tac.
    + destruct (O_marshal dp eq_refl) as [el ->].
      destruct (Marshal _) as [jb|] eqn:HM; simplify_eq; out_tac.
      right. by eexists el, _.
  - unfold step_worker in H; cbn in H.
    destruct (ws !! w) as [p|] eqn:Hw; [|done].
    destruct p; cbn in H.
    + destruct wk as [|f wk]; [destruct wc; [|done]|];
        cbn in H; simplify_eq; out_tac.
    + destruct e; try done. cbn in H. simplify_eq. out_tac.
    + destruct e as [| | |[resp|]|]; try done; cbn in H; simplify_eq;
        out_tac.
    + destruct e; try done. cbn in H. simplify_eq. out_tac.
    + destruct e; try done. cbn in H.
      destruct lc; [|case_decide; [|done]]; simplify_eq; out_tac.
    + destruct e; try done. cbn in H.
      destruct (io_Copy_Discard (Body resp) 0) as [[written err] rest].
      simplify_eq. out_tac.
    + by destruct e.
Qed.

Lemma exec_inv_out cfg dl sched : forall s s' : state,
  inv cfg dl s -> inv_out cfg dl s -> exec sched s = Some s' ->
  inv_out cfg dl s'.
Proof.
  induction sched as [|a sched IH]; intros s s' Hinv Hout H; cbn in H.
  - by simplify_eq.
  - destruct (step a s) as [s1|] eqn:Hs; [|done].
    eapply IH; [| |done].
    + by eapply step_inv.
    + by eapply step_inv_out.
Qed.

Lemma reachable_inv_out cfg dl (s : state) :
  reachable cfg dl s -> inv_out cfg dl s.
Proof.
  intros [sched H].
  eapply exec_inv_out; [apply inv_init | apply inv_out_init | done].
Qed.

Lemma chanSize_init cfg dl :
  (chanSize (init cfg dl : state) <= 1024)%nat /\
  (chanSize (init cfg dl : state) <= Z.to_nat (Goroutines cfg))%nat /\
  ((1 <= Goroutines cfg)%Z -> (1 <= chanSize (init cfg dl : state))%nat).
Proof. cbn. destruct (Z.gtb_spec (Goroutines cfg) 1024); repeat split; lia. Qed.

Lemma workers_bounded cfg (pc : @cpc Time float) (ws : list wpc) n :
  spawn_ok cfg pc ws n -> (length ws <= Z.to_nat (Goroutines cfg))%nat.
Proof. destruct pc; cbn; intros H; try lia. by subst ws; cbn; lia. Qed.

Lemma inflight_le_length (ws : list wpc) :
  (sum_list_with inflight ws <= length ws)%nat.
Proof. induction ws as [|p ws IH]; cbn; [done|]. destruct p; cbn; lia. Qed.

(** The two channels never hold more than their capacity, which is the
    number of goroutines and never more than 1024. *)
Theorem buffers_bounded cfg dl (s : state) :
  reachable cfg dl s ->
  (length (work s) <= chanSize s)%nat /\
  (length (latency s) <= chanSize s)%nat /\
  (chanSize s <= 1024)%nat /\
  (chanSize s <= Z.to_nat (Goroutines cfg))%nat.
Proof.
  intros [O_cs O_work O_lat _ _ _ _]%reachable_inv_out.
  destruct (chanSize_init cfg dl) as (H1 & H2 & _). rewrite <- O_cs in *.
  done.
Qed.

(** Never more workers than [cfg.Goroutines] have been started, so never
    more downloads than that are under way at the same time. *)
Theorem downloads_in_flight_bounded cfg dl (s : state) :
  reachable cfg dl s ->
  (sum_list_with inflight (workers s) <= length (workers s)
   <= Z.to_nat (Goroutines cfg))%nat.
Proof.
  intros [_ _ _ _ _ _ _ I_spawn _ _ _ _ _ _ _ _]%reachable_inv.
  split; [apply inflight_le_length | by eapply workers_bounded].
Qed.

(** The pipeline never panics: no worker sends on the closed [latency]
    channel, and the WaitGroup counter is the number of workers that
    have not returned yet, so it never goes below zero. *)
Theorem pipeline_never_panics cfg dl (s : state) :
  reachable cfg dl s ->
  (forall p, status s <> Crashed p) /\
  wg s = Z.of_nat (sum_list_with active (workers s)) /\
  (0 <= wg s)%Z.
Proof.
  intros [_ _ _ _ _ I_wg _ _ _ _ _ _ _ _ _ I_nocrash]%reachable_inv.
  repeat split; try done. lia.
Qed.

(** Both channels hand on what they are given in order and once: the
    keys received by the workers, those waiting in [work] and those the
    feeder still holds make up the download list; the samples sent are
    those in the digest followed by those waiting in [latency]. *)
Theorem pipeline_keeps_order cfg dl (s : state) :
  reachable cfg dl s ->
  recv_log (trace s) ++ work s ++ feed s = dl /\
  sent_log (trace s) = td s ++ latency s.
Proof.
  by intros [_ I_recv I_sent _ _ _ _ _ _ _ _ _ _ _ _ _]%reachable_inv.
Qed.

Lemma drained_all_ingested cfg dl (s : state) :
  inv cfg dl s ->
  latencyDone s = true ->
  td s = sent_log (trace s) /\
  ((1 <= Goroutines cfg)%Z -> length (td s) = length dl).
Proof.
  intros [I_cfg I_recv I_sent I_inflight I_closed_feed I_wg I_exit I_spawn
          I_latency_closed I_done I_drained I_quantile I_order
          I_close_logged I_stdout I_nocrash] Hdone.
  destruct (I_done Hdone) as [Hcl Hlat].
  rewrite Hlat, app_nil_r in I_sent. split; [done|]. intros HN.
  rewrite I_latency_closed in Hcl.
  assert (length (workers s) = Z.to_nat (Goroutines cfg) /\ wg s = 0%Z)
    as [Hlen Hwg] by (by destruct (coord s)).
  rewrite I_wg in Hwg.
  destruct (active_zero (workers s) ltac:(lia)) as [Hin Hex].
  destruct (lookup_lt_is_Some_2 (workers s) 0%nat ltac:(lia)) as [p Hp].
  rewrite (Hex 0%nat p Hp) in Hp.
  destruct (I_exit 0%nat Hp) as [Hwc Hwk].
  specialize (I_closed_feed Hwc).
  rewrite Hwk, I_closed_feed, !app_nil_r in I_recv.
  rewrite <- I_sent, <- I_recv. lia.
Qed.

(** A run prints nothing unless it returns, and a run that has returned
    has printed exactly one line: the encoding of the Datapoint made
    from the configuration and from the digest, which then holds
    exactly the samples the workers sent (one for every item of the
    download list when there is at least one worker). *)
Theorem printed_datapoint cfg dl (s : state) :
  reachable cfg dl s ->
  (status s <> Returned -> stdout s = []) /\
  (status s = Returned ->
   exists elapsedSec jb,
     stdout s = [jb] /\
     Marshal (mkDatapoint Quantile float64 fdiv cfg elapsedSec (td s))
     = Some jb /\
     td s = sent_log (trace s) /\
     ((1 <= Goroutines cfg)%Z -> length (td s) = length dl)).
Proof.
  intros Hreach. pose proof (reachable_inv _ _ _ _ _ _ _ _ _ Hreach) as Hinv.
  destruct (reachable_inv_out _ _ _ Hreach)
    as [_ _ _ O_ret _ O_out _].
  split.
  - intros Hn. by destruct O_out as [[? _]|(? & ? & _ & ? & _)].
  - intros Hr. destruct O_out as [[_ ?]|(el & jb & Hout & _ & HM)]; [done|].
    apply O_ret in Hr.
    assert (latencyDone s = true) as Hdone.
    { apply (inv_drained _ _ _ Hinv). by rewrite Hr. }
    destruct (drained_all_ingested _ _ _ Hinv Hdone).
    by exists el, jb.
Qed.

(** A run ends in one of three ways only: it returns, a download fails,
    or the Datapoint cannot be encoded. *)
Theorem run_endings cfg dl (s : state) :
  reachable cfg dl s ->
  status s = Running \/ status s = Returned \/
  (exists f, status s = Aborted (FatalDownload f)) \/
  status s = Aborted FatalEncodeJSON.
Proof.
  intros Hreach. pose proof (reachable_inv _ _ _ _ _ _ _ _ _ Hreach) as Hinv.
  destruct (reachable_inv_out _ _ _ Hreach) as [_ _ _ _ _ _ O_abort].
  destruct (status s) as [| |k|p] eqn:Hst; auto.
  - destruct (O_abort k eq_refl) as [[f ->]| ->]; eauto.
  - by destruct (inv_nocrash _ _ _ Hinv p).
Qed.

(** When [json.Marshal] fails the process exits with status 1 through
    [log.Fatalf] and nothing is printed. *)
Theorem encode_error_aborts cfg dl (s : state) dp :
  reachable cfg dl s ->
  status s = Running ->
  coord s = CMarshal dp ->
  Marshal dp = None ->
  exists s',
    step (ACoord InNone) s = Some s' /\
    status s' = Aborted FatalEncodeJSON /\
    status_exit_code (status s') = Some 1%Z /\
    stdout s' = [] /\
    (forall a, step a s' = None).
Proof.
  intros Hreach Hrun Hc HM.
  destruct (reachable_inv_out _ _ _ Hreach) as [_ _ _ _ _ O_out _].
  unfold step, step_coord. rewrite Hrun, Hc, HM.
  eexists. split; [done|]. cbn. repeat split.
  destruct O_out as [[? _]|(? & ? & _ & ? & _)]; [done | congruence].
Qed.

Lemma active_exists (ws : list wpc) :
  (0 < sum_list_with active ws)%nat ->
  exists w pc, ws !! w = Some pc /\ pc <> WExit.
Proof.
  induction ws as [|p ws IH]; cbn; [lia|]. intros H.
  destruct p; try (by eexists 0%nat, _).
  destruct (IH H) as (w & pc & Hw & Hpc). by exists (S w), pc.
Qed.

Lemma inv_progress (t : Time) cfg dl (s : state) :
  inv cfg dl s -> inv_out cfg dl s ->
  status s = Running ->
  exists a s', step a s = Some s'.
Proof.
  intros [I_cfg I_recv I_sent I_inflight I_closed_feed I_wg I_exit I_spawn
          I_latency_closed I_done I_drained I_quantile I_order
          I_close_logged I_stdout I_nocrash]
         [O_cs O_work O_lat O_ret O_marshal O_out O_abort] Hrun.
  assert (latencyDone s = false -> exists s', step ACollector s = Some s'
          \/ (latency s = [] /\ latency_closed s = false)) as Hcoll.
  { intros Hld. unfold step, step_collector. rewrite Hrun, Hld.
    destruct (latency s); [|by eauto].
    destruct (latency_closed s); [by eauto|]. exists s. by right. }
  destruct (coord s) as [|i t0|t0|t0|el|el|el|dp|] eqn:Hc.
  - exists (ACoord (InTime t)). unfold step, step_coord.
    rewrite Hrun, Hc. by eexists.
  - exists (ACoord InNone). unfold step, step_coord. rewrite Hrun, Hc.
    destruct (i <? Goroutines (st_cfg s))%Z; by eexists.
  - destruct (Z.eqb_spec (wg s) 0) as [Hz|Hnz].
    { exists (ACoord InNone). unfold step, step_coord.
      rewrite Hrun, Hc. apply Z.eqb_eq in Hz. rewrite Hz. by eexists. }
    destruct (active_exists (workers s) ltac:(lia)) as (w & pc & Hw & Hpc).
    assert (1 <= chanSize s)%nat as Hcs.
    { rewrite O_cs. apply chanSize_init. cbn in I_spawn.
      apply lookup_lt_Some in Hw. lia. }
    assert (latency_closed s = false) as Hlc by (by rewrite I_latency_closed).
    assert (latencyDone s = false) as Hld.
    { destruct (latencyDone s) eqn:E; [|done].
      destruct (I_done eq_refl). congruence. }
    destruct pc; try done.
    + destruct (work s) as [|f wk] eqn:Hwk.
      * destruct (work_closed s) eqn:Hwc.
        -- exists (AWorker w InNone). unfold step, step_worker.
           rewrite Hrun, Hw, Hwk, Hwc. by eexists.
        -- exists AFeeder. unfold step, step_feeder.
           rewrite Hrun, Hwc, Hwk. destruct (feed s); [by eexists|].
           cbn. case_decide; [by eexists | lia].
      * exists (AWorker w InNone). unfold step, step_worker.
        rewrite Hrun, Hw, Hwk. by eexists.
    + exists (AWorker w (InTime t)). unfold step, step_worker.
      rewrite Hrun, Hw. by eexists.
    + exists (AWorker w (InResp None)). unfold step, step_worker.
      rewrite Hrun, Hw. by eexists.
    + exists (AWorker w (InTime t)). unfold step, step_worker.
      rewrite Hrun, Hw. by eexists.
    + destruct (decide (length (latency s) < chanSize s)%nat) as [Hlt|Hge].
      * exists (AWorker w InNone). unfold step, step_worker.
        rewrite Hrun, Hw. cbn. rewrite Hlc. case_decide; [by eexists | lia].
      * destruct (Hcoll Hld) as (s' & [Hs|[Hl _]]); [by eauto|].
        rewrite Hl in Hge. cbn in Hge. lia.
    + exists (AWorker w InNone). unfold step, step_worker.
      rewrite Hrun, Hw. cbn.
      destruct (io_Copy_Discard (Body resp) 0) as [[written err] rest].
      by eexists.
  - exists (ACoord (InTime t)). unfold step, step_coord.
    rewrite Hrun, Hc. by eexists.
  - exists (ACoord InNone). unfold step, step_coord.
    rewrite Hrun, Hc. by eexists.
  - destruct (latencyDone s) eqn:Hld.
    + exists (ACoord InNone). unfold step, step_coord.
      rewrite Hrun, Hc, Hld. by eexists.
    + destruct (Hcoll eq_refl) as (s' & [Hs|[_ Hl]]); [by eauto|].
      rewrite I_latency_closed in Hl. done.
  - exists (ACoord InNone). unfold step, step_coord.
    rewrite Hrun, Hc. by eexists.
  - exists (ACoord InNone). unfold step, step_coord. rewrite Hrun, Hc.
    destruct (Marshal dp); by eexists.
  - pose proof (proj1 O_ret eq_refl). congruence.
Qed.

(** A running pipeline is never stuck: as long as the process has
    neither exited nor returned from [run], some goroutine can take its
    next step. *)
Theorem pipeline_never_stuck (t : Time) cfg dl (s : state) :
  reachable cfg dl s ->
  status s = Running ->
  exists a s', step a s = Some s'.
Proof.
  intros Hreach. apply (inv_progress t cfg dl).
  - by eapply reachable_inv.
  - by apply reachable_inv_out.
Qed.

Lemma step_steps_left cfg dl a (s s' : state) :
  inv cfg dl s -> step a s = Some s' ->
  (steps_left s' < steps_left s)%nat \/
  (status s' <> Running /\ 1 <= steps_left s)%nat.
Proof.
  intros [I_cfg I_recv I_sent I_inflight I_closed_feed I_wg I_exit I_spawn
          I_latency_closed I_done I_drained I_quantile I_order
          I_close_logged I_stdout I_nocrash] H.
  unfold step in H. destruct (status s) eqn:Hst; try done.
  destruct s as [c cs fd wk wc lat lc ld dg ws n pc out st tr].
  unfold steps_left. cbn in *. subst st.
  destruct a as [| |e|w e].
  - unfold step_feeder in H; cbn in H. destruct wc; [done|].
    destruct fd as [|f rest]; [|case_decide; [|done]]; simplify_eq;
      cbn; rewrite ?length_app; cbn; left; lia.
  - unfold step_collector in H; cbn in H. destruct ld; [done|].
    destruct lat as [|v rest]; [destruct lc; [|done]|]; simplify_eq;
      cbn; left; lia.
  - unfold step_coord in H; cbn in H.
    destruct pc as [|i t0|t0|t0|el|el|el|dp|]; [..|done];
      destruct e; try done.
    + simplify_eq. cbn. left. lia.
    + destruct I_spawn as (Hi & _ & _).
      destruct (Z.ltb_spec i (Goroutines c)); simplify_eq; cbn;
        rewrite ?sum_list_with_app; cbn; left; lia.
    + destruct (n =? 0)%Z; simplify_eq; cbn; left; lia.
    + simplify_eq. cbn. left. lia.
    + simplify_eq. cbn. left. lia.
    + destruct ld; simplify_eq; cbn; left; lia.
    + simplify_eq. cbn. left. lia.
    + destruct (Marshal dp); simplify_eq; cbn; [left; lia|].
      right. split; [done | lia].
  - unfold step_worker in H; cbn in H.
    destruct (ws !! w) as [p|] eqn:Hw; [|done].
    pose proof (sum_list_insert wcost ws w p) as Hin.
    pose proof (sum_list_lookup_le wcost ws w p Hw) as Hle.
    destruct p; cbn in H, Hle.
    + destruct wk as [|f wk]; [destruct wc; [|done]|]; cbn in H;
        simplify_eq; cbn.
      * specialize (Hin WExit Hw). cbn in Hin. left. lia.
      * specialize (Hin (WNow f) Hw). cbn in Hin. left. lia.
    + destruct e; try done. cbn in H. simplify_eq. cbn.
      specialize (Hin (WGet f t) Hw). cbn in Hin. left. lia.
    + destruct e as [| | |[resp|]|]; try done; cbn in H; simplify_eq; cbn.
      * specialize (Hin (WSince f start resp) Hw). cbn in Hin. left. lia.
      * right. split; [done | lia].
    + destruct e; try done. cbn in H. simplify_eq. cbn.
      specialize (Hin (WSend (Seconds (Sub t start)) resp) Hw).
      cbn in Hin. left. lia.
    + destruct e; try done. cbn in H.
      destruct lc; [|case_decide; [|done]]; simplify_eq; cbn.
      * right. split; [done | lia].
      * specialize (Hin (WCopy resp) Hw). cbn in Hin.
        rewrite length_app. cbn. left. lia.
    + destruct e; try done. cbn in H.
      destruct (io_Copy_Discard (Body resp) 0) as [[written err] rest].
      simplify_eq. cbn. specialize (Hin WRange Hw). cbn in Hin. left. lia.
    + by destruct e.
Qed.

Lemma exec_steps_left cfg dl sched : forall s s' : state,
  inv cfg dl s -> exec sched s = Some s' ->
  (length sched <= steps_left s)%nat.
Proof.
  induction sched as [|a sched IH]; intros s s' Hinv H; [cbn; lia|].
  cbn in H. destruct (step a s) as [s1|] eqn:Hs; [|done].
  destruct (step_steps_left _ _ _ _ _ Hinv Hs) as [Hlt|[Hst Hpos]].
  - assert (inv cfg dl s1) as Hinv1 by (by eapply step_inv).
    pose proof (IH s1 s' Hinv1 H) as Hrest. cbn [length].
    exact (Nat.le_trans _ _ _ (le_n_S _ _ Hrest) Hlt).
  - destruct sched as [|b sched]; [exact Hpos|]. cbn in H.
    unfold step in H. by destruct (status s1).
Qed.

(** Every run is finite: whatever the schedule and whatever the
    surroundings answer, a run over [L] items with [N] goroutines takes
    at most [8 L + 2 N + 10] steps. *)
Theorem run_steps_bounded cfg dl sched (s : state) :
  exec sched (init cfg dl) = Some s ->
  (length sched
   <= 8 * length dl + 2 * Z.to_nat (Goroutines cfg) + 10)%nat.
Proof.
  intros H.
  pose proof (exec_steps_left cfg dl sched _ _ (inv_init cfg dl) H) as Hb.
  unfold steps_left in Hb. cbn in Hb. lia.
Qed.

Lemma running_or_not (st : proc_status) : st = Running \/ st <> Running.
Proof. destruct st; auto. Qed.

Lemma inv_finishes (t : Time) cfg dl : forall n (s : state),
  inv cfg dl s -> inv_out cfg dl s -> (steps_left s <= n)%nat ->
  exists sched s',
    exec sched s = Some s' /\ status s' <> Running /\
    (length sched <= S n)%nat.
Proof.
  induction n as [|n IH]; intros s Hinv Hout Hn.
  - destruct (running_or_not (status s)) as [Hrun|Hrun];
      [|exists [], s; cbn; repeat split; [done | lia]].
    destruct (inv_progress t _ _ _ Hinv Hout Hrun) as (a & s1 & Hs).
    destruct (step_steps_left _ _ _ _ _ Hinv Hs) as [Hlt|[Hst Hpos]]; [lia|].
    exists [a], s1. cbn. rewrite Hs. repeat split; [done | lia].
  - destruct (running_or_not (status s)) as [Hrun|Hrun];
      [|exists [], s; cbn; repeat split; [done | lia]].
    destruct (inv_progress t _ _ _ Hinv Hout Hrun) as (a & s1 & Hs).
    destruct (step_steps_left _ _ _ _ _ Hinv Hs) as [Hlt|[Hst Hpos]].
    + destruct (IH s1) as (sched & s' & Hex & Hst & Hlen).
      * by eapply step_inv.
      * by eapply step_inv_out.
      * lia.
      * exists (a :: sched), s'. cbn. rewrite Hs.
        repeat split; [done | done | lia].
    + exists [a], s1. cbn. rewrite Hs. repeat split; [done | lia].
Qed.

(** Every run can be brought to an end: from any state a run can be in,
    some continuation of the schedule takes the process out of [run]
    (it returns or exits), whatever has happened so far. *)
Theorem run_always_finishes (t : Time) cfg dl (s : state) :
  reachable cfg dl s ->
  exists sched s',
    exec sched s = Some s' /\ status s' <> Running /\
    reachable cfg dl s'.
Proof.
  intros Hreach.
  destruct (inv_finishes t cfg dl (steps_left s) s)
    as (sched & s' & Hex & Hst & _).
  - by eapply reachable_inv.
  - by apply reachable_inv_out.
  - done.
  - exists sched, s'. repeat split; [done | done |].
    destruct Hreach as [sched0 H0]. exists (sched0 ++ sched).
    by rewrite (exec_app _ _ _ _ _ _ _ _ _ _ H0).
Qed.

Lemma buildDownloadList_GoOk_length cfg w out :
  buildDownloadList cfg w = Ret (GoOk out) ->
  length out = Z.to_nat (numFilesNeeded cfg).
Proof.
  intros Hout.
  pose proof (buildDownloadList_returns _ _ _ Hout) as [Hpos Hcap].
  destruct (list_pages (pages w) 0 []) as [keys| | |] eqn:Hpages;
    try (revert Hout;
         unfold buildDownloadList, buildDownloadList_fuel, listS3Files;
         by rewrite Hpages).
  assert (keys <> []) as Hne.
  { intros ->. revert Hout.
    unfold buildDownloadList, buildDownloadList_fuel, listS3Files.
    by rewrite Hpages. }
  destruct (buildDownloadList_spec cfg w keys Hpages Hne Hpos Hcap)
    as (shuffled & out' & _ & _ & _ & Hb & Hlen & _).
  congruence.
Qed.

(** What [parseFlags], [buildDownloadList] and the start of [run] give
    together: when the pipeline of a run starts on an accepted
    configuration, the work list has exactly the number of files the
    flags ask for, there are no more workers than items, and the
    channels have room for one item per worker, up to 1024. *)
Theorem accepted_flags_setup fl cfg w (s0 : state) :
  parseFlags fl = Ret cfg ->
  run_setup cfg w = Ret s0 ->
  exists downloadList,
    s0 = init cfg downloadList /\
    buildDownloadList cfg w = Ret (GoOk downloadList) /\
    Z.of_nat (length downloadList) = numFilesNeeded cfg /\
    (0 <= Goroutines cfg <= Z.of_nat (length downloadList))%Z /\
    Z.of_nat (chanSize s0) = Z.min (Goroutines cfg) 1024.
Proof.
  intros Hp Hs. unfold run_setup in Hs.
  destruct (config_ok w); [|done]. cbn in Hs.
  destruct (buildDownloadList cfg w) as [[dl|err]| | |] eqn:Hb; try done.
  cbn in Hs.
  pose proof (buildDownloadList_returns _ _ _ Hb) as [Hpos Hcap].
  pose proof (buildDownloadList_GoOk_length _ _ _ Hb) as Hlen.
  assert (Goroutines cfg <= numFilesNeeded cfg)%Z as Hle.
  { revert Hp. unfold parseFlags, numFilesNeeded.
    destruct (fileSets !! flag_set fl) as [fs|] eqn:Hfs; [|done].
    destruct (negb _); [done|].
    destruct (Z.gtb_spec (GoInt.of_uint (flag_goroutines fl))
                (GoInt.quo (GoInt.mul (GoInt.of_uint (flag_download fl)) MiB)
                           (Size fs))) as [|Hle]; [done|].
    intros [= <-]. cbn. by rewrite (fileSets_index_Some _ _ Hfs). }
  destruct (Z.gtb_spec (Goroutines cfg) 1024) as [Hgt|Hngt].
  - destruct (Z.ltb_spec 1024 0); [lia|]. simplify_eq.
    exists dl. repeat split; try done; try lia.
    cbn. destruct (Z.gtb_spec (Goroutines cfg) 1024); lia.
  - destruct (Z.ltb_spec (Goroutines cfg) 0); [done|]. simplify_eq.
    exists dl. repeat split; try done; try lia.
    cbn. destruct (Z.gtb_spec (Goroutines cfg) 1024); lia.
Qed.

Lemma run_output cfg w sched st o :
  run Sub Seconds Quantile float64 fdiv Marshal cfg w sched = Some (st, o) ->
  (st = Returned -> length o = 1%nat) /\ (st <> Returned -> o = []).
Proof.
  unfold run. destruct (run_setup cfg w) as [s0| | |] eqn:Hs0; try done.
  - destruct (exec sched s0) as [s|] eqn:Hex; [|done]. intros [= <- <-].
    assert (exists dl, s0 = init cfg dl) as [dl ->].
    { unfold run_setup in Hs0. destruct (config_ok w); [|done]. cbn in Hs0.
      destruct (buildDownloadList cfg w) as [[dl|err]| | |]; try done.
      cbn in Hs0. case_match; [done|]. simplify_eq. by exists dl. }
    destruct (reachable_inv_out cfg dl s) as [_ _ _ _ _ O_out _].
    { by exists sched. }
    destruct O_out as [[-> ?]|(? & ? & -> & -> & _)]; by split.
  - by intros [= <- <-].
  - by intros [= <- <-].
Qed.

Lemma main_loop_exit cfg envs : forall i out code out',
  (0 <= i)%Z ->
  main_loop Sub Seconds Quantile float64 fdiv Marshal cfg i 0 out envs
  = Exited code out' ->
  exists lines,
    out' = out ++ lines /\
    (forall j jb,
        lines !! j = Some jb ->
        exists w sched,
          envs !! j = Some (w, sched) /\
          run Sub Seconds Quantile float64 fdiv Marshal cfg w sched
          = Some (Returned, [jb])) /\
    ((code = 0%Z /\ length lines = Z.to_nat (Count cfg - i)) \/
     ((length lines < Z.to_nat (Count cfg - i))%nat /\
      exists w sched st,
        envs !! length lines = Some (w, sched) /\
        run Sub Seconds Quantile float64 fdiv Marshal cfg w sched
        = Some (st, []) /\
        ((exists k, st = Aborted k /\ code = 1%Z) \/
         (exists p, st = Crashed p /\ code = 2%Z)))).
Proof.
  induction envs as [|[w sched] envs IH]; intros i out code out' Hi H;
    cbn in H; destruct (Z.ltb_spec i (Count cfg)).
  - done.
  - simplify_eq. exists []. rewrite app_nil_r. split; [done|].
    split; [by intros j jb ?|]. left. split; [done | cbn; lia].
  - destruct (run _ _ _ _ _ _ cfg w sched) as [[st o]|] eqn:Hrun; [|done].
    destruct (run_output _ _ _ _ _ Hrun) as [Hret Hno].
    destruct st.
    + done.
    + change (GoInt.wrap (0 + 0)) with 0%Z in H.
      destruct o as [|jb [|]]; try (by specialize (Hret eq_refl)).
      destruct (IH (i + 1)%Z _ _ _ ltac:(lia) H)
        as (lines & -> & Hlines & Hend).
      exists (jb :: lines). rewrite <- app_assoc. split; [done|]. split.
      * intros [|j] jb' Hj; cbn in Hj.
        -- simplify_eq. by exists w, sched.
        -- by apply Hlines.
      * cbn [length]. destruct Hend as [[-> Hl]|[Hl Hdies]].
        -- left. split; [done | lia].
        -- right. split; [lia | done].
    + simplify_eq. rewrite (Hno ltac:(done)) in *. exists [].
      split; [done|]. split; [by intros j jb ?|]. right.
      split; [cbn; lia|]. exists w, sched, (Aborted k).
      split; [done|]. split; [done|]. left. by exists k.
    + simplify_eq. rewrite (Hno ltac:(done)) in *. exists [].
      split; [done|]. split; [by intros j jb ?|]. right.
      split; [cbn; lia|]. exists w, sched, (Crashed p).
      split; [done|]. split; [done|]. right. by exists p.
  - simplify_eq. exists []. rewrite app_nil_r. split; [done|].
    split; [by intros j jb ?|]. left. split; [done | cbn; lia].
Qed.

(** How [main] exits. A command line [pflag.Parse] cannot read gives
    status 2 and the error as the one line printed; flags that
    [parseFlags] rejects give status 1 and nothing printed. Otherwise
    the lines printed are the Datapoints of the runs that returned, one
    each and in order: all [Count] of them with status 0, or those
    before the first run that died, with status 1 when that run
    stopped through [log.Fatal] and 2 when it panicked. *)
Theorem main_exit args envs code out :
  main Sub Seconds Quantile float64 fdiv Marshal args envs
  = Exited code out ->
  (exists err, args = ParseErr err /\ code = 2%Z /\ out = [err]) \/
  (exists fl k,
      args = ParseOk fl /\ parseFlags fl = Fatal k /\
      classify k = ConfigurationError /\ code = 1%Z /\ out = []) \/
  (exists fl cfg,
      args = ParseOk fl /\ parseFlags fl = Ret cfg /\
      (forall j jb,
          out !! j = Some jb ->
          exists w sched,
            envs !! j = Some (w, sched) /\
            run Sub Seconds Quantile float64 fdiv Marshal cfg w sched
            = Some (Returned, [jb])) /\
      ((code = 0%Z /\ length out = Z.to_nat (Count cfg)) \/
       ((length out < Z.to_nat (Count cfg))%nat /\
        exists w sched st,
          envs !! length out = Some (w, sched) /\
          run Sub Seconds Quantile float64 fdiv Marshal cfg w sched
          = Some (st, []) /\
          ((exists k, st = Aborted k /\ code = 1%Z) \/
           (exists p, st = Crashed p /\ code = 2%Z))))).
Proof.
  unfold main. destruct args as [fl|err].
  - destruct (parseFlags fl) as [cfg|k|p|] eqn:Hp.
    + intros H. right. right. exists fl, cfg. split; [done|]. split; [done|].
      destruct (main_loop_exit cfg envs 0%Z _ _ _ ltac:(lia) H)
        as (lines & -> & Hlines & Hend).
      rewrite Z.sub_0_r in Hend. by split.
    + intros [= <- <-]. right. left. exists fl, k.
      by rewrite (parseFlags_Fatal_classify _ _ Hp).
    + exfalso. revert Hp. unfold parseFlags. by repeat case_match.
    + done.
  - intros [= <- <-]. left. by exists err.
Qed.

(** A count that does not fit an [int] turns negative: [main] then runs
    nothing at all and exits with status 0, as it does for [--count 0]. *)
Theorem main_count_wraps fl cfg envs :
  parseFlags fl = Ret cfg ->
  (flag_count fl = 0 \/ 2 ^ 63 <= flag_count fl <= GoInt.MaxUint)%Z ->
  (Count cfg <= 0)%Z /\
  main Sub Seconds Quantile float64 fdiv Marshal (ParseOk fl) envs
  = Exited 0 [].
Proof.
  intros Hp Hc. assert (Count cfg <= 0)%Z as Hle.
  { assert (Count cfg = GoInt.of_uint (flag_count fl)) as ->.
    { revert Hp. unfold parseFlags. repeat case_match; try done.
      by intros [= <-]. }
    unfold GoInt.of_uint, GoInt.wrap, GoInt.MaxUint in *.
    destruct Hc as [->|Hc]; [done|].
    replace (flag_count fl + 2 ^ 63)%Z
      with (flag_count fl - 2 ^ 63 + 1 * 2 ^ 64)%Z by lia.
    rewrite Z.mod_add, Z.mod_small by lia. lia. }
  split; [done|]. unfold main. rewrite Hp.
  destruct envs as [|[w sched] envs]; cbn;
    by destruct (Z.ltb_spec 0 (Count cfg)); [lia|].
Qed.
End PipelineMoreFacts.

(** ** The scripts: gen-rand.pl and the sweep *)

Section PerlFacts.
Import Perl.
Local Open Scope Z_scope.

Lemma hex_digit_val_digit d :
  0 <= d < 16 -> hex_digit_val (hex_digit d) = d.
Proof.
  intros Hd. rewrite <- (Z2Nat.id d) by lia.
  assert (Z.to_nat d < 16)%nat as Hn by lia.
  revert Hn. generalize (Z.to_nat d). intros n Hn.
  do 16 (destruct n as [|n]; [reflexivity|]). lia.
Qed.

Lemma hex_fold_shift ds : forall a,
  fold_left (fun acc c => 16 * acc + hex_digit_val c) ds a
  = a * 16 ^ Z.of_nat (length ds) + hex_val ds.
Proof.
  unfold hex_val. induction ds as [|c ds IH]; intros a; cbn [fold_left length].
  - cbn. lia.
  - rewrite IH, (IH (16 * 0 + hex_digit_val c)).
    rewrite Nat2Z.inj_succ, Z.pow_succ_r by lia. lia.
Qed.

Lemma hex_val_cons c ds :
  hex_val (c :: ds) = hex_digit_val c * 16 ^ Z.of_nat (length ds) + hex_val ds.
Proof.
  unfold hex_val at 1. cbn [fold_left]. rewrite hex_fold_shift.
  ring.
Qed.

Lemma hex_val_zeros k ds :
  hex_val (replicate k "0"%char ++ ds) = hex_val ds.
Proof.
  induction k as [|k IH]; [done|]. cbn [replicate app].
  rewrite hex_val_cons, IH.
  change (hex_digit_val "0"%char) with 0. lia.
Qed.

Lemma hex_of_val fuel : forall n acc,
  0 <= n < 16 ^ Z.of_nat fuel ->
  hex_val (hex_of fuel n acc) = n * 16 ^ Z.of_nat (length acc) + hex_val acc.
Proof.
  induction fuel as [|fuel IH]; intros n acc Hn.
  - assert (n = 0) as -> by (cbn in Hn; lia). cbn [hex_of]. ring.
  - cbn [hex_of]. rewrite Nat2Z.inj_succ, Z.pow_succ_r in Hn by lia.
    pose proof (Z.div_mod n 16 ltac:(lia)) as Hdm.
    pose proof (Z.mod_pos_bound n 16 ltac:(lia)) as Hm.
    assert (0 <= n / 16 < 16 ^ Z.of_nat fuel) as Hq.
    { split; [apply Z.div_pos; lia|]. apply Z.div_lt_upper_bound; lia. }
    destruct (Z.eqb_spec (n / 16) 0) as [E|E].
    + rewrite hex_val_cons, hex_digit_val_digit by lia. nia.
    + rewrite IH by done. cbn [length].
      rewrite hex_val_cons, hex_digit_val_digit by lia.
      rewrite Nat2Z.inj_succ, Z.pow_succ_r by lia. nia.
Qed.

Lemma sprintf_08x_hex_val i : 0 <= i -> hex_val (sprintf_08x i) = i.
Proof.
  intros Hi. unfold sprintf_08x.
  rewrite hex_val_zeros, hex_of_val; [cbn; lia|].
  split; [done|]. rewrite Nat2Z.inj_succ, Z2Nat.id by apply Z.log2_nonneg.
  destruct (decide (i = 0)) as [->|Hne]; [done|].
  pose proof (Z.log2_spec i ltac:(lia)) as [_ Hlt].
  eapply Z.lt_le_trans; [exact Hlt|].
  apply Z.pow_le_mono_l. lia.
Qed.

Lemma sprintf_08x_length i : (8 <= length (sprintf_08x i))%nat.
Proof. unfold sprintf_08x. rewrite length_app, length_replicate. lia. Qed.

Lemma sizes_length s :
  s ∈ sizes -> length (String.list_ascii_of_string s) = 4%nat.
Proof.
  unfold sizes. intros H.
  repeat (apply elem_of_cons in H as [->|H]; [reflexivity|]).
  by apply elem_of_nil in H.
Qed.

Lemma substr_last2_length base :
  (2 <= length base)%nat -> length (substr_last2 base) = 2%nat.
Proof. intros H. unfold substr_last2. rewrite length_drop. lia. Qed.

(** gen-rand.pl never writes two files to the same path: the path tells
    the label and the number of the file. *)
Theorem gen_rand_paths_distinct s s' i j :
  s ∈ sizes -> s' ∈ sizes -> 0 <= i -> 0 <= j ->
  path s i = path s' j -> s = s' /\ i = j.
Proof.
  intros Hs Hs' Hi Hj Hp. unfold path in Hp.
  apply (f_equal String.list_ascii_of_string) in Hp.
  rewrite !String.list_ascii_of_string_of_list_ascii in Hp.
  pose proof (sprintf_08x_hex_val i Hi) as Hvi.
  pose proof (sprintf_08x_hex_val j Hj) as Hvj.
  pose proof (sprintf_08x_length i) as Hli.
  pose proof (sprintf_08x_length j) as Hlj.
  apply app_inj_1 in Hp as [Hl Hp];
    [|by rewrite !sizes_length].
  split.
  - rewrite <- (String.string_of_list_ascii_of_string s),
      <- (String.string_of_list_ascii_of_string s'). by rewrite Hl.
  - injection Hp as Hp. apply app_inj_1 in Hp as [_ Hp];
      [|rewrite !substr_last2_length; lia].
    injection Hp as Hp. by rewrite <- Hvi, <- Hvj, Hp.
Qed.

(** gen-rand.pl and the file-set table of main.go agree: the script's
    labels are the table's keys, the size it gives the files of a label
    is the table's size for it, the files of a label add up to exactly
    10 GiB for a label that starts with M and to exactly 1 GiB for the
    others, and every block it copies lies within that much of the
    start of its source. *)
Theorem gen_rand_matches_fileSets s :
  (s ∈ sizes <-> is_Some (fileSets !! s)) /\
  (s ∈ sizes ->
   exists filesize files_to_make,
     gen_plan s = Some (filesize, files_to_make) /\
     fileSets !! s = Some {| Size := filesize |} /\
     filesize * files_to_make
     = (if String.prefix "M" s then 10 * 1024 ^ 3 else 1024 ^ 3) /\
     length (gen_commands s) = Z.to_nat files_to_make /\
     forall c, c ∈ gen_commands s ->
               dd_bs c = filesize /\ 0 <= dd_skip c /\
               dd_bs c * (dd_skip c + 1) <= filesize * files_to_make).
Proof.
  assert (s ∈ sizes ->
   exists filesize files_to_make,
     gen_plan s = Some (filesize, files_to_make) /\
     fileSets !! s = Some {| Size := filesize |} /\
     0 < filesize /\
     filesize * files_to_make
     = (if String.prefix "M" s then 10 * 1024 ^ 3 else 1024 ^ 3)) as Hplan.
  { unfold sizes. intros H.
    repeat (apply elem_of_cons in H as [->|H];
            [eexists _, _; split; [vm_compute; reflexivity|];
             split; [vm_compute; reflexivity|];
             split; [reflexivity|]; vm_compute; reflexivity|]).
    by apply elem_of_nil in H. }
  split; [split|].
  - intros (fs & n & _ & -> & _)%Hplan. by eexists.
  - intros [fs H]. apply fileSets_lookup in H. unfold fileSets_entries in H.
    repeat (apply elem_of_cons in H as [Heq|H];
            [apply (f_equal fst) in Heq; cbn in Heq; subst s;
             unfold sizes; repeat constructor|]).
    by apply elem_of_nil in H.
  - intros (fs & n & Hg & Hf & Hpos & Hd)%Hplan. exists fs, n.
    split; [done|]. split; [done|]. split; [done|].
    unfold gen_commands. rewrite Hg. split.
    + by rewrite length_fmap, length_seqZ.
    + intros c (i & -> & Hi)%list_elem_of_fmap. apply elem_of_seqZ in Hi.
      cbn. split; [done|]. split; [lia|]. nia.
Qed.

(** Every command of the sweep passes [parseFlags], with no more
    goroutines than files, and asks for exactly as many files as
    gen-rand.pl makes for its set, of the size it gives them. *)
Theorem sweep_commands_accepted fl :
  fl ∈ sweep_commands ->
  exists cfg filesize files_to_make,
    parseFlags fl = Ret cfg /\
    gen_plan (flag_set fl) = Some (filesize, files_to_make) /\
    Count cfg = 20 /\
    Size (fileSets_index (FileSetName cfg)) = filesize /\
    numFilesNeeded cfg = files_to_make /\
    Goroutines cfg = flag_goroutines fl /\
    Goroutines cfg <= numFilesNeeded cfg.
Proof.
  intros Hin.
  assert (forallb sweep_command_ok sweep_commands = true) as Hall
    by (vm_compute; reflexivity).
  rewrite forallb_forall in Hall.
  specialize (Hall fl (proj1 (list_elem_of_In _ _) Hin)).
  unfold sweep_command_ok in Hall.
  destruct (parseFlags fl) as [cfg| | |]; try done.
  destruct (gen_plan (flag_set fl)) as [[fs n]|]; [|done].
  repeat (apply andb_prop in Hall as [Hall ?]).
  exists cfg, fs, n. repeat split; try done; lia.
Qed.
End PerlFacts.

(** ** The facts on the builder, the pipeline and the scripts at concrete inputs *)

Section ConcreteMore.
Import Demo Process.

Local Abbreviation libs f :=
  (f Stub.Sub Stub.Seconds Stub.Quantile Stub.float64 Stub.fdiv Stub.Marshal).

Lemma parseFlags_in_range_witness :
  exists cfg,
    parseFlags flags_one = Ret cfg /\
    DownloadSizeBytes cfg = (2 * MiB)%Z /\
    Goroutines cfg = 1%Z /\
    FileSetName cfg = "M001".
Proof.
  apply (parseFlags_in_range flags_one).
  - vm_compute; discriminate.
  - vm_compute; discriminate.
  - vm_compute. split; discriminate.
Defined.

Lemma parseFlags_small_set_any_volume_witness :
  fileSets !! flag_set flags_one = Some {| Size := MiB |} /\
  parseFlags flags_one <> Fatal (FatalNotMultiple 2 MiB).
Proof.
  split; [reflexivity|].
  apply (parseFlags_small_set_any_volume flags_one {| Size := MiB |}).
  - reflexivity.
  - vm_compute; discriminate.
Defined.

Lemma parseFlags_accepts_valid_witness :
  exists fs,
    fileSets !! FileSetName cfg_one = Some fs /\
    FileSetName cfg_one = flag_set flags_one /\
    EC2Instance cfg_one = flag_instance flags_one /\
    GoInt.is_int (Count cfg_one) /\
    GoInt.is_int (DownloadSizeBytes cfg_one) /\
    GoInt.is_int (Goroutines cfg_one) /\
    (Size fs | DownloadSizeBytes cfg_one)%Z /\
    (Goroutines cfg_one <= numFilesNeeded cfg_one)%Z.
Proof.
  apply (parseFlags_accepts_valid flags_one cfg_one).
  vm_compute; reflexivity.
Defined.

Lemma buildDownloadList_balanced_witness :
  (Z.to_nat (numFilesNeeded cfg_five) / length [key_a; key_b]
   * occurrences key_a [key_a; key_b]
   <= occurrences key_a downloadList_five
   <= (Z.to_nat (numFilesNeeded cfg_five) / length [key_a; key_b] + 1)
      * occurrences key_a [key_a; key_b])%nat /\
  ((Z.to_nat (numFilesNeeded cfg_five) mod length [key_a; key_b] = 0)%nat ->
   occurrences key_a downloadList_five
   = (Z.to_nat (numFilesNeeded cfg_five) / length [key_a; key_b]
      * occurrences key_a [key_a; key_b])%nat).
Proof.
  apply (buildDownloadList_balanced cfg_five world_two).
  - reflexivity.
  - vm_compute; reflexivity.
Defined.

Lemma buildDownloadList_no_cycling_witness :
  exists shuffled,
    listS3Files cfg_one world_two = Ret (GoOk shuffled) /\
    downloadList = take (Z.to_nat (numFilesNeeded cfg_one)) shuffled /\
    (NoDup [key_a; key_b] -> NoDup downloadList) /\
    (Z.to_nat (numFilesNeeded cfg_one) = length [key_a; key_b] ->
     downloadList ≡ₚ [key_a; key_b]).
Proof.
  apply (buildDownloadList_no_cycling cfg_one world_two).
  - reflexivity.
  - vm_compute; reflexivity.
  - vm_compute. lia.
Defined.

Lemma buildDownloadList_only_listed_witness :
  key_a ∈ [key_a; key_b].
Proof.
  apply (buildDownloadList_only_listed cfg_five world_two [key_a; key_b]
           downloadList_five key_a).
  - reflexivity.
  - vm_compute; reflexivity.
  - apply list_elem_of_here.
Defined.

Lemma buffers_bounded_witness :
  (length (work (state_at cfg_one sched_first))
   <= chanSize (state_at cfg_one sched_first))%nat /\
  (length (latency (state_at cfg_one sched_first))
   <= chanSize (state_at cfg_one sched_first))%nat /\
  (chanSize (state_at cfg_one sched_first) <= 1024)%nat /\
  (chanSize (state_at cfg_one sched_first)
   <= Z.to_nat (Goroutines cfg_one))%nat.
Proof.
  apply (libs buffers_bounded cfg_one downloadList).
  apply (reachable_state_at _ sched_first). vm_compute; reflexivity.
Defined.

Lemma downloads_in_flight_bounded_witness :
  (sum_list_with inflight (workers (state_at cfg_one sched_second))
   <= length (workers (state_at cfg_one sched_second))
   <= Z.to_nat (Goroutines cfg_one))%nat.
Proof.
  apply (libs downloads_in_flight_bounded cfg_one downloadList).
  apply (reachable_state_at _ sched_second). vm_compute; reflexivity.
Defined.

Lemma pipeline_never_panics_witness :
  (forall p, status (state_at cfg_one sched_torn) <> Crashed p) /\
  wg (state_at cfg_one sched_torn)
  = Z.of_nat (sum_list_with active (workers (state_at cfg_one sched_torn))) /\
  (0 <= wg (state_at cfg_one sched_torn))%Z.
Proof.
  apply (libs pipeline_never_panics cfg_one downloadList).
  apply (reachable_state_at _ sched_torn). vm_compute; reflexivity.
Defined.

Lemma pipeline_keeps_order_witness :
  recv_log (trace (state_at cfg_one sched_first))
  ++ work (state_at cfg_one sched_first)
  ++ feed (state_at cfg_one sched_first) = downloadList /\
  sent_log (trace (state_at cfg_one sched_first))
  = td (state_at cfg_one sched_first)
    ++ latency (state_at cfg_one sched_first).
Proof.
  apply (libs pipeline_keeps_order cfg_one downloadList).
  apply (reachable_state_at _ sched_first). vm_compute; reflexivity.
Defined.

Lemma printed_datapoint_witness :
  (status (state_at cfg_one sched_full) <> Returned ->
   stdout (state_at cfg_one sched_full) = []) /\
  (status (state_at cfg_one sched_full) = Returned ->
   exists elapsedSec jb,
     stdout (state_at cfg_one sched_full) = [jb] /\
     Stub.Marshal
       (mkDatapoint Stub.Quantile Stub.float64 Stub.fdiv cfg_one elapsedSec
          (td (state_at cfg_one sched_full)))
     = Some jb /\
     td (state_at cfg_one sched_full)
     = sent_log (trace (state_at cfg_one sched_full)) /\
     ((1 <= Goroutines cfg_one)%Z ->
      length (td (state_at cfg_one sched_full)) = length downloadList)).
Proof.
  apply (libs printed_datapoint cfg_one downloadList).
  apply (reachable_state_at _ sched_full). vm_compute; reflexivity.
Defined.

Lemma run_endings_witness :
  status (state_at cfg_one sched_full) = Running \/
  status (state_at cfg_one sched_full) = Returned \/
  (exists f, status (state_at cfg_one sched_full)
             = Aborted (FatalDownload f)) \/
  status (state_at cfg_one sched_full) = Aborted FatalEncodeJSON.
Proof.
  apply (libs run_endings cfg_one downloadList).
  apply (reachable_state_at _ sched_full). vm_compute; reflexivity.
Defined.

Lemma encode_error_aborts_witness :
  exists s',
    step Stub.Sub Stub.Seconds Stub.Quantile Stub.float64 Stub.fdiv
         Marshal_fails (ACoord InNone) (state_at cfg_one sched_marshal)
    = Some s' /\
    status s' = Aborted FatalEncodeJSON /\
    status_exit_code (status s') = Some 1%Z /\
    stdout s' = [] /\
    (forall a, step Stub.Sub Stub.Seconds Stub.Quantile Stub.float64
                    Stub.fdiv Marshal_fails a s' = None).
Proof.
  apply (encode_error_aborts Stub.Sub Stub.Seconds Stub.Quantile
           Stub.float64 Stub.fdiv Marshal_fails cfg_one downloadList
           (state_at cfg_one sched_marshal)
           (mkDatapoint Stub.Quantile Stub.float64 Stub.fdiv cfg_one 100%Z
              [40%Z; 30%Z])).
  - exists sched_marshal. vm_compute; reflexivity.
  - vm_compute; reflexivity.
  - vm_compute; reflexivity.
  - reflexivity.
Defined.

Lemma pipeline_never_stuck_witness :
  exists a s', Stub.step a (state_at cfg_one sched_second) = Some s'.
Proof.
  apply (libs pipeline_never_stuck 0%Z cfg_one downloadList).
  - apply (reachable_state_at _ sched_second). vm_compute; reflexivity.
  - vm_compute; reflexivity.
Defined.

Lemma run_steps_bounded_witness :
  (length sched_full
   <= 8 * length downloadList + 2 * Z.to_nat (Goroutines cfg_one) + 10)%nat.
Proof.
  apply (libs run_steps_bounded cfg_one downloadList sched_full
           (state_at cfg_one sched_full)).
  vm_compute; reflexivity.
Defined.

Lemma run_always_finishes_witness :
  exists sched s',
    Stub.exec sched (state_at cfg_one sched_second) = Some s' /\
    status s' <> Running /\
    Stub.reachable cfg_one downloadList s'.
Proof.
  apply (libs run_always_finishes 0%Z cfg_one downloadList).
  apply (reachable_state_at _ sched_second). vm_compute; reflexivity.
Defined.

Lemma accepted_flags_setup_witness :
  exists dl,
    Stub.init cfg_one downloadList = init cfg_one dl /\
    buildDownloadList cfg_one world_two = Ret (GoOk dl) /\
    Z.of_nat (length dl) = numFilesNeeded cfg_one /\
    (0 <= Goroutines cfg_one <= Z.of_nat (length dl))%Z /\
    Z.of_nat (chanSize (Stub.init cfg_one downloadList))
    = Z.min (Goroutines cfg_one) 1024.
Proof.
  apply (accepted_flags_setup flags_one cfg_one world_two).
  - vm_compute; reflexivity.
  - vm_compute; reflexivity.
Defined.

(** One run asked for, and it returns. *)
Lemma main_exit_witness :
  (exists err, ParseOk flags_one = ParseErr err /\ 0%Z = 2%Z /\
               ["M001 40 40 40"] = [err]) \/
  (exists fl k,
      ParseOk flags_one = ParseOk fl /\ parseFlags fl = Fatal k /\
      classify k = ConfigurationError /\ 0%Z = 1%Z /\
      ["M001 40 40 40"] = []) \/
  (exists fl cfg,
      ParseOk flags_one = ParseOk fl /\ parseFlags fl = Ret cfg /\
      (forall j jb,
          ["M001 40 40 40"] !! j = Some jb ->
          exists w sched,
            [(world_two, sched_full)] !! j = Some (w, sched) /\
            Stub.run cfg w sched = Some (Returned, [jb])) /\
      ((0%Z = 0%Z /\ length ["M001 40 40 40"] = Z.to_nat (Count cfg)) \/
       ((length ["M001 40 40 40"] < Z.to_nat (Count cfg))%nat /\
        exists w sched st,
          [(world_two, sched_full)] !! length ["M001 40 40 40"]
          = Some (w, sched) /\
          Stub.run cfg w sched = Some (st, []) /\
          ((exists k, st = Aborted k /\ 0%Z = 1%Z) \/
           (exists p, st = Crashed p /\ 0%Z = 2%Z))))).
Proof.
  apply (libs main_exit (ParseOk flags_one) [(world_two, sched_full)]).
  vm_compute; reflexivity.
Defined.

(** A command line that does not parse, and flags that are rejected. *)
Example main_exits_early :
  Process.main (ParseErr "unknown flag: --sets") [] =
  Exited 2 ["unknown flag: --sets"] /\
  Process.main (ParseOk flags_wrapped) [(world_two, sched_full)]
  = Exited 2 [] /\
  Process.main (ParseOk {| flag_count := 1; flag_instance := "unknown";
                           flag_goroutines := 3; flag_set := "M001";
                           flag_download := 2 |}) [] = Exited 1 [].
Proof. repeat split; vm_compute; reflexivity. Qed.

Lemma main_count_wraps_witness :
  (Count {| Count := GoInt.MinInt; DownloadSizeBytes := 2 * MiB;
            EC2Instance := "unknown"; FileSetName := "M001";
            Goroutines := 1 |} <= 0)%Z /\
  Process.main (ParseOk flags_no_runs) [(world_two, sched_full)]
  = Exited 0 [].
Proof.
  apply (libs main_count_wraps flags_no_runs).
  - vm_compute; reflexivity.
  - right. vm_compute. split; discriminate.
Defined.

Lemma gen_rand_paths_distinct_witness :
  Perl.path "K001" 255 = "K001/ff/000000ff" /\
  "K001" = "K001" /\ 255%Z = 255%Z.
Proof.
  split; [vm_compute; reflexivity|].
  apply (gen_rand_paths_distinct "K001" "K001" 255 255).
  - apply list_elem_of_here.
  - apply list_elem_of_here.
  - vm_compute; discriminate.
  - vm_compute; discriminate.
  - reflexivity.
Defined.

Lemma sweep_commands_accepted_witness :
  exists cfg filesize files_to_make,
    parseFlags {| flag_count := 20; flag_instance := "c5n.2xlarge";
                  flag_goroutines := 40; flag_set := "M256";
                  flag_download := 10240 |} = Ret cfg /\
    Perl.gen_plan "M256" = Some (filesize, files_to_make) /\
    Count cfg = 20%Z /\
    Size (fileSets_index (FileSetName cfg)) = filesize /\
    numFilesNeeded cfg = files_to_make /\
    Goroutines cfg = 40%Z /\
    (Goroutines cfg <= numFilesNeeded cfg)%Z.
Proof.
  apply (sweep_commands_accepted
           {| flag_count := 20; flag_instance := "c5n.2xlarge";
              flag_goroutines := 40; flag_set := "M256";
              flag_download := 10240 |}).
  apply list_elem_of_In. vm_compute. do 3 right. left. reflexivity.
Defined.
End ConcreteMore.
